(** * Perspective-correction document scanner: corner-point editor and
      perspective resampler

    A shallow embedding of [utils/perspectiveUtils.ts] ([getHomographyMatrix],
    [warpPerspective]) and of the state handling of
    [components/ImageCropper.tsx] ([updateLayout], [handleMove],
    [resetPoints], [handleProcessAndSave]); further on, of the code around
    them: the pages of [components/PrintLayout.tsx], the sizes of
    [utils/imageUtils.ts], the retry loop of [services/geminiService.ts],
    the weather icon, and the list of workers of [App.tsx] with the image
    editor's [onSave] and the merge of a bulk upload.

    Numbers.  A JavaScript [number] is an IEEE-754 binary64 value.  Here it
    is idealised as a real number: every arithmetic operation of the source
    is the exact operation on [R], so rounding error is outside the model
    and a statement "within tolerance" becomes an exact equation.  A
    division whose divisor is zero has a non-finite IEEE result (NaN or an
    infinity), which is not a real number: each function below that
    divides says how this case is treated.  Integer quantities (pixel
    indices, canvas sizes, byte values) are [Z]. *)

From Stdlib Require Import Reals Lra Lia ZArith List RNsatz.
From stdpp Require Import base list list_numbers strings.

#[global] Instance R_inhabited : Inhabited R := populate 0%R.
#[global] Instance Rlt_decision (x y : R) : Decision (x < y)%R := Rlt_dec x y.
#[global] Instance Rgt_decision (x y : R) : Decision (x > y)%R := Rgt_dec x y.
#[global] Instance Rge_decision (x y : R) : Decision (x >= y)%R := Rge_dec x y.
#[global] Instance Req_decision : EqDecision R := Req_dec_T.

(** ** types.ts *)

Module Point.
Record t : Type := mk { x : R; y : R }.
End Point.

#[global] Instance Point_inhabited : Inhabited Point.t :=
  populate (Point.mk 0 0).

(** ** perspectiveUtils.ts: getHomographyMatrix *)

(** The system [a . x = b]: [a] is an array of rows. *)
Abbreviation matrix := (list (list R)).
Abbreviation vector := (list R).

Section Homography.
Local Open Scope R_scope.

(** [const n = 8] *)
Definition n : nat := 8.


(** The first loop: two rows of [a] and two entries of [b] are pushed for
    each of the four correspondences.  Reading [src[i]] or [dst[i]] past
    the end of the array is a TypeError in the source: [None]. *)
Definition push_rows (src dst : list Point.t)
    (ab : option (matrix * vector)) (i : nat) : option (matrix * vector) :=
  '(a, b) ← ab;
  s ← src !! i;
  d ← dst !! i;
  let x := Point.x s in
  let y := Point.y s in
  let X := Point.x d in
  let Y := Point.y d in
  Some (a ++ [ [x; y; 1; 0; 0; 0; - x * X; - y * X];
               [0; 0; 0; x; y; 1; - x * Y; - y * Y] ],
        b ++ [X; Y]).

Definition build_system (src dst : list Point.t) : option (matrix * vector) :=
  foldl (push_rows src dst) (Some ([], [])) (seq 0 4).

(** [a[j][i]] *)
Definition entry (a : matrix) (j i : nat) : R := (a !!! j) !!! i.

(** The pivot search of step [i]: the row index, among [i .. n-1], of the
    first entry of largest absolute value in column [i]. *)
Definition pivot_search (a : matrix) (i : nat) : nat :=
  foldl (fun pivot j =>
           if decide (Rabs (entry a j i) > Rabs (entry a pivot i))
           then j else pivot)
        i (seq (i + 1) (n - (i + 1))).

(** [[l[i], l[pivot]] = [l[pivot], l[i]]]: both reads happen before the
    two writes. *)
Definition swap {A : Type} `{Inhabited A} (l : list A) (i pivot : nat) : list A :=
  <[pivot := l !!! i]> (<[i := l !!! pivot]> l).

(** [a[j][k] -= factor * a[i][k]] *)
Definition sub_entry (i j : nat) (factor : R) (a : matrix) (k : nat) : matrix :=
  <[j := <[k := entry a j k - factor * entry a i k]> (a !!! j)]> a.

(** The body of the loop over the rows [j] below the pivot row [i]. *)
Definition eliminate_row (i : nat) (ab : matrix * vector) (j : nat)
    : matrix * vector :=
  let '(a, b) := ab in
  let factor := entry a j i / entry a i i in
  let b := <[j := (b !!! j) - factor * (b !!! i)]> b in
  let a := foldl (sub_entry i j factor) a (seq i (n - i)) in
  (a, b).

(** One step of the elimination.  Every division of the source has the
    pivot [a[i][i]] as its divisor; when the pivot is zero (after the
    search, so the whole column is zero from row [i] down) the quotients
    are NaN or infinite and so is every entry of the returned matrix but
    the last: the model returns [None] for this non-finite result. *)
Definition gauss_step (ab : option (matrix * vector)) (i : nat)
    : option (matrix * vector) :=
  '(a, b) ← ab;
  let pivot := pivot_search a i in
  let a := swap a i pivot in
  let b := swap b i pivot in
  if decide (entry a i i = 0) then None
  else Some (foldl (eliminate_row i) (a, b) (seq (i + 1) (n - (i + 1)))).

Definition eliminate (ab : matrix * vector) : option (matrix * vector) :=
  foldl gauss_step (Some ab) (seq 0 n).

(** [sum += a[i][j] * x[j]] for [j] in [i+1 .. n-1]. *)
Definition row_sum (a : matrix) (x : vector) (i : nat) : R :=
  foldl (fun sum j => sum + entry a i j * (x !!! j)) 0 (seq (i + 1) (n - (i + 1))).

(** Back-substitution: [i] runs from [n-1] down to [0]. *)
Definition back_substitute (a : matrix) (b : vector) : vector :=
  foldl (fun x i => <[i := ((b !!! i) - row_sum a x i) / entry a i i]> x)
        (replicate n 0) (rev (seq 0 n)).

(** [getHomographyMatrix(src, dst)]: the nine entries of the matrix, the
    last one being [1].  [None]: a point is missing, or the result is not
    finite; [warpPerspective] passes two arrays of four points, so there
    [None] is a result that is not finite. *)
Definition getHomographyMatrix (src dst : list Point.t) : option (list R) :=
  ab ← build_system src dst;
  '(a, b) ← eliminate ab;
  Some (back_substitute a b ++ [1]).

(** The sum of [f k] over the indices [k] of a list. *)
Definition big (ks : list nat) (f : nat -> R) : R :=
  foldr (fun k s => f k + s) 0 ks.

(** Row [i] of [a] applied to [x]. *)
Definition row_dot (a : matrix) (x : vector) (i : nat) : R :=
  big (seq 0 n) (fun k => entry a i k * (x !!! k)).

(** [x] solves the linear system [a . x = b]. *)
Definition solves (a : matrix) (b : vector) (x : vector) : Prop :=
  length x = n /\ forall i, (i < n)%nat -> row_dot a x i = b !!! i.

(** [a] is an [n] by [n] matrix and [b] has [n] entries. *)
Definition well_shaped (a : matrix) (b : vector) : Prop :=
  length a = n /\ length b = n /\ forall i, (i < n)%nat -> length (a !!! i) = n.

(** The only solution of [a . x = 0] is [x = 0]. *)
Definition nonsingular (a : matrix) : Prop :=
  forall x : vector, length x = n ->
    (forall i, (i < n)%nat -> row_dot a x i = 0) ->
    forall k, (k < n)%nat -> x !!! k = 0.

End Homography.

(** ** perspectiveUtils.ts: warpPerspective *)

(** The [ImageData] of a canvas: [data] holds four bytes (R, G, B, A) per
    pixel, row by row. *)
Module ImageData.
Record t : Type := mk { width : Z; height : Z; data : list Z }.
End ImageData.

(** What [getImageData] guarantees of the decoded source image. *)
Definition well_formed (img : ImageData.t) : Prop :=
  (0 < ImageData.width img)%Z /\ (0 < ImageData.height img)%Z /\
  length (ImageData.data img)
    = Z.to_nat (4 * ImageData.width img * ImageData.height img) /\
  Forall (fun v => 0 <= v <= 255)%Z (ImageData.data img).

(** How the run of the [onload] handler of [warpPerspective] ends: the
    promise is resolved with the destination raster (its JPEG encoding,
    [toDataURL], is not modelled), or an exception leaves the handler.
    The two drawing contexts are taken to be available. *)
Inductive outcome : Type :=
  | Resolved (dst : ImageData.t)
  | Thrown.

Section Resampler.
Local Open Scope R_scope.

(** [Math.floor] *)
Definition floor (r : R) : Z := Int_part r.

(** Storing a number into a [Uint8ClampedArray]: clamp to [0, 255] and
    round to the nearest integer, ties to even. *)
Definition toUint8Clamp (r : R) : Z :=
  if decide (r < 0) then 0%Z
  else if decide (r > 255) then 255%Z
  else
    let f := floor r in
    if decide (r - IZR f < 1 / 2) then f
    else if decide (r - IZR f > 1 / 2) then (f + 1)%Z
    else if Z.even f then f else (f + 1)%Z.

(** [d[idx] = v] on a typed array: a store past the end is ignored.  [None]
    stands for NaN (arithmetic on [undefined]), which is stored as [0]. *)
Definition stored (v : option R) : Z :=
  match v with Some r => toUint8Clamp r | None => 0%Z end.

Definition store (d : list Z) (idx : Z) (v : option R) : list Z :=
  <[Z.to_nat idx := stored v]> d.

(** [sData[idx]] as a number: a read outside the array is [undefined]. *)
Definition load (sData : list Z) (idx : Z) : option R :=
  if decide (0 <= idx)%Z then IZR <$> sData !! Z.to_nat idx else None.

(** Edge lengths of the quadrilateral and the destination size. *)
Definition topWidth (c0 c1 : Point.t) : R :=
  sqrt ((Point.x c1 - Point.x c0) ^ 2 + (Point.y c1 - Point.y c0) ^ 2).
Definition bottomWidth (c2 c3 : Point.t) : R :=
  sqrt ((Point.x c2 - Point.x c3) ^ 2 + (Point.y c2 - Point.y c3) ^ 2).
Definition leftHeight (c0 c3 : Point.t) : R :=
  sqrt ((Point.x c3 - Point.x c0) ^ 2 + (Point.y c3 - Point.y c0) ^ 2).
Definition rightHeight (c1 c2 : Point.t) : R :=
  sqrt ((Point.x c2 - Point.x c1) ^ 2 + (Point.y c2 - Point.y c1) ^ 2).

Definition destWidth (c0 c1 c2 c3 : Point.t) : Z :=
  floor (Rmax (topWidth c0 c1) (bottomWidth c2 c3)).
Definition destHeight (c0 c1 c2 c3 : Point.t) : Z :=
  floor (Rmax (leftHeight c0 c3) (rightHeight c1 c2)).

Definition dstPts (width height : Z) : list Point.t :=
  [ Point.mk 0 0; Point.mk (IZR width) 0;
    Point.mk (IZR width) (IZR height); Point.mk 0 (IZR height) ].

(** [Src(u, v, w) = H * Dst(x, y, 1)] *)
Definition map_u (h : list R) (x y : Z) : R :=
  (h !!! 0%nat) * IZR x + (h !!! 1%nat) * IZR y + (h !!! 2%nat).
Definition map_v (h : list R) (x y : Z) : R :=
  (h !!! 3%nat) * IZR x + (h !!! 4%nat) * IZR y + (h !!! 5%nat).
Definition map_w (h : list R) (x y : Z) : R :=
  (h !!! 6%nat) * IZR x + (h !!! 7%nat) * IZR y + (h !!! 8%nat).

(** The bounds check of the pixel loop. *)
Definition in_bounds (img : ImageData.t) (srcX srcY : R) : Prop :=
  srcX >= 0 /\ srcX < IZR (ImageData.width img - 1) /\
  srcY >= 0 /\ srcY < IZR (ImageData.height img - 1).

#[global] Instance in_bounds_dec img srcX srcY : Decision (in_bounds img srcX srcY).
Proof. unfold in_bounds. apply _. Defined.

(** Channel [c] of the bilinear blend of the four pixels around
    [(srcX, srcY)]. *)
Definition bilinear (img : ImageData.t) (srcX srcY : R) (c : Z) : option R :=
  let sData := ImageData.data img in
  let x0 := floor srcX in
  let x1 := (x0 + 1)%Z in
  let y0 := floor srcY in
  let y1 := (y0 + 1)%Z in
  let wx := srcX - IZR x0 in
  let wy := srcY - IZR y0 in
  let srcIdx00 := ((y0 * ImageData.width img + x0) * 4)%Z in
  let srcIdx10 := ((y0 * ImageData.width img + x1) * 4)%Z in
  let srcIdx01 := ((y1 * ImageData.width img + x0) * 4)%Z in
  let srcIdx11 := ((y1 * ImageData.width img + x1) * 4)%Z in
  val00 ← load sData (srcIdx00 + c);
  val10 ← load sData (srcIdx10 + c);
  val01 ← load sData (srcIdx01 + c);
  val11 ← load sData (srcIdx11 + c);
  let top := val00 * (1 - wx) + val10 * wx in
  let bottom := val01 * (1 - wx) + val11 * wx in
  Some (top * (1 - wy) + bottom * wy).

(** The body of the pixel loop for the destination pixel [(x, y)].  When
    [w] is zero, [u / w] and [v / w] are NaN or infinite and the bounds
    check fails. *)
Definition warp_pixel (h : list R) (img : ImageData.t) (width : Z)
    (y : Z) (dData : list Z) (x : Z) : list Z :=
  let u := map_u h x y in
  let v := map_v h x y in
  let w := map_w h x y in
  if decide (w = 0) then dData
  else
    let srcX := u / w in
    let srcY := v / w in
    if decide (in_bounds img srcX srcY) then
      let dstIdx := ((y * width + x) * 4)%Z in
      let dData :=
        foldl (fun d c => store d (dstIdx + c) (bilinear img srcX srcY c))
              dData (seqZ 0 3) in
      store dData (dstIdx + 3) (Some 255)
    else dData.

Definition warp_row (h : list R) (img : ImageData.t) (width : Z)
    (dData : list Z) (y : Z) : list Z :=
  foldl (warp_pixel h img width y) dData (seqZ 0 width).

(** The two nested loops.  When the matrix is not finite ([None]), [u],
    [v] and [w] are NaN or infinite at every pixel, every quotient is NaN
    and no pixel passes the bounds check. *)
Definition warp_loop (h : option (list R)) (img : ImageData.t)
    (width height : Z) (dData : list Z) : list Z :=
  match h with
  | Some h => foldl (warp_row h img width) dData (seqZ 0 height)
  | None => dData
  end.

(** [warpPerspective(imageSrc, corners)], from the decoded source image
    on.  [corners[k].x] with [k] past the end of the array is a TypeError,
    and [createImageData] throws when a side of the raster is zero. *)
Definition warpPerspective (img : ImageData.t) (corners : list Point.t)
    : outcome :=
  match corners with
  | c0 :: c1 :: c2 :: c3 :: _ =>
      let width := destWidth c0 c1 c2 c3 in
      let height := destHeight c0 c1 c2 c3 in
      let srcPts := corners in
      let h := getHomographyMatrix (dstPts width height) srcPts in
      if decide (width = 0 \/ height = 0)%Z then Thrown
      else
        let dData := replicate (Z.to_nat (width * height * 4)) 0%Z in
        Resolved (ImageData.mk width height
                    (warp_loop h img width height dData))
  | _ => Thrown
  end.

(** Pixel [(x, y)] of a raster: its four channels R, G, B, A. *)
Definition pixel (img : ImageData.t) (x y : Z) : list Z :=
  let idx := ((y * ImageData.width img + x) * 4)%Z in
  (fun c => ImageData.data img !!! Z.to_nat (idx + c)) <$> seqZ 0 4.

End Resampler.

(** ** ImageCropper.tsx *)

(** The natural size of the loaded [HTMLImageElement]. *)
Module Img.
Record t : Type := mk { width : R; height : R }.
End Img.

(** What the handlers read of [containerRef.current]: [clientWidth],
    [clientHeight] and the origin of [getBoundingClientRect()]. *)
Module Container.
Record t : Type :=
  mk { clientWidth : R; clientHeight : R; left : R; top : R }.
End Container.

(** [displayedImgDims] *)
Module Dims.
Record t : Type :=
  mk { width : R; height : R; left : R; top : R; scale : R }.
End Dims.

(** A call of the asynchronous [handleProcessAndSave] that has passed the
    guard and has not finished: it waits for its 50 ms timer, or its
    [warpPerspective] promise is pending. *)
Inductive invocation : Type :=
  | Sleeping (originalPoints : list Point.t)
  | Warping (originalPoints : list Point.t).

(** The state of one mounted [ImageCropper]: its [useState] cells, the
    resize listener that the layout effect has registered on [window], and
    the unfinished calls of [handleProcessAndSave].

    A handler passed to the rendered elements ([handleMove], [resetPoints],
    [handleProcessAndSave], ...) is created anew by every render and reads
    the state of the latest render.  [updateLayout] is created inside the
    effect whose dependency list is [[image]]; the effect runs again only
    when [image] changes, so the registered listener keeps the [image] and
    [points] of the render in which the effect ran: [resizeListener] holds
    these two captured values. *)
Module Cropper.
Record t : Type := mk {
  image : option Img.t;
  points : list Point.t;
  displayedImgDims : Dims.t;
  draggingPointIndex : option nat;
  isProcessing : bool;
  resizeListener : option (Img.t * list Point.t);
  pending : list invocation
}.

Definition setImage (v : option Img.t) (s : t) : t :=
  mk v (points s) (displayedImgDims s) (draggingPointIndex s)
     (isProcessing s) (resizeListener s) (pending s).
Definition setPoints (v : list Point.t) (s : t) : t :=
  mk (image s) v (displayedImgDims s) (draggingPointIndex s)
     (isProcessing s) (resizeListener s) (pending s).
Definition setDisplayedImgDims (v : Dims.t) (s : t) : t :=
  mk (image s) (points s) v (draggingPointIndex s)
     (isProcessing s) (resizeListener s) (pending s).
Definition setDraggingPointIndex (v : option nat) (s : t) : t :=
  mk (image s) (points s) (displayedImgDims s) v
     (isProcessing s) (resizeListener s) (pending s).
Definition setIsProcessing (v : bool) (s : t) : t :=
  mk (image s) (points s) (displayedImgDims s) (draggingPointIndex s)
     v (resizeListener s) (pending s).
Definition setResizeListener (v : option (Img.t * list Point.t)) (s : t) : t :=
  mk (image s) (points s) (displayedImgDims s) (draggingPointIndex s)
     (isProcessing s) v (pending s).
Definition setPending (v : list invocation) (s : t) : t :=
  mk (image s) (points s) (displayedImgDims s) (draggingPointIndex s)
     (isProcessing s) (resizeListener s) v.
End Cropper.

Section Editor.
Local Open Scope R_scope.

(** The initial values of the [useState] cells. *)
Definition initial : Cropper.t :=
  Cropper.mk None [] (Dims.mk 0 0 0 0 1) None false None [].

(** [const padding = 40] *)
Definition padding : R := 40.

(** The four corners of a displayed image, in the order TL, TR, BR, BL. *)
Definition corners (displayWidth displayHeight : R) : list Point.t :=
  [ Point.mk 0 0; Point.mk displayWidth 0;
    Point.mk displayWidth displayHeight; Point.mk 0 displayHeight ].

(** The geometry computed by [updateLayout].  With a zero divisor (an
    image or an available area of height zero, ...) the source computes
    NaN or infinite sizes; the values of this function are meaningful only
    where no divisor is zero. *)
Definition layout (image : Img.t) (container : Container.t) : Dims.t :=
  let cWidth := Container.clientWidth container in
  let cHeight := Container.clientHeight container in
  let availWidth := cWidth - padding * 2 in
  let availHeight := cHeight - padding * 2 in
  let imgAspect := Img.width image / Img.height image in
  let containerAspect := availWidth / availHeight in
  let '(displayWidth, displayHeight) :=
    if decide (imgAspect > containerAspect)
    then (availWidth, availWidth / imgAspect)
    else (availHeight * imgAspect, availHeight) in
  let left := (cWidth - displayWidth) / 2 in
  let top := (cHeight - displayHeight) / 2 in
  Dims.mk displayWidth displayHeight left top (Img.width image / displayWidth).

(** [updateLayout], with the two variables of its closure as arguments:
    [image] and [points] are those of the render in which the effect
    created the function. *)
Definition updateLayout (image : Img.t) (points : list Point.t)
    (container : Container.t) (s : Cropper.t) : Cropper.t :=
  let d := layout image container in
  let s := Cropper.setDisplayedImgDims d s in
  if decide (length points = 0%nat)
  then Cropper.setPoints (corners (Dims.width d) (Dims.height d)) s
  else s.

(** The effect with dependency list [[image]], run after the render that
    follows [setImage(img)]: it calls [updateLayout] once and registers it
    as the resize listener (replacing the one it registered before). *)
Definition layoutEffect (img : Img.t) (container : Container.t)
    (s : Cropper.t) : Cropper.t :=
  let captured := Cropper.points s in
  Cropper.setResizeListener (Some (img, captured))
    (updateLayout img captured container s).

Definition handleMouseDown (index : nat) (s : Cropper.t) : Cropper.t :=
  Cropper.setDraggingPointIndex (Some index) s.

(** [handleMove]: [pos] is the result of [getClientPos(e)].  The write
    [newPoints[draggingPointIndex] = { x, y }] is a list insertion; an index
    past the end, where JavaScript would extend the array, does not occur
    in a reachable state (lemma [dragging_in_range]). *)
Definition handleMove (pos : Point.t) (containerRect : Container.t)
    (s : Cropper.t) : Cropper.t :=
  match Cropper.draggingPointIndex s with
  | None => s
  | Some draggingPointIndex =>
      let x := Point.x pos - Container.left containerRect
               - Dims.left (Cropper.displayedImgDims s) in
      let y := Point.y pos - Container.top containerRect
               - Dims.top (Cropper.displayedImgDims s) in
      Cropper.setPoints
        (<[draggingPointIndex := Point.mk x y]> (Cropper.points s)) s
  end.

Definition handleEnd (s : Cropper.t) : Cropper.t :=
  Cropper.setDraggingPointIndex None s.

Definition resetPoints (s : Cropper.t) : Cropper.t :=
  Cropper.setPoints
    (corners (Dims.width (Cropper.displayedImgDims s))
             (Dims.height (Cropper.displayedImgDims s))) s.

(** [handleProcessAndSave] up to its first [await]. *)
Definition handleProcessAndSave (s : Cropper.t) : Cropper.t :=
  if Cropper.isProcessing s then s
  else
    let s := Cropper.setIsProcessing true s in
    let scale := Dims.scale (Cropper.displayedImgDims s) in
    let originalPoints :=
      map (fun p => Point.mk (Point.x p * scale) (Point.y p * scale))
          (Cropper.points s) in
    Cropper.setPending (Cropper.pending s ++ [Sleeping originalPoints]) s.

(** What can happen to a mounted editor. *)
Inductive event : Type :=
  | ImageLoaded (img : Img.t) (container : Container.t)
  | WindowResize (container : Container.t)
  | PointerDown (index : nat)
  | PointerMove (pos : Point.t) (containerRect : Container.t)
  | PointerEnd
  | ResetClick
  | ConfirmClick
  | TimerFired (k : nat)
  | WarpResolved (k : nat)
  | WarpRejected (k : nat).

(** One event.  [None]: the event cannot happen in this state (a handle
    that is not rendered cannot be pressed; only a waiting call can see
    its timer fire; only a pending promise can settle). *)
Definition step (s : Cropper.t) (ev : event) : option Cropper.t :=
  match ev with
  | ImageLoaded img container =>
      Some (layoutEffect img container (Cropper.setImage (Some img) s))
  | WindowResize container =>
      match Cropper.resizeListener s with
      | Some (img, captured) => Some (updateLayout img captured container s)
      | None => Some s
      end
  | PointerDown index =>
      match Cropper.image s with
      | Some _ =>
          if decide (index < length (Cropper.points s))%nat
          then Some (handleMouseDown index s) else None
      | None => None
      end
  | PointerMove pos containerRect => Some (handleMove pos containerRect s)
  | PointerEnd => Some (handleEnd s)
  | ResetClick => Some (resetPoints s)
  | ConfirmClick => Some (handleProcessAndSave s)
  | TimerFired k =>
      match Cropper.pending s !! k with
      | Some (Sleeping pts) =>
          Some (Cropper.setPending (<[k := Warping pts]> (Cropper.pending s)) s)
      | _ => None
      end
  | WarpResolved k =>
      match Cropper.pending s !! k with
      | Some (Warping _) =>
          Some (Cropper.setPending (delete k (Cropper.pending s)) s)
      | _ => None
      end
  | WarpRejected k =>
      match Cropper.pending s !! k with
      | Some (Warping _) =>
          Some (Cropper.setIsProcessing false
                  (Cropper.setPending (delete k (Cropper.pending s)) s))
      | _ => None
      end
  end.

(** The state after a sequence of events, from [s]. *)
Definition run (s : Cropper.t) (evs : list event) : option Cropper.t :=
  foldl (fun os ev => s ← os; step s ev) (Some s) evs.

(** The states of an editing session. *)
Definition reachable (s : Cropper.t) : Prop :=
  exists evs, run initial evs = Some s.

End Editor.

(** ** Strings and loosely typed values *)

(** A JavaScript string: its UTF-16 code units. *)
Abbreviation jsstring := (list N).

(** A string literal of the source (ASCII). *)
Definition lit (s : string) : jsstring :=
  Ascii.N_of_ascii <$> String.list_ascii_of_string s.

(** [s.startsWith(p)] and [s.includes(p)] *)
Fixpoint startsWith (s p : jsstring) : bool :=
  match p, s with
  | [], _ => true
  | a :: p', b :: s' => bool_decide (a = b) && startsWith s' p'
  | _ :: _, [] => false
  end.

Fixpoint includes (s p : jsstring) : bool :=
  startsWith s p ||
  match s with
  | [] => false
  | _ :: s' => includes s' p
  end.

(** The code units that the regular expression [\s] matches: the
    WhiteSpace and LineTerminator code points of ECMAScript, all of them in
    the basic plane. *)
Definition is_space (c : N) : bool :=
  bool_decide (c ∈ [9; 10; 11; 12; 13; 32; 160; 5760; 8232; 8233; 8239;
                    8287; 12288; 65279]%N)
  || bool_decide (8192 <= c <= 8202)%N.

(** [name.replace(/\s/g, '')] *)
Definition strip_spaces (name : jsstring) : jsstring :=
  filter (fun c => is_space c = false) name.

(** What a field of a thrown value may hold, as far as the source looks at
    it. *)
Inductive value : Type :=
  | Undefined
  | Num (z : Z)
  | Str (s : jsstring).

#[global] Instance value_eq_dec : EqDecision value.
Proof. solve_decision. Defined.

(** ** PrintLayout.tsx: the pages *)

Inductive PrintMode : Type := LIST | DETAIL.

(** [const WORKERS_PER_PAGE = mode === 'LIST' ? 4 : 1] *)
Definition WORKERS_PER_PAGE (mode : PrintMode) : nat :=
  match mode with LIST => 4 | DETAIL => 1 end.

(** [l.slice(start, stop)] for [0 <= start <= stop] *)
Definition slice {A : Type} (l : list A) (start stop : nat) : list A :=
  take (stop - start) (drop start l).

(** The loop [for (let i = 0; i < workers.length; i += WORKERS_PER_PAGE)]
    from the iteration with index [i] on; [fuel] bounds the number of
    iterations. *)
Fixpoint pages_loop {A : Type} (fuel : nat) (per_page : nat) (workers : list A)
    (i : nat) (pages : list (list A)) : list (list A) :=
  match fuel with
  | O => pages
  | S fuel =>
      if decide (i < length workers)
      then pages_loop fuel per_page workers (i + per_page)
             (pages ++ [slice workers i (i + per_page)])
      else pages
  end.

(** [pages]: the index grows by at least one in every iteration, so
    [workers.length] iterations are enough. *)
Definition pages {A : Type} (mode : PrintMode) (workers : list A)
    : list (list A) :=
  pages_loop (length workers) (WORKERS_PER_PAGE mode) workers 0 [].

(** The number printed beside a worker:
    [pageIndex * WORKERS_PER_PAGE + idx + 1]. *)
Definition printed_number (mode : PrintMode) (pageIndex idx : nat) : nat :=
  pageIndex * WORKERS_PER_PAGE mode + idx + 1.

(** ** imageUtils.ts *)

Section ImageUtils.
Local Open Scope R_scope.




End ImageUtils.

(** ** geminiService.ts: the retry loop of extractWorkerInfo *)

(** What the [catch] block reads of the thrown value: [status], [code],
    [message] (a string when present) and the [code] and [status] of the
    nested [error] object when there is one. *)
Module ApiError.
Record t : Type := mk {
  status : value;
  code : value;
  message : option jsstring;
  error : option (value * value)
}.
End ApiError.

(** How one run of the [try] block ends: it returns the parsed list (the
    empty list when the response has no text), or a value is thrown by the
    request, by the 20 s timeout or by the parsing. *)
Inductive attempt_outcome (A : Type) : Type :=
  | Returned (items : list A)
  | Threw (e : ApiError.t).
Arguments Returned {A} items.
Arguments Threw {A} e.

(** What the loop does that can be observed from outside. *)
Inductive effect : Type :=
  | ApiCall
  | Sleep (ms : Z).

#[global] Instance effect_eq_dec : EqDecision effect.
Proof. solve_decision. Defined.

Definition isQuotaError (e : ApiError.t) : bool :=
  bool_decide (ApiError.status e = Num 429)
  || bool_decide (ApiError.code e = Num 429)
  || from_option (fun m => includes m (lit "429")) false (ApiError.message e)
  || from_option (fun m => includes m (lit "quota")) false (ApiError.message e)
  || from_option (fun m => includes m (lit "RESOURCE_EXHAUSTED")) false
       (ApiError.message e)
  || match ApiError.error e with
     | Some (code, status) =>
         bool_decide (code = Num 429)
         || bool_decide (status = Str (lit "RESOURCE_EXHAUSTED"))
     | None => false
     end.

(** [const maxAttempts = 7] *)
Definition maxAttempts : nat := 7.

(** The [while] loop.  [api k] is how the [try] block of the call number
    [k] ends; [calls] counts the calls made so far.  What is written to
    the console is not modelled.  [None]: out of fuel. *)
Fixpoint retry_loop {A : Type} (fuel : nat) (api : nat -> attempt_outcome A)
    (attempt calls : nat) (trace : list effect)
    : option (list A * list effect) :=
  match fuel with
  | O => None
  | S fuel =>
      if decide (attempt < maxAttempts) then
        let trace := trace ++ [ApiCall] in
        match api calls with
        | Returned items => Some (items, trace)
        | Threw e =>
            if isQuotaError e && bool_decide (attempt < maxAttempts - 1) then
              let delay := (2000 * 2 ^ Z.of_nat attempt)%Z in
              retry_loop fuel api (attempt + 1) (calls + 1)
                (trace ++ [Sleep delay])
            else if bool_decide (attempt = maxAttempts - 1)
                    || negb (isQuotaError e)
            then Some ([], trace)
            else retry_loop fuel api (attempt + 1) (calls + 1) trace
        end
      else Some ([], trace)
  end.

(** [extractWorkerInfo]: the result and what was done to get it.  A
    missing or empty API key is falsy. *)
Definition extractWorkerInfo {A : Type} (apiKey : option jsstring)
    (api : nat -> attempt_outcome A) : option (list A * list effect) :=
  match apiKey with
  | None | Some [] => Some ([], [])
  | Some _ => retry_loop (S maxAttempts) api 0 0 []
  end.

(** The error of the timeout: [new Error("Request timed out")]. *)
Definition timeoutError : ApiError.t :=
  ApiError.mk Undefined Undefined (Some (lit "Request timed out")) None.

(** ** weatherUtils.ts and the weather icon of App.tsx *)

Inductive icon_name : Type :=
  | Sun | Cloud | CloudFog | CloudDrizzle | CloudRain | Snowflake
  | CloudRainWind | CloudLightning.

(** [getWeatherDescription(code).icon], for an integer code. *)
Definition getWeatherDescription (code : Z) : icon_name :=
  if decide (code = 0)%Z then Sun
  else if decide (code = 1 \/ code = 2 \/ code = 3)%Z then Cloud
  else if decide (code = 45 \/ code = 48)%Z then CloudFog
  else if decide (51 <= code <= 55)%Z then CloudDrizzle
  else if decide (61 <= code <= 65)%Z then CloudRain
  else if decide (71 <= code <= 77)%Z then Snowflake
  else if decide (80 <= code <= 82)%Z then CloudRainWind
  else if decide (95 <= code)%Z then CloudLightning
  else Cloud.

(** The component that the [switch] of [WeatherIcon] renders. *)
Inductive icon_component : Type :=
  | SunIcon | CloudIcon | CloudRainIcon | CloudLightningIcon
  | SnowflakeIcon | CloudFogIcon | CloudDrizzleIcon.

Definition WeatherIcon (code : Z) : icon_component :=
  match getWeatherDescription code with
  | Sun => SunIcon
  | Cloud => CloudIcon
  | CloudRain => CloudRainIcon
  | CloudLightning => CloudLightningIcon
  | Snowflake => SnowflakeIcon
  | CloudFog => CloudFogIcon
  | CloudDrizzle => CloudDrizzleIcon
  | _ => CloudIcon
  end.

(** ** types.ts: WorkerData, AnalyzedDocument *)

Module WorkerData.
Record t : Type := mk {
  id : jsstring;
  name : jsstring;
  trade : jsstring;
  team : jsstring;
  idCardImage : option jsstring;
  safetyCertImage : option jsstring;
  createdAt : Z
}.
End WorkerData.

Inductive DocumentType : Type := ID_CARD | SAFETY_CERT | UNKNOWN.

#[global] Instance DocumentType_eq_dec : EqDecision DocumentType.
Proof. solve_decision. Defined.

Module AnalyzedDocument.
Record t : Type := mk {
  type : DocumentType;
  name : jsstring;
  trade : jsstring;
  originalImage : jsstring
}.
End AnalyzedDocument.

(** ** App.tsx: the list of workers and the image editor *)

(** The [Partial<WorkerData>] objects that the calls of [updateWorker]
    pass: no call sets [id] or [createdAt]. *)
Module Patch.
Record t : Type := mk {
  name : option jsstring;
  trade : option jsstring;
  team : option jsstring;
  idCardImage : option (option jsstring);
  safetyCertImage : option (option jsstring)
}.
End Patch.

(** [{ ...w, ...data }] *)
Definition assign (w : WorkerData.t) (data : Patch.t) : WorkerData.t :=
  WorkerData.mk
    (WorkerData.id w)
    (default (WorkerData.name w) (Patch.name data))
    (default (WorkerData.trade w) (Patch.trade data))
    (default (WorkerData.team w) (Patch.team data))
    (default (WorkerData.idCardImage w) (Patch.idCardImage data))
    (default (WorkerData.safetyCertImage w) (Patch.safetyCertImage data))
    (WorkerData.createdAt w).

(** The state updater that [updateWorker(id, data)] queues. *)
Definition updateWorker (id : jsstring) (data : Patch.t)
    (prev : list WorkerData.t) : list WorkerData.t :=
  (fun w => if decide (WorkerData.id w = id) then assign w data else w) <$> prev.

(** [deleteWorker]: [confirmed] is the answer to [window.confirm]. *)
Definition deleteWorker (confirmed : bool) (id : jsstring)
    (prev : list WorkerData.t) : list WorkerData.t :=
  if confirmed then filter (fun w => WorkerData.id w <> id) prev else prev.

(** [addWorker]: [newId] and [now] are the values of [generateId()] and
    [Date.now()]. *)
Definition addWorker (newId : jsstring) (now : Z) (prev : list WorkerData.t)
    : list WorkerData.t :=
  prev ++ [WorkerData.mk newId [] [] [] None None now].

Inductive image_field : Type := idCardImage | safetyCertImage.

Module EditingImage.
Record t : Type := mk {
  workerId : jsstring;
  field : image_field;
  src : jsstring
}.
End EditingImage.

(** The two state cells of [App] that the image editor touches. *)
Module App.
Record t : Type := mk {
  workers : list WorkerData.t;
  editingImage : option EditingImage.t
}.
End App.

Definition openImageEditor (workerId : jsstring) (field : image_field)
    (src : jsstring) (s : App.t) : App.t :=
  App.mk (App.workers s) (Some (EditingImage.mk workerId field src)).

(** [{ [editingImage.field]: processedImage }] *)
Definition field_patch (field : image_field) (processedImage : jsstring)
    : Patch.t :=
  match field with
  | idCardImage => Patch.mk None None None (Some (Some processedImage)) None
  | safetyCertImage => Patch.mk None None None None (Some (Some processedImage))
  end.

(** [handleImageSave], the [onSave] of the image editor. *)
Definition handleImageSave (processedImage : jsstring) (s : App.t) : App.t :=
  match App.editingImage s with
  | Some e =>
      App.mk
        (updateWorker (EditingImage.workerId e)
           (field_patch (EditingImage.field e) processedImage) (App.workers s))
        None
  | None => s
  end.

(** [onCancel] *)
Definition cancelImageEditor (s : App.t) : App.t :=
  App.mk (App.workers s) None.

(** ** App.tsx: merging the analysed documents of a bulk upload *)

(** [findWorkerByName]: the first worker of the list with this name, spaces
    aside, and its index; nothing for an empty name. *)
Definition findWorkerByName (name : jsstring) (list : list WorkerData.t)
    : option (nat * WorkerData.t) :=
  if decide (name = []) then None
  else
    let targetName := strip_spaces name in
    list_find (fun w => strip_spaces (WorkerData.name w) = targetName) list.

(** What the three loops build: the array [newWorkers], whose objects are
    changed in place, and the queue of the [updateWorker] calls. *)
Module Merge.
Record t : Type := mk {
  newWorkers : list WorkerData.t;
  updates : list (jsstring * Patch.t)
}.
End Merge.

Section BulkMerge.

(** [generateId()] and [Date.now()], for the worker created after [k]
    others: the model takes their values from outside. *)
Variable ids : nat -> jsstring.
Variable clock : nat -> Z.

(** [workers] is the state that the handler closed over. *)
Variable workers : list WorkerData.t.

(** The body of [for (const doc of idCards)]. *)
Definition merge_id_card (st : Merge.t) (doc : AnalyzedDocument.t) : Merge.t :=
  let newWorkers := Merge.newWorkers st in
  match findWorkerByName (AnalyzedDocument.name doc) newWorkers with
  | None =>
      match findWorkerByName (AnalyzedDocument.name doc) workers with
      | Some (_, existingGlobal) =>
          let data :=
            Patch.mk None
              (Some (if decide (AnalyzedDocument.trade doc = [])
                     then WorkerData.trade existingGlobal
                     else AnalyzedDocument.trade doc))
              None
              (Some (Some (AnalyzedDocument.originalImage doc)))
              None in
          Merge.mk newWorkers
            (Merge.updates st ++ [(WorkerData.id existingGlobal, data)])
      | None =>
          let worker :=
            WorkerData.mk (ids (length newWorkers))
              (AnalyzedDocument.name doc) (AnalyzedDocument.trade doc) []
              (Some (AnalyzedDocument.originalImage doc)) None
              (clock (length newWorkers)) in
          Merge.mk (newWorkers ++ [worker]) (Merge.updates st)
      end
  | Some (i, worker) =>
      let worker :=
        WorkerData.mk (WorkerData.id worker) (WorkerData.name worker)
          (if decide (AnalyzedDocument.trade doc = [])
           then WorkerData.trade worker else AnalyzedDocument.trade doc)
          (WorkerData.team worker)
          (Some (AnalyzedDocument.originalImage doc))
          (WorkerData.safetyCertImage worker) (WorkerData.createdAt worker) in
      Merge.mk (<[i := worker]> newWorkers) (Merge.updates st)
  end.

(** The body of [for (const doc of safetyCerts)]. *)
Definition merge_safety_cert (st : Merge.t) (doc : AnalyzedDocument.t)
    : Merge.t :=
  let newWorkers := Merge.newWorkers st in
  match findWorkerByName (AnalyzedDocument.name doc) newWorkers with
  | Some (i, worker) =>
      let worker :=
        WorkerData.mk (WorkerData.id worker) (WorkerData.name worker)
          (if decide (WorkerData.trade worker = []
                      /\ AnalyzedDocument.trade doc <> [])
           then AnalyzedDocument.trade doc else WorkerData.trade worker)
          (WorkerData.team worker)
          (WorkerData.idCardImage worker)
          (Some (AnalyzedDocument.originalImage doc))
          (WorkerData.createdAt worker) in
      Merge.mk (<[i := worker]> newWorkers) (Merge.updates st)
  | None =>
      match findWorkerByName (AnalyzedDocument.name doc) workers with
      | Some (_, existingGlobal) =>
          let data :=
            Patch.mk None
              (Some (if decide (WorkerData.trade existingGlobal = []
                                /\ AnalyzedDocument.trade doc <> [])
                     then AnalyzedDocument.trade doc
                     else WorkerData.trade existingGlobal))
              None
              None
              (Some (Some (AnalyzedDocument.originalImage doc))) in
          Merge.mk newWorkers
            (Merge.updates st ++ [(WorkerData.id existingGlobal, data)])
      | None =>
          let worker :=
            WorkerData.mk (ids (length newWorkers))
              (AnalyzedDocument.name doc) (AnalyzedDocument.trade doc) []
              None (Some (AnalyzedDocument.originalImage doc))
              (clock (length newWorkers)) in
          Merge.mk (newWorkers ++ [worker]) (Merge.updates st)
      end
  end.

(** The body of [for (const doc of unknowns)]. *)
Definition merge_unknown (st : Merge.t) (doc : AnalyzedDocument.t) : Merge.t :=
  let newWorkers := Merge.newWorkers st in
  let worker :=
    WorkerData.mk (ids (length newWorkers)) [] [] []
      (Some (AnalyzedDocument.originalImage doc)) None
      (clock (length newWorkers)) in
  Merge.mk (newWorkers ++ [worker]) (Merge.updates st).

Definition of_type (ty : DocumentType) (docs : list AnalyzedDocument.t)
    : list AnalyzedDocument.t :=
  filter (fun d => AnalyzedDocument.type d = ty) docs.

(** The three loops over [idCards], [safetyCerts] and [unknowns]. *)
Definition mergeDocuments (analyzedDocs : list AnalyzedDocument.t) : Merge.t :=
  let idCards := of_type ID_CARD analyzedDocs in
  let safetyCerts := of_type SAFETY_CERT analyzedDocs in
  let unknowns := of_type UNKNOWN analyzedDocs in
  let st := foldl merge_id_card (Merge.mk [] []) idCards in
  let st := foldl merge_safety_cert st safetyCerts in
  foldl merge_unknown st unknowns.

(** [workers.length === 1 && !workers[0].name && !workers[0].idCardImage]:
    the list is the one empty card that the application starts with. *)
Definition only_placeholder : bool :=
  match workers with
  | [w] =>
      bool_decide (WorkerData.name w = [])
      && bool_decide (WorkerData.idCardImage w = None
                      \/ WorkerData.idCardImage w = Some [])
  | _ => false
  end.

(** The state after the queued updaters and the final [setWorkers] have
    run on the state [prev]. *)
Definition commit (st : Merge.t) (prev : list WorkerData.t)
    : list WorkerData.t :=
  let prev :=
    foldl (fun p u => updateWorker (fst u) (snd u) p) prev (Merge.updates st) in
  if only_placeholder && bool_decide (Merge.newWorkers st <> [])
  then Merge.newWorkers st
  else prev ++ Merge.newWorkers st.

End BulkMerge.

(** * Properties and invariants *)

Section Specification.
Local Open Scope R_scope.

(** ** The destination size, in the words of the specification *)




(** ** The layout *)


(** ** Invariants of the editing session *)

(** The list has no point or four points, and a drag is bound to the
    index of one of them. *)
Definition points_inv (s : Cropper.t) : Prop :=
  (length (Cropper.points s) = 0%nat \/ length (Cropper.points s) = 4%nat) /\
  forall i, Cropper.draggingPointIndex s = Some i ->
            (i < length (Cropper.points s))%nat.

(** At most one call of [handleProcessAndSave] is unfinished, and the flag
    [isProcessing] is set while one is. *)
Definition processing_inv (s : Cropper.t) : Prop :=
  (length (Cropper.pending s) <= 1)%nat /\
  (Cropper.pending s <> [] -> Cropper.isProcessing s = true).

(** ** Invariants of the elimination *)

(** The row that [swap _ i pivot] puts at index [r]. *)
Definition swapped (i pivot r : nat) : nat :=
  if decide (r = pivot) then i else if decide (r = i) then pivot else r.

(** The first [i] columns of [a] are eliminated: zero below the diagonal,
    not zero on it. *)
Definition echelon (i : nat) (a : matrix) : Prop :=
  (forall r c, (c < i)%nat -> (c < r < n)%nat -> entry a r c = 0) /\
  (forall c, (c < i)%nat -> entry a c c <> 0).

(** The systems [a0 . x = b0] and [a . x = b] have the same solutions, and
    so have [a0 . x = 0] and [a . x = 0]. *)
Definition equivalent (a0 : matrix) (b0 : vector) (a : matrix) (b : vector)
    : Prop :=
  forall x : vector, length x = n ->
    ((forall r, (r < n)%nat -> row_dot a0 x r = b0 !!! r) <->
     (forall r, (r < n)%nat -> row_dot a x r = b !!! r)) /\
    ((forall r, (r < n)%nat -> row_dot a0 x r = 0) <->
     (forall r, (r < n)%nat -> row_dot a x r = 0)).

(** What holds of the system [(a, b)] before step [i] of the elimination
    of [(a0, b0)]. *)
Definition gauss_inv (a0 : matrix) (b0 : vector) (i : nat)
    (a : matrix) (b : vector) : Prop :=
  well_shaped a b /\ echelon i a /\ equivalent a0 b0 a b.

(** ** Correspondences and pixels *)

(** Twice the signed area of the triangle [p q r]. *)
Definition cross (p q r : Point.t) : R :=
  (Point.x q - Point.x p) * (Point.y r - Point.y p)
  - (Point.x r - Point.x p) * (Point.y q - Point.y p).

Definition collinear (p q r : Point.t) : Prop := cross p q r = 0.



(** The destination pixel [(x, y)] passes the bounds check of the loop. *)
Definition sampled (h : list R) (img : ImageData.t) (x y : Z) : Prop :=
  map_w h x y <> 0 /\
  in_bounds img (map_u h x y / map_w h x y) (map_v h x y / map_w h x y).


(** The image's own rectangle as a corner set. *)
Definition own_corners (img : ImageData.t) : list Point.t :=
  [ Point.mk 0 0; Point.mk (IZR (ImageData.width img)) 0;
    Point.mk (IZR (ImageData.width img)) (IZR (ImageData.height img));
    Point.mk 0 (IZR (ImageData.height img)) ].

(** ** Further properties *)

(** The matrix [h], applied to the point [s], gives the point [d] in
    homogeneous coordinates: [(u, v, w) = (x d * w, y d * w, w)]. *)
Definition corresponds (h : list R) (s d : Point.t) : Prop :=
  let w := (h !!! 6%nat) * Point.x s + (h !!! 7%nat) * Point.y s + (h !!! 8%nat) in
  (h !!! 0%nat) * Point.x s + (h !!! 1%nat) * Point.y s + (h !!! 2%nat)
    = Point.x d * w /\
  (h !!! 3%nat) * Point.x s + (h !!! 4%nat) * Point.y s + (h !!! 5%nat)
    = Point.y d * w.

(** Channel [c] of the pixel [(x, y)] of a raster. *)
Definition channel (img : ImageData.t) (x y c : Z) : Z :=
  ImageData.data img !!! Z.to_nat ((y * ImageData.width img + x) * 4 + c).

(** The four source bytes of channel [c] that the blend at
    [(srcX, srcY)] reads. *)
Definition neighbours (img : ImageData.t) (srcX srcY : R) (c : Z) : list Z :=
  let x0 := floor srcX in
  let y0 := floor srcY in
  [ channel img x0 y0 c; channel img (x0 + 1) y0 c;
    channel img x0 (y0 + 1) c; channel img (x0 + 1) (y0 + 1) c ].

(** The corners, in the order TL, TR, BR, BL, of the axis-aligned rectangle
    of sides [W] and [H] whose top-left corner is the pixel [(x0, y0)]. *)
Definition crop_corners (x0 y0 W H : Z) : list Point.t :=
  [ Point.mk (IZR x0) (IZR y0); Point.mk (IZR (x0 + W)) (IZR y0);
    Point.mk (IZR (x0 + W)) (IZR (y0 + H)); Point.mk (IZR x0) (IZR (y0 + H)) ].

(** ** Sessions of the editor *)







(** Where [handleMove] puts the dragged handle for a pointer at [pos]. *)
Definition handle_position (s : Cropper.t) (pos : Point.t)
    (containerRect : Container.t) : Point.t :=
  Point.mk
    (Point.x pos - Container.left containerRect
     - Dims.left (Cropper.displayedImgDims s))
    (Point.y pos - Container.top containerRect
     - Dims.top (Cropper.displayedImgDims s)).

(** The pointer moves of a gesture, as events. *)
Definition moves (ms : list (Point.t * Container.t)) : list event :=
  (fun m => PointerMove (fst m) (snd m)) <$> ms.

End Specification.
(** ** Pages, retries *)

(** The number of pages for [len] workers, [k] to a page: [len / k],
    rounded up. *)
Definition page_count (len k : nat) : nat := (len + k - 1) / k.

(** The run of the [try] block ends with a thrown value that the [catch]
    block takes for a quota error. *)
Definition quota_failure {A : Type} (o : attempt_outcome A) : Prop :=
  exists e, o = Threw e /\ isQuotaError e = true.

(** What is observed of [k] failed calls, each followed by its back-off,
    from the attempt [from] on: the delays are 2000 ms times the powers
    of two. *)
Definition backoff_trace (from k : nat) : list effect :=
  concat ((fun j => [ApiCall; Sleep (2000 * 2 ^ Z.of_nat j)%Z]) <$> seq from k).

(** The delays of a trace, and the number of its calls. *)
Definition sleeps (trace : list effect) : list Z :=
  omap (fun e => match e with Sleep ms => Some ms | ApiCall => None end) trace.

Definition api_calls (trace : list effect) : nat :=
  length (filter (fun e => e = ApiCall) trace).

(** The list that the function returns for the outcome of its last call. *)
Definition items_of {A : Type} (o : attempt_outcome A) : list A :=
  match o with
  | Returned items => items
  | Threw _ => []
  end.

(** ** Workers and documents *)

(** The worker bears the name [t], spaces aside. *)
Definition bears (t : jsstring) (w : WorkerData.t) : Prop :=
  strip_spaces (WorkerData.name w) = t.

#[global] Instance bears_dec t w : Decision (bears t w).
Proof. unfold bears. apply _. Defined.

(** The document has a name, and it is [t], spaces aside. *)
Definition named (t : jsstring) (d : AnalyzedDocument.t) : Prop :=
  AnalyzedDocument.name d <> [] /\ strip_spaces (AnalyzedDocument.name d) = t.

#[global] Instance named_dec t d : Decision (named t d).
Proof. unfold named. apply _. Defined.

(** The image of the last document of type [ty] named [t]. *)
Definition last_image (ty : DocumentType) (t : jsstring)
    (docs : list AnalyzedDocument.t) : option jsstring :=
  last (AnalyzedDocument.originalImage
          <$> filter (fun d => AnalyzedDocument.type d = ty /\ named t d) docs).

(** No two workers of [newWorkers] that have a name bear the same name,
    and none bears the name of a worker of [workers]. *)
Definition distinct_names (workers newWorkers : list WorkerData.t) : Prop :=
  (forall i j wi wj,
     newWorkers !! i = Some wi -> newWorkers !! j = Some wj -> i <> j ->
     WorkerData.name wi <> [] -> WorkerData.name wj <> [] ->
     strip_spaces (WorkerData.name wi) <> strip_spaces (WorkerData.name wj)) /\
  (forall w e,
     w ∈ newWorkers -> e ∈ workers -> WorkerData.name w <> [] ->
     strip_spaces (WorkerData.name e) <> strip_spaces (WorkerData.name w)).

(** The two workers are the same person's card: same [id], [name], [team]
    and [createdAt]. *)
Definition same_identity (w w' : WorkerData.t) : Prop :=
  WorkerData.id w' = WorkerData.id w /\
  WorkerData.name w' = WorkerData.name w /\
  WorkerData.team w' = WorkerData.team w /\
  WorkerData.createdAt w' = WorkerData.createdAt w.

(** The image of a worker that the editor was opened for, and the other
    one. *)
Definition image_of (field : image_field) (w : WorkerData.t)
    : option jsstring :=
  match field with
  | idCardImage => WorkerData.idCardImage w
  | safetyCertImage => WorkerData.safetyCertImage w
  end.

Definition other_field (field : image_field) : image_field :=
  match field with
  | idCardImage => safetyCertImage
  | safetyCertImage => idCardImage
  end.

(** The first worker of the list that bears the name [t] has the images
    [a] and [b]; when there is neither image, no worker bears the name. *)
Definition holds_images (t : jsstring) (a b : option jsstring)
    (newWorkers : list WorkerData.t) : Prop :=
  match a, b with
  | None, None => list_find (bears t) newWorkers = None
  | _, _ =>
      exists i w,
        list_find (bears t) newWorkers = Some (i, w) /\
        WorkerData.idCardImage w = a /\ WorkerData.safetyCertImage w = b
  end.

(** The image kept of the documents seen so far, after the document
    [d]. *)
Definition keep_last (t : jsstring) (acc : option jsstring)
    (d : AnalyzedDocument.t) : option jsstring :=
  if decide (named t d) then Some (AnalyzedDocument.originalImage d) else acc.

(** A queued update leaves the name and the team of the worker alone. *)
Definition harmless (u : jsstring * Patch.t) : Prop :=
  Patch.name (snd u) = None /\ Patch.team (snd u) = None.


(** * Proofs *)

(** ** Destination size *)

Section DestinationSize.
Local Open Scope R_scope.









End DestinationSize.

(** ** Layout of the displayed image *)

Section Layout.
Local Open Scope R_scope.



(** The layout otherwise: the height is the available height. *)
Lemma layout_tall image container :
  ~ Img.width image / Img.height image
    > (Container.clientWidth container - padding * 2)
      / (Container.clientHeight container - padding * 2) ->
  layout image container =
  let availHeight := Container.clientHeight container - padding * 2 in
  let displayWidth := availHeight * (Img.width image / Img.height image) in
  Dims.mk displayWidth availHeight
    ((Container.clientWidth container - displayWidth) / 2)
    ((Container.clientHeight container - availHeight) / 2)
    (Img.width image / displayWidth).
Proof. intros Hgt. unfold layout. rewrite decide_False by exact Hgt. reflexivity. Qed.







End Layout.

(** ** The editing session *)

(** A call settles or its timer fires: only the list of unfinished calls
    and the flag change. *)
Ltac settle_call Hstep :=
  match type of Hstep with
  | context [Cropper.pending ?s !! ?k] =>
      destruct (Cropper.pending s !! k) as [[?|?]|]; try discriminate;
      injection Hstep as <-
  end.

Section Session.
Local Open Scope R_scope.

(** Every state of a session is [initial] or the result of one event in
    a state of the session. *)
Lemma run_snoc s evs ev :
  run s (evs ++ [ev]) = run s evs ≫= fun s' => step s' ev.
Proof. unfold run. rewrite foldl_snoc. reflexivity. Qed.

Lemma reachable_initial : reachable initial.
Proof. exists []. reflexivity. Qed.

Lemma reachable_step s ev s' :
  reachable s -> step s ev = Some s' -> reachable s'.
Proof.
  intros [evs Hrun] Hstep. exists (evs ++ [ev]).
  rewrite run_snoc, Hrun. exact Hstep.
Qed.

Lemma reachable_ind' (P : Cropper.t -> Prop) :
  P initial ->
  (forall s ev s', reachable s -> P s -> step s ev = Some s' -> P s') ->
  forall s, reachable s -> P s.
Proof.
  intros Hinit Hstep s [evs Hrun]. revert s Hrun.
  induction evs as [|ev evs IH] using rev_ind; intros s Hrun.
  - injection Hrun as <-. exact Hinit.
  - rewrite run_snoc in Hrun.
    destruct (run initial evs) as [s0|] eqn:Hrun0; [|discriminate].
    simpl in Hrun. apply (Hstep s0 ev s); [exists evs; exact Hrun0| |exact Hrun].
    apply IH. reflexivity.
Qed.

(** *** The point list *)

Lemma updateLayout_points image captured container s :
  Cropper.points (updateLayout image captured container s)
  = if decide (length captured = 0%nat)
    then corners (Dims.width (layout image container))
                 (Dims.height (layout image container))
    else Cropper.points s.
Proof. unfold updateLayout. case_decide; reflexivity. Qed.

Lemma updateLayout_dragging image captured container s :
  Cropper.draggingPointIndex (updateLayout image captured container s)
  = Cropper.draggingPointIndex s.
Proof. unfold updateLayout. case_decide; reflexivity. Qed.

(** What an event does to the point list: nothing, or it sets the four
    corners of a layout, or it replaces the point being dragged. *)
Lemma step_points s ev s' :
  step s ev = Some s' ->
  Cropper.points s' = Cropper.points s \/
  (exists w h, Cropper.points s' = corners w h) \/
  (exists i p, Cropper.draggingPointIndex s = Some i /\
               Cropper.points s' = <[i := p]> (Cropper.points s)).
Proof.
  intros Hstep. destruct ev; simpl in Hstep.
  - injection Hstep as <-. unfold layoutEffect; simpl.
    rewrite updateLayout_points. case_decide; eauto.
  - destruct (Cropper.resizeListener s) as [[img captured]|];
      injection Hstep as <-; [|auto].
    rewrite updateLayout_points. case_decide; eauto.
  - destruct (Cropper.image s); [|discriminate].
    case_decide; [|discriminate]. injection Hstep as <-. auto.
  - injection Hstep as <-. unfold handleMove.
    destruct (Cropper.draggingPointIndex s) as [i|]; [|auto].
    right. right. eauto.
  - injection Hstep as <-. auto.
  - injection Hstep as <-. right. left. eauto.
  - injection Hstep as <-. unfold handleProcessAndSave.
    destruct (Cropper.isProcessing s); auto.
  - settle_call Hstep. auto.
  - settle_call Hstep. auto.
  - settle_call Hstep. auto.
Qed.

(** What an event does to the drag: nothing, or it ends it, or it starts
    one on a point of the list, which it leaves as it is. *)
Lemma step_dragging s ev s' :
  step s ev = Some s' ->
  Cropper.draggingPointIndex s' = Cropper.draggingPointIndex s \/
  Cropper.draggingPointIndex s' = None \/
  (exists i, Cropper.draggingPointIndex s' = Some i /\
             (i < length (Cropper.points s))%nat /\
             Cropper.points s' = Cropper.points s).
Proof.
  intros Hstep. destruct ev; simpl in Hstep.
  - injection Hstep as <-. unfold layoutEffect; simpl.
    rewrite updateLayout_dragging. auto.
  - destruct (Cropper.resizeListener s) as [[img captured]|];
      injection Hstep as <-; [|auto].
    rewrite updateLayout_dragging. auto.
  - destruct (Cropper.image s); [|discriminate].
    case_decide; [|discriminate]. injection Hstep as <-.
    right. right. exists index. auto.
  - injection Hstep as <-. unfold handleMove.
    destruct (Cropper.draggingPointIndex s) as [i|] eqn:Hi; [|auto].
    left. exact Hi.
  - injection Hstep as <-. auto.
  - injection Hstep as <-. auto.
  - injection Hstep as <-. unfold handleProcessAndSave.
    destruct (Cropper.isProcessing s); auto.
  - settle_call Hstep. auto.
  - settle_call Hstep. auto.
  - settle_call Hstep. auto.
Qed.

Lemma step_points_inv s ev s' :
  points_inv s -> step s ev = Some s' -> points_inv s'.
Proof.
  intros [Hlen Hdrag] Hstep.
  assert (Hlen' : length (Cropper.points s') = length (Cropper.points s) \/
                  length (Cropper.points s') = 4%nat).
  { destruct (step_points s ev s' Hstep) as [ -> |[(w & h & ->)|(i & p & _ & ->)]];
      [left; reflexivity | right; reflexivity | left; apply length_insert]. }
  split; [destruct Hlen' as [ -> | -> ]; auto|].
  intros i Hi.
  destruct (step_dragging s ev s' Hstep) as [Hd|[Hd|(j & Hd & Hj & ->)]].
  - rewrite Hd in Hi. specialize (Hdrag i Hi).
    destruct Hlen' as [ -> | -> ]; lia.
  - congruence.
  - congruence.
Qed.

Lemma reachable_points_inv s : reachable s -> points_inv s.
Proof.
  apply reachable_ind'.
  - split; [left; reflexivity|]. discriminate.
  - intros s0 ev s' _. apply step_points_inv.
Qed.

(** The index of a drag is always the index of a point of the list: the
    insertion of [handleMove] stays inside the list. *)
Lemma dragging_in_range s i :
  reachable s -> Cropper.draggingPointIndex s = Some i ->
  (i < length (Cropper.points s))%nat.
Proof. intros Hr. apply (reachable_points_inv s Hr). Qed.

Lemma step_keeps_four s ev s' :
  step s ev = Some s' ->
  length (Cropper.points s) = 4%nat -> length (Cropper.points s') = 4%nat.
Proof.
  intros Hstep H4.
  destruct (step_points s ev s' Hstep) as [ -> |[(w & h & ->)|(i & p & _ & ->)]];
    [exact H4 | reflexivity | rewrite length_insert; exact H4].
Qed.

(** C9, the failing case.  The session starts with an empty point list:
    [useState<Point[]>([])]. *)
Lemma initial_has_no_points :
  reachable initial /\ length (Cropper.points initial) <> 4%nat.
Proof. split; [apply reachable_initial | simpl; lia]. Qed.

(** C9, as amended.  At every state of a session the point list is empty
    or holds exactly four points; the initialization by the layout effect
    and the reset leave four points, and every operation on a list of four
    points leaves four points. *)
Theorem four_points (s : Cropper.t) :
  reachable s ->
  (length (Cropper.points s) = 0%nat \/ length (Cropper.points s) = 4%nat) /\
  (forall img container s',
      step s (ImageLoaded img container) = Some s' ->
      length (Cropper.points s') = 4%nat) /\
  length (Cropper.points (resetPoints s)) = 4%nat /\
  (forall ev s',
      step s ev = Some s' -> length (Cropper.points s) = 4%nat ->
      length (Cropper.points s') = 4%nat).
Proof.
  intros Hr. pose proof (reachable_points_inv s Hr) as Hinv.
  split; [apply Hinv|]. split; [|split; [reflexivity|]].
  - intros img container s' Hstep. simpl in Hstep. injection Hstep as <-.
    unfold layoutEffect; simpl. rewrite updateLayout_points.
    case_decide as Hlen; [reflexivity|].
    destruct Hinv as [[H0|H4] _]; [contradiction | exact H4].
  - intros ev s' Hstep. apply (step_keeps_four s ev s' Hstep).
Qed.

Lemma four_points_witness :
  (length (Cropper.points initial) = 0%nat \/
   length (Cropper.points initial) = 4%nat) /\
  (forall img container s',
      step initial (ImageLoaded img container) = Some s' ->
      length (Cropper.points s') = 4%nat) /\
  length (Cropper.points (resetPoints initial)) = 4%nat /\
  (forall ev s',
      step initial ev = Some s' -> length (Cropper.points initial) = 4%nat ->
      length (Cropper.points s') = 4%nat).
Proof. apply (four_points initial). exists []. reflexivity. Defined.

(** *** Dragging *)

(** C7.  While point [i] of the four is being dragged, a pointer move
    replaces [points[i]] by the pointer position less the origin of the
    container and the offset of the displayed image, without clamping,
    and leaves the other three points as they are. *)
Theorem handleMove_updates_one_point (s : Cropper.t) (i : nat)
    (pos : Point.t) (containerRect : Container.t) :
  Cropper.draggingPointIndex s = Some i ->
  length (Cropper.points s) = 4%nat -> (i < 4)%nat ->
  let s' := handleMove pos containerRect s in
  step s (PointerMove pos containerRect) = Some s' /\
  Cropper.points s' !! i
  = Some (Point.mk
            (Point.x pos - Container.left containerRect
             - Dims.left (Cropper.displayedImgDims s))
            (Point.y pos - Container.top containerRect
             - Dims.top (Cropper.displayedImgDims s))) /\
  (forall j, j <> i -> Cropper.points s' !! j = Cropper.points s !! j) /\
  length (Cropper.points s') = 4%nat.
Proof.
  intros Hi H4 Hlt s'. subst s'. unfold handleMove. rewrite Hi. simpl.
  split; [unfold handleMove; rewrite Hi; reflexivity|].
  split; [apply list_lookup_insert_eq; lia|].
  split; [|rewrite length_insert; exact H4].
  intros j Hj. apply list_lookup_insert_ne. congruence.
Qed.

Lemma handleMove_updates_one_point_witness :
  let s := handleMouseDown 2 (resetPoints initial) in
  let pos := Point.mk 5 7 in
  let rect := Container.mk 100 100 1 2 in
  let s' := handleMove pos rect s in
  step s (PointerMove pos rect) = Some s' /\
  Cropper.points s' !! 2%nat
  = Some (Point.mk
            (Point.x pos - Container.left rect
             - Dims.left (Cropper.displayedImgDims s))
            (Point.y pos - Container.top rect
             - Dims.top (Cropper.displayedImgDims s))) /\
  (forall j, j <> 2%nat -> Cropper.points s' !! j = Cropper.points s !! j) /\
  length (Cropper.points s') = 4%nat.
Proof.
  apply (handleMove_updates_one_point
           (handleMouseDown 2 (resetPoints initial)) 2
           (Point.mk 5 7) (Container.mk 100 100 1 2));
    [reflexivity | reflexivity | lia].
Defined.

End Session.

(** ** Resizing after the initialization *)

Section Resize.
Local Open Scope R_scope.



(** With such a listener every resize sets the points to the corners of
    the new layout, whatever the points are. *)
Lemma resize_sets_corners s img container :
  Cropper.resizeListener s = Some (img, []) ->
  exists s', step s (WindowResize container) = Some s' /\
    Cropper.points s'
    = corners (Dims.width (layout img container))
              (Dims.height (layout img container)).
Proof.
  intros Hl. simpl. rewrite Hl. eexists. split; [reflexivity|].
  unfold updateLayout. simpl. reflexivity.
Qed.

Lemma layout_400_300_in_880_680 :
  layout (Img.mk 400 300) (Container.mk 880 680 0 0)
  = Dims.mk 800 600 40 40 (1 / 2).
Proof.
  rewrite layout_tall; simpl; unfold padding.
  - f_equal; field.
  - lra.
Qed.

(** C6, the failing run.  An image of 400 by 300 is loaded in a container
    of 880 by 680, the top-left point is dragged to (110, 120), and the
    window is resized (the container keeps its size): the resize puts the
    dragged point back to the corner (0, 0). *)
Theorem resize_discards_drag :
  let img := Img.mk 400 300 in
  let container := Container.mk 880 680 0 0 in
  exists s1 s2,
    run initial [ImageLoaded img container; PointerDown 0;
                 PointerMove (Point.mk 150 160) container; PointerEnd]
      = Some s1 /\
    Cropper.points s1
      = [Point.mk 110 120; Point.mk 800 0; Point.mk 800 600; Point.mk 0 600] /\
    step s1 (WindowResize container) = Some s2 /\
    Cropper.points s2
      = [Point.mk 0 0; Point.mk 800 0; Point.mk 800 600; Point.mk 0 600] /\
    Cropper.points s2 <> Cropper.points s1.
Proof.
  intros img container.
  exists (Cropper.mk (Some img)
            [Point.mk 110 120; Point.mk 800 0; Point.mk 800 600; Point.mk 0 600]
            (Dims.mk 800 600 40 40 (1 / 2)) None false (Some (img, [])) []).
  exists (Cropper.mk (Some img)
            [Point.mk 0 0; Point.mk 800 0; Point.mk 800 600; Point.mk 0 600]
            (Dims.mk 800 600 40 40 (1 / 2)) None false (Some (img, [])) []).
  split; [|split; [reflexivity|split; [|split; [reflexivity|]]]].
  - unfold run; simpl.
    unfold handleMove, layoutEffect, updateLayout, img, container; simpl.
    rewrite layout_400_300_in_880_680. simpl.
    replace (150 - 0 - 40) with 110 by lra.
    replace (160 - 0 - 40) with 120 by lra. reflexivity.
  - simpl. unfold updateLayout, img, container; simpl.
    rewrite layout_400_300_in_880_680. reflexivity.
  - simpl. intros Heq. injection Heq as Heq _. lra.
Qed.

End Resize.

(** ** Confirmation *)

Section Confirm.
Local Open Scope R_scope.

Lemma updateLayout_pending image captured container s :
  Cropper.pending (updateLayout image captured container s) = Cropper.pending s.
Proof. unfold updateLayout. case_decide; reflexivity. Qed.

Lemma updateLayout_isProcessing image captured container s :
  Cropper.isProcessing (updateLayout image captured container s)
  = Cropper.isProcessing s.
Proof. unfold updateLayout. case_decide; reflexivity. Qed.

(** What an event does to the unfinished calls and to the flag. *)
Lemma step_pending s ev s' :
  step s ev = Some s' ->
  match ev with
  | ConfirmClick =>
      if Cropper.isProcessing s then s' = s
      else Cropper.isProcessing s' = true /\
           exists pts, Cropper.pending s' = Cropper.pending s ++ [Sleeping pts]
  | TimerFired k =>
      Cropper.isProcessing s' = Cropper.isProcessing s /\
      exists pts, Cropper.pending s !! k = Some (Sleeping pts) /\
                  Cropper.pending s' = <[k := Warping pts]> (Cropper.pending s)
  | WarpResolved k =>
      Cropper.isProcessing s' = Cropper.isProcessing s /\
      exists pts, Cropper.pending s !! k = Some (Warping pts) /\
                  Cropper.pending s' = delete k (Cropper.pending s)
  | WarpRejected k =>
      Cropper.isProcessing s' = false /\
      exists pts, Cropper.pending s !! k = Some (Warping pts) /\
                  Cropper.pending s' = delete k (Cropper.pending s)
  | _ =>
      Cropper.isProcessing s' = Cropper.isProcessing s /\
      Cropper.pending s' = Cropper.pending s
  end.
Proof.
  intros Hstep. destruct ev; simpl in Hstep.
  - injection Hstep as <-. unfold layoutEffect; simpl.
    rewrite updateLayout_pending, updateLayout_isProcessing. auto.
  - destruct (Cropper.resizeListener s) as [[img captured]|];
      injection Hstep as <-; [|auto].
    rewrite updateLayout_pending, updateLayout_isProcessing. auto.
  - destruct (Cropper.image s); [|discriminate].
    case_decide; [|discriminate]. injection Hstep as <-. auto.
  - injection Hstep as <-. unfold handleMove.
    destruct (Cropper.draggingPointIndex s); auto.
  - injection Hstep as <-. auto.
  - injection Hstep as <-. auto.
  - injection Hstep as <-. unfold handleProcessAndSave.
    destruct (Cropper.isProcessing s); [reflexivity|].
    simpl. split; [reflexivity|]. eexists. reflexivity.
  - destruct (Cropper.pending s !! k) as [[pts|pts]|]; try discriminate.
    injection Hstep as <-. simpl. split; [reflexivity|]. exists pts. auto.
  - destruct (Cropper.pending s !! k) as [[pts|pts]|]; try discriminate.
    injection Hstep as <-. simpl. split; [reflexivity|]. exists pts. auto.
  - destruct (Cropper.pending s !! k) as [[pts|pts]|]; try discriminate.
    injection Hstep as <-. simpl. split; [reflexivity|]. exists pts. auto.
Qed.

Lemma delete_of_short {A : Type} (l : list A) (k : nat) (v : A) :
  (length l <= 1)%nat -> l !! k = Some v -> delete k l = [].
Proof.
  intros Hlen Hk. destruct l as [|a [|b l]]; simpl in *; try lia.
  - discriminate.
  - destruct k; [reflexivity | discriminate].
Qed.

Lemma step_processing_inv s ev s' :
  processing_inv s -> step s ev = Some s' -> processing_inv s'.
Proof.
  intros [Hlen Hflag] Hstep. apply step_pending in Hstep.
  unfold processing_inv.
  destruct ev;
    try (destruct Hstep as [-> ->]; split; assumption).
  - (* ConfirmClick *)
    destruct (Cropper.isProcessing s) eqn:Hp.
    + subst s'. rewrite Hp. split; [exact Hlen | reflexivity].
    + destruct Hstep as [Htrue [pts Hpend]].
      assert (Hnil : Cropper.pending s = []).
      { destruct (Cropper.pending s); [reflexivity|].
        assert (false = true) by (apply Hflag; discriminate). discriminate. }
      rewrite Hpend, Hnil. simpl. split; [lia | intros _; exact Htrue].
  - (* TimerFired *)
    destruct Hstep as [-> (pts & Hk & ->)]. rewrite length_insert.
    split; [exact Hlen|]. intros _. apply Hflag. intros Hnil.
    rewrite Hnil in Hk. discriminate.
  - (* WarpResolved *)
    destruct Hstep as [-> (pts & Hk & ->)].
    rewrite (delete_of_short _ _ _ Hlen Hk). simpl. split; [lia | congruence].
  - (* WarpRejected *)
    destruct Hstep as [-> (pts & Hk & ->)].
    rewrite (delete_of_short _ _ _ Hlen Hk). simpl. split; [lia | congruence].
Qed.

Lemma reachable_processing_inv s : reachable s -> processing_inv s.
Proof.
  apply reachable_ind'.
  - split; simpl; [lia | congruence].
  - intros s0 ev s' _. apply step_processing_inv.
Qed.

(** C10.  In every state of a session at most one call of
    [handleProcessAndSave] is unfinished, so at most one warp is running;
    while [isProcessing] is set a confirm returns at once and changes
    nothing; a call is started only by a confirm that finds the flag unset
    and no call unfinished; and the flag, once set, is cleared only by the
    failure of the running warp. *)
Theorem confirm_runs_one_warp (s : Cropper.t) :
  reachable s ->
  (length (Cropper.pending s) <= 1)%nat /\
  (Cropper.isProcessing s = true ->
     handleProcessAndSave s = s /\ step s ConfirmClick = Some s) /\
  (forall ev s',
     step s ev = Some s' ->
     (length (Cropper.pending s) < length (Cropper.pending s'))%nat ->
     ev = ConfirmClick /\ Cropper.isProcessing s = false /\
     Cropper.pending s = []) /\
  (forall ev s',
     step s ev = Some s' ->
     Cropper.isProcessing s = true -> Cropper.isProcessing s' = false ->
     exists k pts, ev = WarpRejected k /\
                   Cropper.pending s !! k = Some (Warping pts)).
Proof.
  intros Hr. destruct (reachable_processing_inv s Hr) as [Hlen Hflag].
  split; [exact Hlen|]. split; [|split].
  - intros Hp. simpl. unfold handleProcessAndSave. rewrite Hp. auto.
  - intros ev s' Hstep Hgrow. apply step_pending in Hstep.
    destruct ev;
      try (destruct Hstep as [_ Heq]; rewrite Heq in Hgrow; lia).
    + destruct (Cropper.isProcessing s) eqn:Hp.
      * subst s'. lia.
      * split; [reflexivity|]. split; [reflexivity|].
        destruct (Cropper.pending s); [reflexivity|].
        assert (false = true) by (apply Hflag; discriminate). discriminate.
    + destruct Hstep as [_ (pts & _ & Heq)].
      rewrite Heq, length_insert in Hgrow. lia.
    + destruct Hstep as [_ (pts & Hk & Heq)].
      rewrite Heq, (delete_of_short _ _ _ Hlen Hk) in Hgrow. simpl in Hgrow. lia.
    + destruct Hstep as [_ (pts & Hk & Heq)].
      rewrite Heq, (delete_of_short _ _ _ Hlen Hk) in Hgrow. simpl in Hgrow. lia.
  - intros ev s' Hstep Hp Hp'. apply step_pending in Hstep.
    destruct ev;
      try (destruct Hstep as [Heq _]; congruence).
    + rewrite Hp in Hstep. subst s'. congruence.
    + destruct Hstep as [_ (pts & Hk & _)]. exists k, pts. auto.
Qed.

Lemma confirm_runs_one_warp_witness :
  let s := handleProcessAndSave initial in
  (length (Cropper.pending s) <= 1)%nat /\
  (Cropper.isProcessing s = true ->
     handleProcessAndSave s = s /\ step s ConfirmClick = Some s) /\
  (forall ev s',
     step s ev = Some s' ->
     (length (Cropper.pending s) < length (Cropper.pending s'))%nat ->
     ev = ConfirmClick /\ Cropper.isProcessing s = false /\
     Cropper.pending s = []) /\
  (forall ev s',
     step s ev = Some s' ->
     Cropper.isProcessing s = true -> Cropper.isProcessing s' = false ->
     exists k pts, ev = WarpRejected k /\
                   Cropper.pending s !! k = Some (Warping pts)).
Proof.
  apply (confirm_runs_one_warp (handleProcessAndSave initial)).
  exists [ConfirmClick]. reflexivity.
Defined.

End Confirm.
(** ** Sessions: gestures, coordinates, and what follows a save *)

Section Runs.
Local Open Scope R_scope.

Lemma run_none (evs : list event) :
  foldl (fun os ev => s ← os; step s ev) None evs = None.
Proof. induction evs as [|ev evs IH]; [reflexivity | exact IH]. Qed.

Lemma run_cons s ev evs :
  run s (ev :: evs) = step s ev ≫= fun s' => run s' evs.
Proof.
  unfold run. cbn [foldl mbind option_bind].
  destruct (step s ev) as [s'|]; [reflexivity | apply run_none].
Qed.

Lemma run_app s evs1 evs2 :
  run s (evs1 ++ evs2) = run s evs1 ≫= fun s' => run s' evs2.
Proof.
  revert s. induction evs1 as [|ev evs1 IH]; intros s; [reflexivity|].
  cbn [app]. rewrite !run_cons.
  destruct (step s ev) as [s'|]; [apply IH | reflexivity].
Qed.

(** A property kept by every step of the events of a class holds after a
    run of such events. *)
Lemma run_invariant (P : Cropper.t -> Prop) (Q : event -> Prop) s evs s' :
  (forall t ev t', P t -> Q ev -> step t ev = Some t' -> P t') ->
  P s -> Forall Q evs -> run s evs = Some s' -> P s'.
Proof.
  intros Hstep. revert s.
  induction evs as [|ev evs IH]; intros s HP HQ Hrun.
  - injection Hrun as <-. exact HP.
  - rewrite run_cons in Hrun.
    destruct (step s ev) as [t|] eqn:Hs; [|discriminate].
    cbn [mbind option_bind] in Hrun.
    apply Forall_cons in HQ. destruct HQ as [Hev Hevs].
    apply (IH t); [|exact Hevs|exact Hrun].
    apply (Hstep s ev t); assumption.
Qed.




End Runs.

Section Coordinates.
Local Open Scope R_scope.








End Coordinates.

Section AfterSave.

(** A state with the flag set and no unfinished call stays so. *)
Lemma step_locked s ev s' :
  Cropper.isProcessing s = true /\ Cropper.pending s = [] ->
  step s ev = Some s' ->
  Cropper.isProcessing s' = true /\ Cropper.pending s' = [].
Proof.
  intros [Hp Hq] Hstep. pose proof (step_pending s ev s' Hstep) as H.
  destruct ev; cbv beta iota in H;
    try (destruct H as [-> ->]; split; assumption).
  - rewrite Hp in H. subst s'. split; assumption.
  - destruct H as (_ & pts & Hk & _). rewrite Hq in Hk. discriminate.
  - destruct H as (_ & pts & Hk & _). rewrite Hq in Hk. discriminate.
  - destruct H as (_ & pts & Hk & _). rewrite Hq in Hk. discriminate.
Qed.

(** X12.  Once a warp of the session has succeeded, the flag
    [isProcessing] stays set and no call of [handleProcessAndSave] is ever
    unfinished again, whatever events follow: this editor starts no second
    warp. *)
Theorem no_warp_after_a_save (s : Cropper.t) (k : nat) (s1 : Cropper.t)
    (evs : list event) (s2 : Cropper.t) :
  reachable s -> step s (WarpResolved k) = Some s1 ->
  run s1 evs = Some s2 ->
  Cropper.isProcessing s2 = true /\ Cropper.pending s2 = [] /\
  step s2 ConfirmClick = Some s2.
Proof.
  intros Hreach Hstep Hrun.
  assert (Hlocked : Cropper.isProcessing s1 = true /\ Cropper.pending s1 = []).
  { destruct (reachable_processing_inv s Hreach) as [Hlen Hflag].
    pose proof (step_pending s _ s1 Hstep) as H. cbv beta iota in H.
    destruct H as (Hp & pts & Hk & Hq).
    split.
    - rewrite Hp. apply Hflag. intros Hnil. rewrite Hnil in Hk. discriminate.
    - rewrite Hq. apply (delete_of_short _ _ _ Hlen Hk). }
  assert (Hlocked2 : Cropper.isProcessing s2 = true /\ Cropper.pending s2 = []).
  { apply (run_invariant
             (fun t => Cropper.isProcessing t = true /\ Cropper.pending t = [])
             (fun _ => True) s1 evs s2); [| exact Hlocked | | exact Hrun].
    - intros t ev t' Ht _. apply step_locked. exact Ht.
    - apply Forall_true. intros ev. exact I. }
  destruct Hlocked2 as [Hp2 Hq2].
  split; [exact Hp2|]. split; [exact Hq2|].
  cbn [step]. unfold handleProcessAndSave. rewrite Hp2. reflexivity.
Qed.

(** X29.  A warp that fails gives the editor back: the flag
    [isProcessing] is cleared and no call is unfinished, so the next
    confirm starts one new call, for the points as they are. *)
Theorem failed_warp_reenables_confirm (s : Cropper.t) (k : nat)
    (s1 : Cropper.t) :
  reachable s -> step s (WarpRejected k) = Some s1 ->
  Cropper.isProcessing s1 = false /\ Cropper.pending s1 = [] /\
  Cropper.points s1 = Cropper.points s /\
  exists s2,
    step s1 ConfirmClick = Some s2 /\
    Cropper.isProcessing s2 = true /\
    Cropper.pending s2
    = [Sleeping
         (map (fun p =>
                 Point.mk
                   (Point.x p * Dims.scale (Cropper.displayedImgDims s))
                   (Point.y p * Dims.scale (Cropper.displayedImgDims s)))
              (Cropper.points s))].
Proof.
  intros Hreach Hstep.
  destruct (reachable_processing_inv s Hreach) as [Hlen _].
  pose proof (step_pending s _ s1 Hstep) as H. cbv beta iota in H.
  destruct H as (Hp & pts & Hk & Hq).
  assert (Hnil : Cropper.pending s1 = [])
    by (rewrite Hq; apply (delete_of_short _ _ _ Hlen Hk)).
  assert (Hsame : Cropper.points s1 = Cropper.points s /\
                  Cropper.displayedImgDims s1 = Cropper.displayedImgDims s).
  { cbn [step] in Hstep. rewrite Hk in Hstep. injection Hstep as <-.
    split; reflexivity. }
  destruct Hsame as [Hpts Hdims].
  split; [exact Hp|]. split; [exact Hnil|]. split; [exact Hpts|].
  eexists. split; [reflexivity|].
  unfold handleProcessAndSave. rewrite Hp. cbv zeta.
  cbn [Cropper.isProcessing Cropper.pending Cropper.setPending
       Cropper.setIsProcessing Cropper.points Cropper.displayedImgDims].
  rewrite Hnil, Hpts, Hdims. split; reflexivity.
Qed.

End AfterSave.

Section Gesture.

Lemma setPoints_setPoints ps ps' s :
  Cropper.setPoints ps (Cropper.setPoints ps' s) = Cropper.setPoints ps s.
Proof. reflexivity. Qed.

(** The moves of a drag leave a state that differs from the state before
    them in the dragged point only. *)
Lemma run_moves (i : nat) (ms : list (Point.t * Container.t)) (t : Cropper.t) :
  Cropper.draggingPointIndex t = Some i ->
  exists ps,
    run t (moves ms) = Some (Cropper.setPoints ps t) /\
    forall p, <[i := p]> ps = <[i := p]> (Cropper.points t).
Proof.
  revert t. induction ms as [|[pos rect] ms IH]; intros t Hdrag.
  - exists (Cropper.points t). split; [|reflexivity].
    destruct t. reflexivity.
  - unfold moves. cbn [fmap list_fmap fst snd]. rewrite run_cons.
    cbn [step mbind option_bind]. unfold handleMove at 1. rewrite Hdrag.
    match goal with
    | |- context [run ?t1 _] =>
        destruct (IH t1) as (ps & Hrun & Hins); [exact Hdrag|]
    end.
    exists ps. split.
    + unfold moves in Hrun. rewrite Hrun. rewrite setPoints_setPoints. reflexivity.
    + intros p. rewrite Hins. cbn [Cropper.points Cropper.setPoints].
      apply list_insert_insert_eq.
Qed.

(** X13.  A whole drag gesture on handle [i] (press, any number of moves,
    a last move, release) changes the state in one place only: point [i]
    is where the last move put it; the other points, the layout, the
    flags and the unfinished calls are those of the state before the
    press. *)
Theorem drag_gesture_moves_one_point (s : Cropper.t) (i : nat)
    (ms : list (Point.t * Container.t)) (pos : Point.t)
    (containerRect : Container.t) :
  is_Some (Cropper.image s) -> (i < length (Cropper.points s))%nat ->
  Cropper.draggingPointIndex s = None ->
  run s (PointerDown i :: moves ms
         ++ [PointerMove pos containerRect; PointerEnd])
  = Some (Cropper.setPoints
            (<[i := handle_position s pos containerRect]> (Cropper.points s))
            s).
Proof.
  intros [img Himg] Hi Hnone.
  rewrite run_cons. cbn [step]. rewrite Himg.
  rewrite decide_True by exact Hi. cbn [mbind option_bind].
  rewrite run_app.
  destruct (run_moves i ms (handleMouseDown i s)) as (ps & Hrun & Hins);
    [reflexivity|].
  rewrite Hrun. cbn [mbind option_bind].
  rewrite run_cons. cbn [step mbind option_bind].
  rewrite run_cons. cbn [step mbind option_bind].
  unfold run. cbn [foldl]. f_equal.
  unfold handleMove, handleEnd, handleMouseDown, handle_position.
  cbn [Cropper.draggingPointIndex Cropper.setPoints Cropper.setDraggingPointIndex
       Cropper.points Cropper.displayedImgDims Cropper.image Cropper.isProcessing
       Cropper.resizeListener Cropper.pending].
  rewrite Hins. cbn [Cropper.points Cropper.setDraggingPointIndex].
  destruct s as [im pts d dr pr rl pe]. cbn in Hnone |- *. subst dr. reflexivity.
Qed.

End Gesture.

Section Reinitialisation.



End Reinitialisation.

Section SessionWitnesses.
Local Open Scope R_scope.




Lemma no_warp_after_a_save_witness :
  let s2 := Cropper.mk None [] (Dims.mk 0 0 0 0 1) None true None [] in
  Cropper.isProcessing s2 = true /\ Cropper.pending s2 = [] /\
  step s2 ConfirmClick = Some s2.
Proof.
  apply (no_warp_after_a_save
           (Cropper.mk None [] (Dims.mk 0 0 0 0 1) None true None [Warping []])
           0
           (Cropper.mk None [] (Dims.mk 0 0 0 0 1) None true None [])
           [ConfirmClick]).
  - exists [ConfirmClick; TimerFired 0]. reflexivity.
  - reflexivity.
  - reflexivity.
Defined.

Lemma drag_gesture_moves_one_point_witness :
  let s := resetPoints (Cropper.setImage (Some (Img.mk 1 1)) initial) in
  let pos := Point.mk 5 7 in
  let rect := Container.mk 100 100 1 2 in
  run s (PointerDown 0 :: moves [(Point.mk 3 4, rect)]
         ++ [PointerMove pos rect; PointerEnd])
  = Some (Cropper.setPoints
            (<[0%nat := handle_position s pos rect]> (Cropper.points s)) s).
Proof.
  apply (drag_gesture_moves_one_point
           (resetPoints (Cropper.setImage (Some (Img.mk 1 1)) initial)) 0
           [(Point.mk 3 4, Container.mk 100 100 1 2)]).
  - eexists. reflexivity.
  - cbn. lia.
  - reflexivity.
Defined.


Lemma failed_warp_reenables_confirm_witness :
  let s := Cropper.mk None [] (Dims.mk 0 0 0 0 1) None true None [Warping []] in
  let s1 := Cropper.mk None [] (Dims.mk 0 0 0 0 1) None false None [] in
  Cropper.isProcessing s1 = false /\ Cropper.pending s1 = [] /\
  Cropper.points s1 = Cropper.points s /\
  exists s2,
    step s1 ConfirmClick = Some s2 /\
    Cropper.isProcessing s2 = true /\
    Cropper.pending s2
    = [Sleeping
         (map (fun p =>
                 Point.mk
                   (Point.x p * Dims.scale (Cropper.displayedImgDims s))
                   (Point.y p * Dims.scale (Cropper.displayedImgDims s)))
              (Cropper.points s))].
Proof.
  apply (failed_warp_reenables_confirm
           (Cropper.mk None [] (Dims.mk 0 0 0 0 1) None true None [Warping []])
           0).
  - exists [ConfirmClick; TimerFired 0]. reflexivity.
  - reflexivity.
Defined.

End SessionWitnesses.
(** ** The pages of the print layout *)

Section Pagination.
Context {A : Type}.
Implicit Types (workers : list A) (k : nat).

Lemma page_count_bounds len k :
  0 < k ->
  len <= page_count len k * k /\
  (0 < len -> (page_count len k - 1) * k < len) /\
  (len = 0 -> page_count len k = 0).
Proof.
  intros Hk. unfold page_count.
  pose proof (Nat.div_mod_eq (len + k - 1) k) as Hd.
  pose proof (Nat.mod_upper_bound (len + k - 1) k ltac:(lia)) as Hm.
  repeat split.
  - nia.
  - intros Hl. nia.
  - intros ->. apply Nat.div_small. lia.
Qed.

Lemma page_count_fuel len k :
  0 < k -> page_count len k <= len.
Proof.
  intros Hk. destruct (page_count_bounds len k Hk) as (Hup & Hlow & Hz).
  destruct (decide (len = 0)) as [Hl|Hl]; [rewrite Hz by exact Hl; lia|].
  specialize (Hlow ltac:(lia)). nia.
Qed.

(** The loop, with enough fuel, appends the slices of the remaining
    pages. *)
Lemma pages_loop_spec fuel k workers m acc :
  0 < k -> m <= page_count (length workers) k ->
  page_count (length workers) k - m <= fuel ->
  pages_loop fuel k workers (m * k) acc
  = acc ++ ((fun p => slice workers (p * k) (p * k + k))
              <$> seq m (page_count (length workers) k - m)).
Proof.
  intros Hk. revert m acc. induction fuel as [|fuel IH]; intros m acc Hm Hfuel.
  - replace (page_count (length workers) k - m) with 0 by lia.
    cbn. rewrite app_nil_r. reflexivity.
  - cbn [pages_loop].
    destruct (page_count_bounds (length workers) k Hk) as (Hup & Hlow & Hz).
    destruct (decide (m * k < length workers)) as [Hlt|Hge].
    + assert (Hm' : m < page_count (length workers) k) by nia.
      replace (m * k + k) with (S m * k) by lia.
      rewrite IH by lia.
      replace (page_count (length workers) k - m)
        with (S (page_count (length workers) k - S m)) by lia.
      cbn [seq fmap list_fmap]. rewrite <- app_assoc. cbn [app].
      replace (S m * k) with (m * k + k) by lia. reflexivity.
    + assert (Hm' : page_count (length workers) k - m = 0).
      { destruct (decide (length workers = 0)) as [Hl|Hl];
          [rewrite Hz by exact Hl; lia|].
        specialize (Hlow ltac:(lia)). nia. }
      rewrite Hm'. cbn. rewrite app_nil_r. reflexivity.
Qed.

Lemma per_page_positive mode : 0 < WORKERS_PER_PAGE mode.
Proof. destruct mode; cbn; lia. Qed.

Lemma pages_spec mode workers :
  pages mode workers
  = (fun p => slice workers (p * WORKERS_PER_PAGE mode)
                (p * WORKERS_PER_PAGE mode + WORKERS_PER_PAGE mode))
      <$> seq 0 (page_count (length workers) (WORKERS_PER_PAGE mode)).
Proof.
  unfold pages.
  pose proof (per_page_positive mode) as Hk.
  pose proof (pages_loop_spec (length workers) (WORKERS_PER_PAGE mode)
                workers 0 [] Hk ltac:(lia)) as H.
  cbn [Nat.mul app] in H. rewrite Nat.sub_0_r in H. apply H.
  apply page_count_fuel. exact Hk.
Qed.

Lemma concat_slices workers k m :
  concat ((fun p => slice workers (p * k) (p * k + k)) <$> seq 0 m)
  = take (m * k) workers.
Proof.
  induction m as [|m IH]; [reflexivity|].
  rewrite seq_S, fmap_app, concat_app, IH. cbn [fmap list_fmap concat plus].
  rewrite app_nil_r. unfold slice.
  replace (m * k + k - m * k) with k by lia.
  rewrite take_take_drop. f_equal. lia.
Qed.

(** X15.  The pages partition the workers: put one after the other they
    are the list of workers, in order; no page is empty or has more than
    [WORKERS_PER_PAGE] workers, every page but the last is full, and the
    number of pages is the number of workers over [WORKERS_PER_PAGE],
    rounded up. *)
Theorem pages_partition (mode : PrintMode) (workers : list A) :
  concat (pages mode workers) = workers /\
  (forall p page, pages mode workers !! p = Some page ->
     0 < length page <= WORKERS_PER_PAGE mode /\
     (S p < length (pages mode workers) ->
      length page = WORKERS_PER_PAGE mode)) /\
  length workers <= length (pages mode workers) * WORKERS_PER_PAGE mode
    < length workers + WORKERS_PER_PAGE mode.
Proof.
  pose proof (per_page_positive mode) as Hk.
  destruct (page_count_bounds (length workers) (WORKERS_PER_PAGE mode) Hk)
    as (Hup & Hlow & Hz).
  rewrite pages_spec.
  set (k := WORKERS_PER_PAGE mode) in *.
  set (pc := page_count (length workers) k) in *.
  split; [|split].
  - rewrite concat_slices. apply take_ge. exact Hup.
  - intros p page Hp. rewrite length_fmap, length_seq.
    rewrite list_lookup_fmap in Hp.
    destruct (seq 0 pc !! p) as [q|] eqn:Hq; [|discriminate].
    apply lookup_seq in Hq. destruct Hq as [-> Hlt]. cbn in Hp.
    injection Hp as <-. unfold slice.
    rewrite length_take, length_drop.
    assert (length workers <> 0)
      by (intros Hl; rewrite Hz in Hlt by exact Hl; lia).
    specialize (Hlow ltac:(lia)). split; [nia|]. intros Hnext. nia.
  - rewrite length_fmap, length_seq.
    destruct (decide (length workers = 0)) as [Hl|Hl];
      [rewrite Hz by exact Hl; lia|].
    specialize (Hlow ltac:(lia)). nia.
Qed.

(** X16.  The number printed beside a worker of a page is the position
    of the worker in the list of workers, counted from one. *)
Theorem printed_numbers_are_positions (mode : PrintMode) (workers : list A)
    (pageIndex idx : nat) (page : list A) (w : A) :
  pages mode workers !! pageIndex = Some page -> page !! idx = Some w ->
  workers !! (printed_number mode pageIndex idx - 1) = Some w /\
  1 <= printed_number mode pageIndex idx <= length workers.
Proof.
  rewrite pages_spec. intros Hp Hw.
  rewrite list_lookup_fmap in Hp.
  destruct (seq 0 _ !! pageIndex) as [q|] eqn:Hq; [|discriminate].
  apply lookup_seq in Hq. destruct Hq as [-> Hlt]. cbn in Hp.
  injection Hp as <-. unfold slice in Hw.
  apply lookup_take_Some in Hw. destruct Hw as [Hw Hidx].
  rewrite lookup_drop in Hw. unfold printed_number.
  replace (pageIndex * WORKERS_PER_PAGE mode + idx + 1 - 1)
    with (pageIndex * WORKERS_PER_PAGE mode + idx) by lia.
  split; [exact Hw|]. apply lookup_lt_Some in Hw. lia.
Qed.

End Pagination.

Lemma printed_numbers_are_positions_witness :
  [10; 20; 30; 40; 50] !! (printed_number LIST 1 0 - 1) = Some 50 /\
  1 <= printed_number LIST 1 0 <= length [10; 20; 30; 40; 50].
Proof.
  apply (printed_numbers_are_positions LIST [10; 20; 30; 40; 50] 1 0 [50] 50).
  - reflexivity.
  - reflexivity.
Defined.
(** ** Resizing and cropping *)

Section ImageUtilsFacts.
Local Open Scope R_scope.






End ImageUtilsFacts.
(** ** The retry loop of extractWorkerInfo *)

Section Retry.
Context {A : Type}.
Implicit Types (api : nat -> attempt_outcome A).

Lemma backoff_trace_S from k :
  backoff_trace from (S k)
  = [ApiCall; Sleep (2000 * 2 ^ Z.of_nat from)%Z] ++ backoff_trace (S from) k.
Proof. reflexivity. Qed.

Lemma not_quota_returned (items : list A) : ~ quota_failure (Returned items).
Proof. intros (e & He & _). discriminate. Qed.

Lemma not_quota_threw (e : ApiError.t) :
  isQuotaError e = false -> ~ @quota_failure A (Threw e).
Proof. intros He (e' & [= <-] & Hq). congruence. Qed.

(** The loop from the attempt [attempt] on: it stops at the first call
    [k] that does not end in a quota error, or at the last attempt. *)
Lemma retry_loop_spec api fuel attempt trace :
  attempt < maxAttempts -> maxAttempts - attempt <= fuel ->
  exists k,
    attempt <= k < maxAttempts /\
    (forall j, attempt <= j < k -> quota_failure (api j)) /\
    (k < maxAttempts - 1 -> ~ quota_failure (api k)) /\
    retry_loop fuel api attempt attempt trace
    = Some (items_of (api k),
            trace ++ backoff_trace attempt (k - attempt) ++ [ApiCall]).
Proof.
  revert attempt trace.
  induction fuel as [|fuel IH]; intros attempt trace Hlt Hfuel; [lia|].
  cbn [retry_loop]. rewrite decide_True by exact Hlt. cbv zeta.
  destruct (api attempt) as [items|e] eqn:Hapi.
  - exists attempt. rewrite Hapi, Nat.sub_diag.
    split; [lia|]. split; [intros j Hj; lia|].
    split; [intros _; apply not_quota_returned | reflexivity].
  - destruct (isQuotaError e) eqn:Hq; cbn [andb orb negb].
    + destruct (decide (attempt < maxAttempts - 1)) as [Hmore|Hlast].
      * rewrite bool_decide_eq_true_2 by exact Hmore.
        replace (attempt + 1) with (S attempt) by lia.
        destruct (IH (S attempt)
                    ((trace ++ [ApiCall]) ++ [Sleep (2000 * 2 ^ Z.of_nat attempt)%Z]))
          as (k & Hk & Hbefore & Hstop & Hrun); [lia | lia |].
        exists k. split; [lia|]. split; [|split; [exact Hstop|]].
        -- intros j Hj. destruct (decide (j = attempt)) as [->|Hne].
           ++ exists e. split; [exact Hapi | exact Hq].
           ++ apply Hbefore. lia.
        -- rewrite Hrun. f_equal. f_equal.
           replace (k - attempt) with (S (k - S attempt)) by lia.
           rewrite backoff_trace_S. rewrite <- !app_assoc. reflexivity.
      * rewrite bool_decide_eq_false_2 by exact Hlast.
        assert (Heq : attempt = maxAttempts - 1) by lia.
        rewrite bool_decide_eq_true_2 by exact Heq. cbn [orb].
        exists attempt. rewrite Hapi, Nat.sub_diag.
        split; [lia|]. split; [intros j Hj; lia|].
        split; [intros Hk; lia | reflexivity].
    + rewrite orb_true_r.
      exists attempt. rewrite Hapi, Nat.sub_diag.
      split; [lia|]. split; [intros j Hj; lia|].
      split; [intros _; apply not_quota_threw; exact Hq | reflexivity].
Qed.

(** The call at which the loop stops is determined by the outcomes. *)
Lemma stop_unique api k k' :
  k < maxAttempts -> k' < maxAttempts ->
  (forall j, j < k -> quota_failure (api j)) ->
  (k < maxAttempts - 1 -> ~ quota_failure (api k)) ->
  (forall j, j < k' -> quota_failure (api j)) ->
  (k' < maxAttempts - 1 -> ~ quota_failure (api k')) ->
  k = k'.
Proof.
  intros Hk Hk' Hb Hs Hb' Hs'.
  destruct (Nat.lt_trichotomy k k') as [Hlt|[Heq|Hgt]]; [|exact Heq|].
  - exfalso. apply Hs; [lia|]. apply Hb'. exact Hlt.
  - exfalso. apply Hs'; [lia|]. apply Hb. exact Hgt.
Qed.

Lemma extractWorkerInfo_stops_at api (apiKey : jsstring) k :
  apiKey <> [] -> k < maxAttempts ->
  (forall j, j < k -> quota_failure (api j)) ->
  (k < maxAttempts - 1 -> ~ quota_failure (api k)) ->
  extractWorkerInfo (Some apiKey) api
  = Some (items_of (api k), backoff_trace 0 k ++ [ApiCall]).
Proof.
  intros Hkey Hk Hbefore Hstop.
  destruct apiKey as [|c apiKey]; [contradiction|]. cbn [extractWorkerInfo].
  destruct (retry_loop_spec api (S maxAttempts) 0 [])
    as (k' & Hk' & Hbefore' & Hstop' & Hrun); [unfold maxAttempts; lia | lia |].
  assert (Heq : k = k').
  { apply (stop_unique api); try assumption; [lia|].
    intros j Hj. apply Hbefore'. lia. }
  subst k'. rewrite Hrun, Nat.sub_0_r. reflexivity.
Qed.

Lemma api_calls_backoff from k :
  api_calls (backoff_trace from k ++ [ApiCall]) = S k.
Proof.
  revert from. induction k as [|k IH]; intros from; [reflexivity|].
  rewrite backoff_trace_S. unfold api_calls in *.
  rewrite <- app_assoc. cbn [app]. rewrite filter_cons_True by reflexivity.
  rewrite filter_cons_False by discriminate. cbn [length]. rewrite IH.
  reflexivity.
Qed.

Lemma sleeps_backoff from k :
  sleeps (backoff_trace from k ++ [ApiCall])
  = (fun j => 2000 * 2 ^ Z.of_nat j)%Z <$> seq from k.
Proof.
  revert from. induction k as [|k IH]; intros from; [reflexivity|].
  rewrite backoff_trace_S. unfold sleeps in *.
  rewrite <- app_assoc. cbn [app omap list_omap]. rewrite IH. reflexivity.
Qed.

Lemma total_backoff k :
  foldr Z.add 0%Z ((fun j => 2000 * 2 ^ Z.of_nat j)%Z <$> seq 0 k)
  = (2000 * (2 ^ Z.of_nat k - 1))%Z.
Proof.
  induction k as [|k IH]; [reflexivity|].
  rewrite seq_S, fmap_app, foldr_app. cbn [fmap list_fmap foldr plus].
  assert (Hgen : forall (l : list Z) (z : Z),
            foldr Z.add z l = (foldr Z.add 0 l + z)%Z).
  { induction l as [|x l IHl]; intros z; cbn [foldr]; [lia|].
    rewrite IHl. lia. }
  rewrite Hgen, IH. rewrite Nat2Z.inj_succ, Z.pow_succ_r by lia. lia.
Qed.


(** X20.  [extractWorkerInfo] always returns: it makes at most seven
    calls, waits at most 126 seconds in all between them, and a list that
    is not empty is what its last call returned. *)
Theorem extractWorkerInfo_budget (apiKey : option jsstring)
    (api : nat -> attempt_outcome A) :
  exists items trace,
    extractWorkerInfo apiKey api = Some (items, trace) /\
    api_calls trace <= maxAttempts /\
    (0 <= foldr Z.add 0 (sleeps trace) <= 126000)%Z /\
    (items <> [] -> exists k, S k = api_calls trace /\ api k = Returned items).
Proof.
  destruct apiKey as [[|c apiKey]|]; cbn [extractWorkerInfo];
    try (exists [], []; split; [reflexivity|]; split; [cbn; lia|];
         split; [cbn; lia | intros Hne; contradiction]).
  destruct (retry_loop_spec api (S maxAttempts) 0 [])
    as (k & Hk & _ & _ & Hrun); [unfold maxAttempts; lia | lia |].
  rewrite Nat.sub_0_r in Hrun. cbn [app] in Hrun.
  exists (items_of (api k)), (backoff_trace 0 k ++ [ApiCall]).
  split; [exact Hrun|].
  rewrite api_calls_backoff, sleeps_backoff, total_backoff.
  split; [lia|]. split.
  - assert (Hpow : (1 <= 2 ^ Z.of_nat k <= 2 ^ 6)%Z).
    { pose proof (Z.pow_pos_nonneg 2 (Z.of_nat k) ltac:(lia) ltac:(lia)).
      split; [lia|].
      apply Z.pow_le_mono_r; unfold maxAttempts in Hk; lia. }
    change (2 ^ 6)%Z with 64%Z in Hpow. lia.
  - intros Hne. exists k. split; [reflexivity|].
    destruct (api k) as [items|e]; [reflexivity|]. contradiction.
Qed.

(** X21.  A request that times out is not tried again: when the calls
    before call [k] end in quota errors and call [k] runs into the
    timeout, the function returns the empty list after call [k]. *)
Theorem timeout_is_not_retried (api : nat -> attempt_outcome A)
    (apiKey : jsstring) (k : nat) :
  apiKey <> [] -> k < maxAttempts ->
  (forall j, j < k -> quota_failure (api j)) ->
  api k = Threw timeoutError ->
  extractWorkerInfo (Some apiKey) api
  = Some ([], backoff_trace 0 k ++ [ApiCall]).
Proof.
  intros Hkey Hk Hbefore Htimeout.
  rewrite (extractWorkerInfo_stops_at api apiKey k Hkey Hk Hbefore).
  - rewrite Htimeout. reflexivity.
  - intros _. rewrite Htimeout. apply not_quota_threw. reflexivity.
Qed.

End Retry.

Section RetryWitnesses.


Lemma timeout_is_not_retried_witness :
  extractWorkerInfo (Some (lit "key"))
    (fun _ : nat => @Threw nat timeoutError)
  = Some ([], backoff_trace 0 0 ++ [ApiCall]).
Proof.
  apply (timeout_is_not_retried (fun _ : nat => @Threw nat timeoutError)
           (lit "key") 0).
  - discriminate.
  - unfold maxAttempts. lia.
  - intros j Hj. lia.
  - reflexivity.
Defined.

End RetryWitnesses.
(** ** The weather icon *)

(** X26.  The icon drawn for a weather code is the one that
    [getWeatherDescription] names, but for the showers: the codes 80 to
    82, and only they, get the name [CloudRainWind], for which the switch
    of [WeatherIcon] has no case, so they are drawn with the plain cloud;
    the rain icon is drawn exactly for the codes 61 to 65. *)
Theorem showers_are_drawn_as_cloud (code : Z) :
  (getWeatherDescription code = CloudRainWind <-> (80 <= code <= 82)%Z) /\
  ((80 <= code <= 82)%Z -> WeatherIcon code = CloudIcon) /\
  (WeatherIcon code = CloudRainIcon <-> (61 <= code <= 65)%Z).
Proof.
  unfold WeatherIcon, getWeatherDescription.
  repeat case_decide; repeat split; intros; try discriminate; try lia;
    reflexivity.
Qed.

(** ** Gaussian elimination *)

Section Sums.
Local Open Scope R_scope.

Lemma big_app ks1 ks2 f : big (ks1 ++ ks2) f = big ks1 f + big ks2 f.
Proof.
  unfold big. induction ks1 as [|k ks1 IH]; simpl; [lra|].
  rewrite IH. lra.
Qed.

Lemma big_ext ks f g :
  (forall k, k ∈ ks -> f k = g k) -> big ks f = big ks g.
Proof.
  unfold big. induction ks as [|k ks IH]; intros Hfg; simpl; [reflexivity|].
  rewrite (Hfg k) by (left). rewrite IH; [reflexivity|].
  intros k' Hk'. apply Hfg. right. exact Hk'.
Qed.

Lemma big_zero ks f : (forall k, k ∈ ks -> f k = 0) -> big ks f = 0.
Proof.
  unfold big. induction ks as [|k ks IH]; intros Hf; simpl; [reflexivity|].
  rewrite (Hf k) by (left). rewrite IH; [lra|].
  intros k' Hk'. apply Hf. right. exact Hk'.
Qed.

Lemma big_plus ks f g : big ks (fun k => f k + g k) = big ks f + big ks g.
Proof.
  unfold big. induction ks as [|k ks IH]; simpl; [lra|]. rewrite IH. lra.
Qed.

Lemma big_scal ks c f : big ks (fun k => c * f k) = c * big ks f.
Proof.
  unfold big. induction ks as [|k ks IH]; simpl; [lra|]. rewrite IH. lra.
Qed.

(** The accumulation loop [sum += f j] computes the sum. *)
Lemma foldl_sum ks f s0 : foldl (fun s j => s + f j) s0 ks = s0 + big ks f.
Proof.
  unfold big. revert s0. induction ks as [|k ks IH]; intros s0; simpl; [lra|].
  rewrite IH. lra.
Qed.

Lemma seq_split (m len : nat) (k : nat) :
  (k < len)%nat ->
  seq m len = seq m k ++ (m + k)%nat :: seq (m + k + 1) (len - k - 1).
Proof.
  intros Hk. replace len with (k + S (len - k - 1))%nat at 1 by lia.
  rewrite seq_app. f_equal. rewrite <- cons_seq. f_equal. f_equal; lia.
Qed.

(** A sum over [0 .. len-1] whose terms all vanish but the one at [m]. *)
Lemma big_single len m f :
  (m < len)%nat -> (forall k, (k < len)%nat -> k <> m -> f k = 0) ->
  big (seq 0 len) f = f m.
Proof.
  intros Hm Hf. rewrite (seq_split 0 len m Hm), big_app. simpl.
  rewrite !big_zero; [lra| |].
  - intros k Hk. apply elem_of_seq in Hk. apply Hf; lia.
  - intros k Hk. apply elem_of_seq in Hk. apply Hf; lia.
Qed.

(** The sum of [f k * x[k]] after the write [x[m] = v]. *)
Lemma big_insert len m v (x : vector) f :
  (m < len)%nat -> (m < length x)%nat ->
  big (seq 0 len) (fun k => f k * (<[m := v]> x !!! k))
  = big (seq 0 len) (fun k => f k * (x !!! k)) + f m * (v - x !!! m).
Proof.
  intros Hm Hx.
  replace (f m * (v - x !!! m))
    with (big (seq 0 len) (fun k => if decide (k = m) then f m * (v - x !!! m) else 0)).
  - rewrite <- big_plus. apply big_ext. intros k _.
    case_decide as Hk.
    + rewrite Hk. rewrite list_lookup_total_insert_eq by exact Hx. ring.
    + rewrite list_lookup_total_insert_ne by congruence. ring.
  - rewrite (big_single len m) by (try exact Hm; intros; case_decide; congruence).
    rewrite decide_True by reflexivity. reflexivity.
Qed.

End Sums.

Section RowOperations.
Local Open Scope R_scope.

Lemma swap_length {A : Type} `{Inhabited A} (l : list A) i pivot :
  length (swap l i pivot) = length l.
Proof. unfold swap. rewrite !length_insert. reflexivity. Qed.

Lemma swap_lookup {A : Type} `{Inhabited A} (l : list A) i pivot r :
  (i < length l)%nat -> (pivot < length l)%nat ->
  swap l i pivot !!! r = l !!! swapped i pivot r.
Proof.
  intros Hi Hp. unfold swap, swapped.
  rewrite list_lookup_total_insert, length_insert.
  destruct (decide (r = pivot)) as [->|Hrp].
  - rewrite decide_True by (split; [reflexivity | exact Hp]). reflexivity.
  - rewrite decide_False by (intros [? _]; congruence).
    rewrite list_lookup_total_insert.
    destruct (decide (r = i)) as [->|Hri].
    + rewrite decide_True by (split; [reflexivity | exact Hi]). reflexivity.
    + rewrite decide_False by (intros [? _]; congruence). reflexivity.
Qed.

Lemma swapped_lt i pivot r m :
  (i < m)%nat -> (pivot < m)%nat -> (r < m)%nat -> (swapped i pivot r < m)%nat.
Proof. intros. unfold swapped. repeat case_decide; assumption. Qed.

Lemma swapped_involutive i pivot r :
  swapped i pivot (swapped i pivot r) = r.
Proof. unfold swapped. repeat case_decide; congruence. Qed.

(** The loop over [k]: row [j] becomes row [j] less [factor] times row
    [i], from column [i] on. *)
Lemma sub_entries_spec (a : matrix) (i j : nat) (factor : R) (m : nat) :
  j <> i -> (j < length a)%nat ->
  let a' := foldl (sub_entry i j factor) a (seq i m) in
  length a' = length a /\
  (forall r, r <> j -> a' !!! r = a !!! r) /\
  length (a' !!! j) = length (a !!! j) /\
  (forall k, entry a' j k =
             if decide ((i <= k < i + m)%nat /\ (k < length (a !!! j))%nat)
             then entry a j k - factor * entry a i k else entry a j k).
Proof.
  intros Hji Hj. induction m as [|m IH].
  - simpl. repeat split; try reflexivity.
    intros k. rewrite decide_False by lia. reflexivity.
  - rewrite seq_S, foldl_snoc.
    destruct IH as (Hlen & Hrows & Hrow & Hent).
    set (a' := foldl (sub_entry i j factor) a (seq i m)) in *.
    unfold sub_entry. cbv zeta.
    split; [rewrite length_insert; exact Hlen|].
    split; [intros r Hr; rewrite list_lookup_total_insert_ne by congruence;
            apply Hrows; exact Hr|].
    rewrite list_lookup_total_insert_eq by lia.
    split; [rewrite length_insert; exact Hrow|].
    intros k. unfold entry at 1.
    rewrite list_lookup_total_insert_eq by lia.
    rewrite list_lookup_total_insert, Hrow.
    destruct (decide ((i + m)%nat = k /\ (i + m < length (a !!! j))%nat))
      as [[<- Hk]|Hk].
    + rewrite decide_True by lia.
      rewrite Hent, decide_False by lia.
      unfold entry at 2. rewrite (Hrows i) by congruence. reflexivity.
    + fold (entry a' j k). rewrite Hent.
      destruct (decide ((i <= k < i + m)%nat /\ (k < length (a !!! j))%nat)).
      * rewrite decide_True by lia. reflexivity.
      * rewrite decide_False by lia. reflexivity.
Qed.

End RowOperations.

Section Elimination.
Local Open Scope R_scope.

(** The search loop returns the first index of a largest value. *)
Lemma argmax_spec (g : nat -> R) (p0 : nat) (ks : list nat) :
  let p := foldl (fun pivot j => if decide (g j > g pivot) then j else pivot)
                 p0 ks in
  (p = p0 \/ p ∈ ks) /\ g p0 <= g p /\ forall j, j ∈ ks -> g j <= g p.
Proof.
  induction ks as [|j ks IH] using rev_ind.
  - simpl. split; [left; reflexivity|]. split; [lra|].
    intros j Hj. inversion Hj.
  - rewrite foldl_snoc.
    set (p := foldl _ p0 ks) in *. cbv zeta in IH.
    destruct IH as (Hp & H0 & Hks). cbv zeta.
    case_decide as Hgt.
    + split; [right; apply elem_of_app; right; left|].
      split; [lra|]. intros j' [Hj'|Hj']%elem_of_app.
      * specialize (Hks j' Hj'). lra.
      * apply list_elem_of_singleton in Hj'. subst j'. lra.
    + split; [destruct Hp as [Hp|Hp]; [left; exact Hp|
                right; apply elem_of_app; left; exact Hp]|].
      split; [exact H0|]. intros j' [Hj'|Hj']%elem_of_app.
      * apply Hks. exact Hj'.
      * apply list_elem_of_singleton in Hj'. subst j'. lra.
Qed.

Lemma pivot_search_spec (a : matrix) (i : nat) :
  (i < n)%nat ->
  (i <= pivot_search a i < n)%nat /\
  forall j, (i <= j < n)%nat ->
            Rabs (entry a j i) <= Rabs (entry a (pivot_search a i) i).
Proof.
  intros Hi.
  pose proof (argmax_spec (fun j => Rabs (entry a j i)) i
                (seq (i + 1) (n - (i + 1)))) as H.
  cbv beta zeta in H. unfold pivot_search.
  destruct H as (Hp & H0 & Hks). split.
  - destruct Hp as [->|Hp]; [lia|]. apply elem_of_seq in Hp. lia.
  - intros j Hj. destruct (decide (j = i)) as [->|Hji]; [exact H0|].
    apply Hks. apply elem_of_seq. lia.
Qed.

(** The loop over the rows [j] below the pivot row [i]. *)
Lemma eliminate_rows_spec (a : matrix) (b : vector) (i m : nat) :
  well_shaped a b -> (i + 1 + m <= n)%nat ->
  exists a' b',
    foldl (eliminate_row i) (a, b) (seq (i + 1) m) = (a', b') /\
    well_shaped a' b' /\
    (forall r, ~ (i < r < i + 1 + m)%nat ->
               a' !!! r = a !!! r /\ b' !!! r = b !!! r) /\
    (forall r, (i < r < i + 1 + m)%nat ->
       b' !!! r = b !!! r - entry a r i / entry a i i * b !!! i /\
       forall k, (k < n)%nat ->
         entry a' r k =
         if decide (i <= k)%nat
         then entry a r k - entry a r i / entry a i i * entry a i k
         else entry a r k).
Proof.
  intros Hshape Hm. induction m as [|m IH].
  - exists a, b. simpl. split; [reflexivity|]. split; [exact Hshape|].
    split; [auto|]. intros r Hr. lia.
  - destruct IH as (a' & b' & Hfold & (Hla & Hlb & Hrows) & Hout & Hin); [lia|].
    rewrite seq_S, foldl_snoc, Hfold.
    set (j := (i + 1 + m)%nat).
    unfold eliminate_row.
    assert (Hrj : a' !!! j = a !!! j) by (apply Hout; lia).
    assert (Hri : a' !!! i = a !!! i) by (apply Hout; lia).
    assert (Hfac : entry a' j i / entry a' i i = entry a j i / entry a i i)
      by (unfold entry; rewrite Hrj, Hri; reflexivity).
    rewrite Hfac. set (factor := entry a j i / entry a i i).
    pose proof (sub_entries_spec a' i j factor (n - i)) as Hsub.
    cbv zeta in Hsub.
    destruct Hsub as (Hlen & Hother & Hrow & Hent); [lia | lia |].
    eexists _, _. split; [reflexivity|].
    split; [|split].
    + split; [lia|]. split; [rewrite length_insert; exact Hlb|].
      intros r Hr. destruct (decide (r = j)) as [->|Hrj'].
      * rewrite Hrow. apply Hrows. exact Hr.
      * rewrite Hother by exact Hrj'. apply Hrows. exact Hr.
    + intros r Hr.
      rewrite Hother by lia.
      rewrite list_lookup_total_insert_ne by lia.
      apply Hout. lia.
    + intros r Hr. destruct (decide (r = j)) as [->|Hrj'].
      * split.
        -- rewrite list_lookup_total_insert_eq by lia.
           destruct (Hout j) as [_ ->]; [lia|].
           destruct (Hout i) as [_ ->]; [lia|]. reflexivity.
        -- intros k Hk.
           assert (Hej : entry a' j k = entry a j k)
             by (unfold entry; rewrite Hrj; reflexivity).
           assert (Hei : entry a' i k = entry a i k)
             by (unfold entry; rewrite Hri; reflexivity).
           rewrite Hent, Hej, Hei, (Hrows j) by lia. unfold factor.
           destruct (decide (i <= k)%nat).
           ++ rewrite decide_True by lia. reflexivity.
           ++ rewrite decide_False by lia. reflexivity.
      * rewrite list_lookup_total_insert_ne by lia.
        destruct (Hin r) as [Hb He]; [unfold j in Hrj'; lia|].
        split; [exact Hb|]. intros k Hk. rewrite <- (He k Hk).
        unfold entry. rewrite Hother by exact Hrj'. reflexivity.
Qed.

End Elimination.

Section Invariant.
Local Open Scope R_scope.

Lemma row_dot_swap (a : matrix) (x : vector) i pivot r :
  (i < length a)%nat -> (pivot < length a)%nat ->
  row_dot (swap a i pivot) x r = row_dot a x (swapped i pivot r).
Proof.
  intros Hi Hp. unfold row_dot, entry.
  rewrite swap_lookup by assumption. reflexivity.
Qed.

Lemma row_dot_insert (a : matrix) (x : vector) r m v :
  (m < n)%nat -> length x = n ->
  row_dot a (<[m := v]> x) r
  = row_dot a x r + entry a r m * (v - x !!! m).
Proof.
  intros Hm Hx. unfold row_dot.
  apply (big_insert n m v x (fun k => entry a r k)); lia.
Qed.

(** Row [r] applied to [x] after row [i], times [f], was subtracted from
    it from column [i] on, row [i] being zero before column [i]. *)
Lemma row_dot_sub (a a' : matrix) (x : vector) (i r : nat) (f : R) :
  (forall k, (k < i)%nat -> entry a i k = 0) ->
  (forall k, (k < n)%nat ->
     entry a' r k =
     if decide (i <= k)%nat then entry a r k - f * entry a i k
     else entry a r k) ->
  row_dot a' x r = row_dot a x r - f * row_dot a x i.
Proof.
  intros Hzero Hent. unfold row_dot.
  replace (big (seq 0 n) (fun k => entry a r k * x !!! k)
           - f * big (seq 0 n) (fun k => entry a i k * x !!! k))
    with (big (seq 0 n) (fun k => entry a r k * x !!! k
                                  + (- f) * (entry a i k * x !!! k))).
  - apply big_ext. intros k Hk. apply elem_of_seq in Hk.
    rewrite Hent by lia. case_decide; [ring|].
    rewrite (Hzero k) by lia. ring.
  - rewrite big_plus, big_scal. ring.
Qed.

(** The solutions of a system are kept by a swap of two rows followed by
    the subtraction of multiples of row [i] from the rows below it. *)
Lemma rows_equiv (rd rd1 rd' beta beta1 beta' f : nat -> R) (i pivot : nat) :
  (i < n)%nat -> (pivot < n)%nat ->
  (forall r, (r < n)%nat ->
     rd1 r = rd (swapped i pivot r) /\ beta1 r = beta (swapped i pivot r)) ->
  (forall r, (r < n)%nat -> (r <= i)%nat -> rd' r = rd1 r /\ beta' r = beta1 r) ->
  (forall r, (i < r < n)%nat ->
     rd' r = rd1 r - f r * rd1 i /\ beta' r = beta1 r - f r * beta1 i) ->
  (forall r, (r < n)%nat -> rd r = beta r) <->
  (forall r, (r < n)%nat -> rd' r = beta' r).
Proof.
  intros Hi Hp Hswap Hlow Hhigh.
  assert (H1 : (forall r, (r < n)%nat -> rd r = beta r) <->
               (forall r, (r < n)%nat -> rd1 r = beta1 r)).
  { split; intros H r Hr.
    - destruct (Hswap r Hr) as [-> ->]. apply H.
      apply swapped_lt; assumption.
    - pose proof (swapped_lt i pivot r n Hi Hp Hr) as Hs.
      destruct (Hswap _ Hs) as [Hrd Hbeta].
      rewrite swapped_involutive in Hrd, Hbeta.
      rewrite <- Hrd, <- Hbeta. apply H. exact Hs. }
  rewrite H1. split; intros H r Hr.
  - destruct (decide (r <= i)%nat) as [Hle|Hgt].
    + destruct (Hlow r Hr Hle) as [-> ->]. apply H. exact Hr.
    + destruct (Hhigh r) as [-> ->]; [lia|].
      rewrite (H r Hr), (H i Hi). reflexivity.
  - assert (Hrow_i : rd1 i = beta1 i).
    { destruct (Hlow i Hi) as [<- <-]; [lia|]. apply H. exact Hi. }
    destruct (decide (r <= i)%nat) as [Hle|Hgt].
    + destruct (Hlow r Hr Hle) as [<- <-]. apply H. exact Hr.
    + destruct (Hhigh r) as [Hrd Hbeta]; [lia|].
      specialize (H r Hr). rewrite Hrd, Hbeta, Hrow_i in H. lra.
Qed.

(** When column [i] is zero from row [i] down, the homogeneous system has
    a solution whose entry [i] is [1]. *)
Lemma kernel_vector (a : matrix) (i : nat) :
  (i < n)%nat -> echelon i a ->
  (forall r, (i <= r < n)%nat -> entry a r i = 0) ->
  exists x : vector,
    length x = n /\ x !!! i = 1 /\
    forall r, (r < n)%nat -> row_dot a x r = 0.
Proof.
  intros Hi [Hzero Hdiag] Hcol.
  assert (Hsolve : forall m, (m <= i)%nat ->
            exists x : vector,
              length x = n /\ x !!! i = 1 /\
              (forall k, (i < k < n)%nat -> x !!! k = 0) /\
              (forall r, (i - m <= r < i)%nat -> row_dot a x r = 0)).
  { induction m as [|m IH]; intros Hm.
    - exists (<[i := 1]> (replicate n 0)).
      split; [rewrite length_insert, length_replicate; reflexivity|].
      split; [apply list_lookup_total_insert_eq;
              rewrite length_replicate; exact Hi|].
      split; [|intros r Hr; lia].
      intros k Hk. rewrite list_lookup_total_insert_ne by lia.
      apply lookup_total_replicate_2. lia.
    - destruct IH as (x & Hlen & Hxi & Hafter & Hrows); [lia|].
      set (t := (i - S m)%nat).
      exists (<[t := x !!! t - row_dot a x t / entry a t t]> x).
      split; [rewrite length_insert; exact Hlen|].
      split; [rewrite list_lookup_total_insert_ne by (unfold t; lia); exact Hxi|].
      split.
      + intros k Hk.
        rewrite list_lookup_total_insert_ne by (unfold t; lia).
        apply Hafter. exact Hk.
      + intros r Hr. rewrite row_dot_insert by (unfold t; lia).
        destruct (decide (r = t)) as [->|Hrt].
        * field. apply Hdiag. unfold t. lia.
        * rewrite (Hzero r t) by (unfold t in *; lia).
          rewrite Hrows by (unfold t in *; lia). ring. }
  destruct (Hsolve i) as (x & Hlen & Hxi & Hafter & Hrows); [lia|].
  exists x. split; [exact Hlen|]. split; [exact Hxi|].
  intros r Hr. destruct (decide (r < i)%nat) as [Hlt|Hge].
  - apply Hrows. lia.
  - unfold row_dot. apply big_zero. intros k Hk. apply elem_of_seq in Hk.
    destruct (lt_eq_lt_dec k i) as [[Hki| -> ]|Hki].
    + rewrite (Hzero r k) by lia. ring.
    + rewrite Hcol by lia. ring.
    + rewrite Hafter by lia. ring.
Qed.

End Invariant.

Section Steps.
Local Open Scope R_scope.

Lemma entry_swap (a : matrix) i pivot r k :
  (i < length a)%nat -> (pivot < length a)%nat ->
  entry (swap a i pivot) r k = entry a (swapped i pivot r) k.
Proof. intros Hi Hp. unfold entry. rewrite swap_lookup by assumption. reflexivity. Qed.

Lemma swapped_pivot_row i pivot : swapped i pivot i = pivot.
Proof. unfold swapped. repeat case_decide; congruence. Qed.

Lemma swapped_below i pivot r :
  (i <= pivot)%nat -> (i <= r)%nat -> (i <= swapped i pivot r)%nat.
Proof. intros. unfold swapped. repeat case_decide; lia. Qed.

Lemma swapped_above i pivot r :
  (i <= pivot)%nat -> (r < i)%nat -> swapped i pivot r = r.
Proof. intros. unfold swapped. repeat case_decide; lia. Qed.

Lemma row_dot_same_row (a a' : matrix) (x : vector) r :
  a' !!! r = a !!! r -> row_dot a' x r = row_dot a x r.
Proof. intros Hr. unfold row_dot, entry. rewrite Hr. reflexivity. Qed.

(** One step of the elimination either meets a zero pivot, and then the
    homogeneous system has a solution that is not zero, or eliminates one
    more column. *)
Lemma gauss_step_cases (a0 : matrix) (b0 : vector) (i : nat)
    (a : matrix) (b : vector) :
  (i < n)%nat -> gauss_inv a0 b0 i a b ->
  (gauss_step (Some (a, b)) i = None /\
   exists x : vector,
     length x = n /\ x !!! i = 1 /\
     forall r, (r < n)%nat -> row_dot a0 x r = 0) \/
  (exists a' b',
     gauss_step (Some (a, b)) i = Some (a', b') /\
     gauss_inv a0 b0 (S i) a' b').
Proof.
  intros Hi ((Hla & Hlb & Hrows) & [Hzero Hdiag] & Heq).
  destruct (pivot_search_spec a i Hi) as [Hp Hmax].
  unfold gauss_step. simpl.
  set (p := pivot_search a i) in *.
  set (a1 := swap a i p). set (b1 := swap b i p).
  assert (Hent1 : forall r k, entry a1 r k = entry a (swapped i p r) k)
    by (intros r k; apply entry_swap; lia).
  assert (Hb1 : forall r, b1 !!! r = b !!! swapped i p r)
    by (intros r; apply swap_lookup; lia).
  assert (Hshape1 : well_shaped a1 b1).
  { split; [unfold a1; rewrite swap_length; exact Hla|].
    split; [unfold b1; rewrite swap_length; exact Hlb|].
    intros r Hr. unfold a1. rewrite swap_lookup by lia.
    apply Hrows. apply swapped_lt; lia. }
  assert (Hzero1 : forall r c, (c < i)%nat -> (c < r < n)%nat -> entry a1 r c = 0).
  { intros r c Hc Hr. rewrite Hent1.
    destruct (decide (r < i)%nat) as [Hlt|Hge].
    - rewrite swapped_above by lia. apply Hzero; lia.
    - apply Hzero; [exact Hc|].
      pose proof (swapped_below i p r). pose proof (swapped_lt i p r n). lia. }
  destruct (decide (entry a1 i i = 0)) as [Hpiv|Hpiv].
  - (* a zero pivot: the system is singular *)
    left. split; [reflexivity|].
    rewrite Hent1, swapped_pivot_row in Hpiv.
    assert (Hcol : forall r, (i <= r < n)%nat -> entry a r i = 0).
    { intros r Hr. specialize (Hmax r Hr). rewrite Hpiv, Rabs_R0 in Hmax.
      destruct (Req_dec_T (entry a r i) 0) as [H0|H0]; [exact H0|].
      pose proof (Rabs_pos_lt _ H0). lra. }
    destruct (kernel_vector a i Hi (conj Hzero Hdiag) Hcol)
      as (x & Hlen & Hxi & Hker).
    destruct (Heq x Hlen) as [_ Hker0].
    exists x. split; [exact Hlen|]. split; [exact Hxi|].
    apply Hker0. exact Hker.
  - right.
    destruct (eliminate_rows_spec a1 b1 i (n - (i + 1)) Hshape1)
      as (a' & b' & Hfold & Hshape' & Hout & Hin); [lia|].
    exists a', b'. split; [rewrite Hfold; reflexivity|].
    split; [exact Hshape'|]. split; [split|].
    + (* zero below the diagonal in the columns up to [i] *)
      intros r c Hc Hr. destruct (decide (r <= i)%nat) as [Hle|Hgt].
      * unfold entry. destruct (Hout r) as [-> _]; [lia|].
        apply Hzero1; lia.
      * destruct (Hin r) as [_ He]; [lia|]. rewrite He by lia.
        destruct (decide (i <= c)%nat) as [Hic|Hic].
        -- replace c with i by lia. field. exact Hpiv.
        -- apply Hzero1; lia.
    + (* not zero on the diagonal up to [i] *)
      intros c Hc. unfold entry. destruct (Hout c) as [-> _]; [lia|].
      fold (entry a1 c c). destruct (decide (c = i)) as [->|Hci]; [exact Hpiv|].
      rewrite Hent1, swapped_above by lia. apply Hdiag. lia.
    + (* the same solutions *)
      intros x Hlen. destruct (Heq x Hlen) as [Hsol Hker].
      rewrite Hsol, Hker. clear Hsol Hker.
      assert (Hlow : forall r, (r < n)%nat -> (r <= i)%nat ->
                row_dot a' x r = row_dot a1 x r).
      { intros r Hr Hle. apply row_dot_same_row. apply Hout. lia. }
      assert (Hhigh : forall r, (i < r < n)%nat ->
                row_dot a' x r
                = row_dot a1 x r - entry a1 r i / entry a1 i i * row_dot a1 x i).
      { intros r Hr. apply row_dot_sub.
        - intros k Hk. apply Hzero1; lia.
        - intros k Hk. apply (Hin r); lia. }
      split.
      * apply (rows_equiv _ (row_dot a1 x) _ _ (fun r => b1 !!! r) _
                 (fun r => entry a1 r i / entry a1 i i) i p); try lia.
        -- intros r Hr. split; [apply row_dot_swap; lia | apply Hb1].
        -- intros r Hr Hle. split; [apply Hlow; assumption | apply Hout; lia].
        -- intros r Hr. split; [apply Hhigh; exact Hr | apply (Hin r); lia].
      * apply (rows_equiv _ (row_dot a1 x) _ _ (fun _ => 0) _
                 (fun r => entry a1 r i / entry a1 i i) i p); try lia.
        -- intros r Hr. split; [apply row_dot_swap; lia | reflexivity].
        -- intros r Hr Hle. split; [apply Hlow; assumption | reflexivity].
        -- intros r Hr. split; [apply Hhigh; exact Hr | ring].
Qed.

(** One step of the elimination of a nonsingular system succeeds and
    eliminates one more column. *)
Lemma gauss_step_inv (a0 : matrix) (b0 : vector) (i : nat)
    (a : matrix) (b : vector) :
  nonsingular a0 -> (i < n)%nat -> gauss_inv a0 b0 i a b ->
  exists a' b',
    gauss_step (Some (a, b)) i = Some (a', b') /\
    gauss_inv a0 b0 (S i) a' b'.
Proof.
  intros Hns Hi Hinv.
  destruct (gauss_step_cases a0 b0 i a b Hi Hinv)
    as [(_ & x & Hlen & Hxi & Hker)|Hsome]; [|exact Hsome].
  assert (Hx0 : x !!! i = 0) by (apply (Hns x Hlen); assumption). lra.
Qed.


Lemma equivalent_refl (a : matrix) (b : vector) : equivalent a b a b.
Proof. intros x _. split; reflexivity. Qed.

(** The elimination of a nonsingular system runs to its end. *)
Lemma eliminate_total (a0 : matrix) (b0 : vector) :
  well_shaped a0 b0 -> nonsingular a0 ->
  exists a b, eliminate (a0, b0) = Some (a, b) /\ gauss_inv a0 b0 n a b.
Proof.
  intros Hshape Hns. unfold eliminate.
  assert (H : forall i, (i <= n)%nat ->
            exists a b, foldl gauss_step (Some (a0, b0)) (seq 0 i) = Some (a, b) /\
                        gauss_inv a0 b0 i a b).
  { induction i as [|i IH]; intros Hi.
    - exists a0, b0. split; [reflexivity|].
      split; [exact Hshape|]. split; [|apply equivalent_refl].
      split; intros; lia.
    - destruct IH as (a & b & Hfold & Hinv); [lia|].
      rewrite seq_S, foldl_snoc, Hfold. simpl (0 + i)%nat.
      apply gauss_step_inv; [exact Hns | lia | exact Hinv]. }
  apply H. lia.
Qed.

End Steps.

Section BackSubstitution.
Local Open Scope R_scope.

Lemma row_sum_big (a : matrix) (x : vector) (i : nat) :
  row_sum a x i
  = big (seq (i + 1) (n - (i + 1))) (fun j => entry a i j * x !!! j).
Proof. unfold row_sum. rewrite foldl_sum. lra. Qed.

(** After the rows [n - m .. n - 1] were solved, each of them holds, as an
    equation on the entries of [x] from its diagonal on. *)
Lemma back_substitute_rows (a : matrix) (b : vector) (m : nat) :
  echelon n a -> (m <= n)%nat ->
  let x := foldl (fun x i => <[i := ((b !!! i) - row_sum a x i) / entry a i i]> x)
                 (replicate n 0) (rev (seq (n - m) m)) in
  length x = n /\
  forall r, (n - m <= r < n)%nat ->
    big (seq r (n - r)) (fun k => entry a r k * x !!! k) = b !!! r.
Proof.
  intros [_ Hdiag] Hm. induction m as [|m IH].
  - cbn [seq rev foldl]. split; [apply length_replicate|]. intros r Hr. lia.
  - destruct IH as [Hlen Hrows]; [lia|].
    set (t := (n - S m)%nat).
    replace (seq t (S m)) with (t :: seq (n - m) m)
      by (cbn [seq]; do 2 f_equal; unfold t; lia).
    cbn [rev]. rewrite foldl_snoc.
    set (x := foldl _ (replicate n 0) (rev (seq (n - m) m))) in *.
    cbv zeta in *. split; [rewrite length_insert; exact Hlen|].
    intros r Hr.
    assert (Hlater : forall r', (t < r')%nat ->
              big (seq r' (n - r'))
                  (fun k => entry a r' k
                            * <[t := ((b !!! t) - row_sum a x t) / entry a t t]> x !!! k)
              = big (seq r' (n - r')) (fun k => entry a r' k * x !!! k)).
    { intros r' Hr'. apply big_ext. intros k Hk. apply elem_of_seq in Hk.
      rewrite list_lookup_total_insert_ne by lia. reflexivity. }
    destruct (decide (r = t)) as [->|Hrt].
    + replace (seq t (n - t)) with (t :: seq (t + 1) (n - (t + 1)))
        by (replace (n - t)%nat with (S (n - (t + 1))) by (unfold t; lia);
            cbn [seq]; do 2 f_equal; lia).
      unfold big at 1. simpl foldr. fold (big (seq (t + 1) (n - (t + 1)))
        (fun k => entry a t k
                  * <[t := ((b !!! t) - row_sum a x t) / entry a t t]> x !!! k)).
      rewrite list_lookup_total_insert_eq by (unfold t; lia).
      replace (big (seq (t + 1) (n - (t + 1)))
                 (fun k => entry a t k
                           * <[t := ((b !!! t) - row_sum a x t) / entry a t t]> x !!! k))
        with (row_sum a x t).
      * field. apply Hdiag. unfold t. lia.
      * rewrite row_sum_big. apply big_ext. intros k Hk. apply elem_of_seq in Hk.
        rewrite list_lookup_total_insert_ne by lia. reflexivity.
    + rewrite Hlater by (unfold t in *; lia). apply Hrows. unfold t in *. lia.
Qed.

Lemma back_substitute_spec (a : matrix) (b : vector) :
  echelon n a ->
  length (back_substitute a b) = n /\
  forall r, (r < n)%nat -> row_dot a (back_substitute a b) r = b !!! r.
Proof.
  intros Hech.
  pose proof (back_substitute_rows a b n Hech (le_n n)) as H. cbv zeta in H.
  replace (n - n)%nat with 0%nat in H by lia.
  fold (back_substitute a b) in H. destruct H as [Hlen Hrows].
  split; [exact Hlen|]. intros r Hr.
  unfold row_dot.
  replace (seq 0 n) with (seq 0 r ++ seq r (n - r))
    by (rewrite <- seq_app; f_equal; lia).
  rewrite big_app, big_zero.
  - rewrite Hrows by lia. lra.
  - intros k Hk. apply elem_of_seq in Hk.
    destruct Hech as [Hzero _]. rewrite Hzero by lia. ring.
Qed.

(** Gaussian elimination with partial pivoting and back-substitution, as
    written in [getHomographyMatrix], solves every nonsingular system. *)
Lemma gauss_solves (a0 : matrix) (b0 : vector) :
  well_shaped a0 b0 -> nonsingular a0 ->
  exists a b,
    eliminate (a0, b0) = Some (a, b) /\
    solves a0 b0 (back_substitute a b).
Proof.
  intros Hshape Hns.
  destruct (eliminate_total a0 b0 Hshape Hns) as (a & b & Helim & _ & Hech & Heq).
  exists a, b. split; [exact Helim|].
  destruct (back_substitute_spec a b Hech) as [Hlen Hrows].
  split; [exact Hlen|]. apply (Heq _ Hlen). exact Hrows.
Qed.

End BackSubstitution.

(** ** The solver as a whole *)

Section Solver.
Local Open Scope R_scope.




(** Two solutions of a nonsingular system are the same vector. *)
Lemma solution_unique (a0 : matrix) (b0 : vector) (x x' : vector) :
  nonsingular a0 -> solves a0 b0 x -> solves a0 b0 x' -> x = x'.
Proof.
  intros Hns [Hlen Hsol] [Hlen' Hsol'].
  set (d := (fun k => x !!! k - x' !!! k) <$> seq 0 n).
  assert (Hd : forall k, (k < n)%nat -> d !!! k = x !!! k - x' !!! k).
  { intros k Hk. unfold d.
    apply list_lookup_total_correct.
    rewrite list_lookup_fmap, lookup_seq_lt by exact Hk. reflexivity. }
  assert (Hzero : forall k, (k < n)%nat -> d !!! k = 0).
  { apply Hns; [unfold d; rewrite length_fmap, length_seq; reflexivity|].
    intros r Hr. unfold row_dot.
    replace 0 with (row_dot a0 x r + (-1) * row_dot a0 x' r)
      by (rewrite Hsol, Hsol' by exact Hr; ring).
    unfold row_dot. rewrite <- big_scal, <- big_plus.
    apply big_ext. intros k Hk. apply elem_of_seq in Hk.
    rewrite Hd by lia. ring. }
  apply list_eq_same_length with n; [exact Hlen' | exact Hlen |].
  intros k y y' Hk Hy Hy'.
  apply list_lookup_total_correct in Hy, Hy'.
  specialize (Hzero k Hk). rewrite Hd in Hzero by exact Hk. lra.
Qed.


End Solver.
(** ** Partial pivoting *)

Section Pivoting.
Local Open Scope R_scope.




End Pivoting.

(** ** The homography of four correspondences *)

Section HomographySystem.
Local Open Scope R_scope.

(** The system that [getHomographyMatrix] builds. *)
Lemma build_system_four (s0 s1 s2 s3 d0 d1 d2 d3 : Point.t)
    (srest drest : list Point.t) :
  build_system (s0 :: s1 :: s2 :: s3 :: srest) (d0 :: d1 :: d2 :: d3 :: drest)
  = Some
      ([ [Point.x s0; Point.y s0; 1; 0; 0; 0; - Point.x s0 * Point.x d0; - Point.y s0 * Point.x d0];
         [0; 0; 0; Point.x s0; Point.y s0; 1; - Point.x s0 * Point.y d0; - Point.y s0 * Point.y d0];
         [Point.x s1; Point.y s1; 1; 0; 0; 0; - Point.x s1 * Point.x d1; - Point.y s1 * Point.x d1];
         [0; 0; 0; Point.x s1; Point.y s1; 1; - Point.x s1 * Point.y d1; - Point.y s1 * Point.y d1];
         [Point.x s2; Point.y s2; 1; 0; 0; 0; - Point.x s2 * Point.x d2; - Point.y s2 * Point.x d2];
         [0; 0; 0; Point.x s2; Point.y s2; 1; - Point.x s2 * Point.y d2; - Point.y s2 * Point.y d2];
         [Point.x s3; Point.y s3; 1; 0; 0; 0; - Point.x s3 * Point.x d3; - Point.y s3 * Point.x d3];
         [0; 0; 0; Point.x s3; Point.y s3; 1; - Point.x s3 * Point.y d3; - Point.y s3 * Point.y d3] ],
       [ Point.x d0; Point.y d0; Point.x d1; Point.y d1;
         Point.x d2; Point.y d2; Point.x d3; Point.y d3 ]).
Proof. reflexivity. Qed.

Lemma row_dot_rows (a : matrix) (r0 r1 r2 r3 r4 r5 r6 r7 : R)
    (h0 h1 h2 h3 h4 h5 h6 h7 : R) (i : nat) :
  a !!! i = [r0; r1; r2; r3; r4; r5; r6; r7] ->
  row_dot a [h0; h1; h2; h3; h4; h5; h6; h7] i
  = r0 * h0 + r1 * h1 + r2 * h2 + r3 * h3 + r4 * h4 + r5 * h5 + r6 * h6 + r7 * h7.
Proof.
  intros Hrow. unfold row_dot, entry. rewrite Hrow.
  unfold big, n. cbn [seq foldr lookup_total list_lookup_total]. ring.
Qed.

Lemma eight_entries (x : vector) :
  length x = n ->
  exists h0 h1 h2 h3 h4 h5 h6 h7, x = [h0; h1; h2; h3; h4; h5; h6; h7].
Proof.
  intros Hlen. unfold n in Hlen.
  do 8 (destruct x as [|? x]; [discriminate|]).
  destruct x; [|discriminate]. eauto 10.
Qed.

End HomographySystem.

(** The eight equations [E0 .. E7] of a system whose rows are given
    explicitly, from a hypothesis on all its rows. *)
Ltac eight_equations Hrows :=
  pose proof (Hrows 0%nat ltac:(unfold n; lia)) as E0;
  pose proof (Hrows 1%nat ltac:(unfold n; lia)) as E1;
  pose proof (Hrows 2%nat ltac:(unfold n; lia)) as E2;
  pose proof (Hrows 3%nat ltac:(unfold n; lia)) as E3;
  pose proof (Hrows 4%nat ltac:(unfold n; lia)) as E4;
  pose proof (Hrows 5%nat ltac:(unfold n; lia)) as E5;
  pose proof (Hrows 6%nat ltac:(unfold n; lia)) as E6;
  pose proof (Hrows 7%nat ltac:(unfold n; lia)) as E7;
  erewrite row_dot_rows in E0, E1, E2, E3, E4, E5, E6, E7 by reflexivity.

Section Correspondences.
Local Open Scope R_scope.


Lemma rect_system_shape (W H : Z) (c0 c1 c2 c3 : Point.t) (rest : list Point.t)
    (a0 : matrix) (b0 : vector) :
  build_system (dstPts W H) (c0 :: c1 :: c2 :: c3 :: rest) = Some (a0, b0) ->
  well_shaped a0 b0.
Proof.
  unfold dstPts. rewrite build_system_four. intros [= <- <-].
  split; [reflexivity|]. split; [reflexivity|].
  intros i Hi. unfold n in Hi.
  do 8 (destruct i as [|i]; [reflexivity|]). lia.
Qed.

Lemma rect_system_nonsingular (W H : Z) (c0 c1 c2 c3 : Point.t)
    (rest : list Point.t) (a0 : matrix) (b0 : vector) :
  (W <> 0)%Z -> (H <> 0)%Z -> ~ collinear c1 c2 c3 ->
  build_system (dstPts W H) (c0 :: c1 :: c2 :: c3 :: rest) = Some (a0, b0) ->
  nonsingular a0.
Proof.
  intros HW HH Hgen. unfold dstPts. rewrite build_system_four. intros [= <- <-].
  apply not_0_IZR in HW, HH.
  intros x Hlen Hker.
  destruct (eight_entries x Hlen) as (h0 & h1 & h2 & h3 & h4 & h5 & h6 & h7 & ->).
  eight_equations Hker.
  cbn [Point.x Point.y] in *. clear Hker Hlen.
  unfold collinear, cross in Hgen.
  assert (H6 : h6 = 0).
  { assert (Hz : h6 * (IZR W * ((Point.x c2 - Point.x c1) * (Point.y c3 - Point.y c1)
                 - (Point.x c3 - Point.x c1) * (Point.y c2 - Point.y c1))) = 0)
      by nsatz.
    apply Rmult_integral in Hz. destruct Hz as [Hz|Hz]; [exact Hz|].
    apply Rmult_integral in Hz. tauto. }
  assert (H7 : h7 = 0).
  { assert (Hz : h7 * (IZR H * ((Point.x c2 - Point.x c1) * (Point.y c3 - Point.y c1)
                 - (Point.x c3 - Point.x c1) * (Point.y c2 - Point.y c1))) = 0)
      by nsatz.
    apply Rmult_integral in Hz. destruct Hz as [Hz|Hz]; [exact Hz|].
    apply Rmult_integral in Hz. tauto. }
  subst h6 h7.
  assert (H2 : h2 = 0) by lra.
  assert (H5 : h5 = 0) by lra.
  subst h2 h5.
  assert (H0 : h0 = 0)
    by (assert (Hz : IZR W * h0 = 0) by lra; apply Rmult_integral in Hz; tauto).
  assert (H3 : h3 = 0)
    by (assert (Hz : IZR W * h3 = 0) by lra; apply Rmult_integral in Hz; tauto).
  assert (H1 : h1 = 0)
    by (assert (Hz : IZR H * h1 = 0) by lra; apply Rmult_integral in Hz; tauto).
  assert (H4 : h4 = 0)
    by (assert (Hz : IZR H * h4 = 0) by lra; apply Rmult_integral in Hz; tauto).
  subst. intros k Hk. unfold n in Hk.
  do 8 (destruct k as [|k]; [reflexivity|]). lia.
Qed.


End Correspondences.

Section RoundTrip.
Local Open Scope R_scope.

Lemma floor_IZR (z : Z) : floor (IZR z) = z.
Proof. unfold floor. symmetry. apply Int_part_spec. lra. Qed.






End RoundTrip.

(** ** What getHomographyMatrix returns *)

Section ReturnedMatrix.
Local Open Scope R_scope.





(** A solution of the system, with [1] appended, satisfies the four
    correspondences, and conversely. *)
Lemma solves_corresponds (s0 s1 s2 s3 d0 d1 d2 d3 : Point.t)
    (srest drest : list Point.t) (a0 : matrix) (b0 : vector) (x : vector) :
  build_system (s0 :: s1 :: s2 :: s3 :: srest) (d0 :: d1 :: d2 :: d3 :: drest)
    = Some (a0, b0) ->
  length x = n ->
  (solves a0 b0 x <->
   corresponds (x ++ [1]) s0 d0 /\ corresponds (x ++ [1]) s1 d1 /\
   corresponds (x ++ [1]) s2 d2 /\ corresponds (x ++ [1]) s3 d3).
Proof.
  rewrite build_system_four. intros [= <- <-] Hlen.
  destruct (eight_entries x Hlen) as (h0 & h1 & h2 & h3 & h4 & h5 & h6 & h7 & ->).
  unfold solves, corresponds. cbn [app lookup_total list_lookup_total].
  split.
  - intros [_ Hsol]. eight_equations Hsol.
    repeat split; nsatz.
  - intros ((A0 & B0) & (A1 & B1) & (A2 & B2) & (A3 & B3)).
    split; [reflexivity|]. intros i Hi. unfold n in Hi.
    do 8 (destruct i as [|i];
          [erewrite row_dot_rows by reflexivity;
           cbn [lookup_total list_lookup_total]; nsatz|]).
    lia.
Qed.







End ReturnedMatrix.

(** ** The pixel loop *)

Section PixelLoop.
Local Open Scope R_scope.

Lemma store_length d idx v : length (store d idx v) = length d.
Proof. unfold store. apply length_insert. Qed.

(** What a store leaves at index [k] depends on the array only through
    its length and its entry [k]. *)
Lemma store_local d d' idx v k :
  length d = length d' -> d !! k = d' !! k ->
  store d idx v !! k = store d' idx v !! k.
Proof.
  intros Hlen Hk. unfold store. rewrite !list_lookup_insert, Hlen, Hk.
  reflexivity.
Qed.

Lemma store_other d idx v k :
  k <> Z.to_nat idx -> store d idx v !! k = d !! k.
Proof. intros Hk. unfold store. apply list_lookup_insert_ne. congruence. Qed.

Lemma seqZ_0_3 : seqZ 0 3 = [0; 1; 2]%Z.
Proof. reflexivity. Qed.

Lemma seqZ_0_4 : seqZ 0 4 = [0; 1; 2; 3]%Z.
Proof. reflexivity. Qed.

Lemma warp_pixel_skipped h img width y d x :
  ~ sampled h img x y -> warp_pixel h img width y d x = d.
Proof.
  intros Hs. unfold warp_pixel. case_decide as Hw; [reflexivity|].
  case_decide as Hb; [|reflexivity]. exfalso. apply Hs. split; assumption.
Qed.

Lemma warp_pixel_sampled h img width y d x :
  sampled h img x y ->
  let srcX := map_u h x y / map_w h x y in
  let srcY := map_v h x y / map_w h x y in
  let dstIdx := ((y * width + x) * 4)%Z in
  warp_pixel h img width y d x
  = store (store (store (store d (dstIdx + 0) (bilinear img srcX srcY 0))
                        (dstIdx + 1) (bilinear img srcX srcY 1))
                 (dstIdx + 2) (bilinear img srcX srcY 2))
          (dstIdx + 3) (Some 255).
Proof.
  intros [Hw Hb]. unfold warp_pixel.
  rewrite decide_False by exact Hw. rewrite decide_True by exact Hb.
  rewrite seqZ_0_3. reflexivity.
Qed.

Lemma warp_pixel_length h img width y d x :
  length (warp_pixel h img width y d x) = length d.
Proof.
  destruct (decide (sampled h img x y)) as [Hs|Hs].
  - rewrite warp_pixel_sampled by exact Hs. cbv zeta.
    rewrite !store_length. reflexivity.
  - rewrite warp_pixel_skipped by exact Hs. reflexivity.
Qed.

Lemma warp_pixel_local h img width y d d' x k :
  length d = length d' -> d !! k = d' !! k ->
  warp_pixel h img width y d x !! k = warp_pixel h img width y d' x !! k.
Proof.
  intros Hlen Hk. destruct (decide (sampled h img x y)) as [Hs|Hs].
  - rewrite !warp_pixel_sampled by exact Hs. cbv zeta.
    repeat (apply store_local; [rewrite ?store_length; exact Hlen|]).
    exact Hk.
  - rewrite !warp_pixel_skipped by exact Hs. exact Hk.
Qed.

(** A pixel writes to its own four slots only. *)
Lemma warp_pixel_frame h img width y d x k :
  (forall c, (0 <= c < 4)%Z -> k <> Z.to_nat ((y * width + x) * 4 + c)) ->
  warp_pixel h img width y d x !! k = d !! k.
Proof.
  intros Hk. destruct (decide (sampled h img x y)) as [Hs|Hs].
  - rewrite warp_pixel_sampled by exact Hs. cbv zeta.
    rewrite !store_other by (apply Hk; lia). reflexivity.
  - rewrite warp_pixel_skipped by exact Hs. reflexivity.
Qed.

End PixelLoop.

Section Loops.
Local Open Scope Z_scope.

Lemma foldl_frame {B : Type} (f : list Z -> B -> list Z) (bs : list B)
    (d : list Z) (k : nat) :
  (forall b d', b ∈ bs -> f d' b !! k = d' !! k) ->
  foldl f d bs !! k = d !! k.
Proof.
  revert d. induction bs as [|b bs IH]; intros d Hf; simpl; [reflexivity|].
  rewrite IH.
  - apply Hf. left.
  - intros b' d' Hb'. apply Hf. right. exact Hb'.
Qed.

Lemma foldl_length {B : Type} (f : list Z -> B -> list Z) (bs : list B)
    (d : list Z) :
  (forall b d', length (f d' b) = length d') ->
  length (foldl f d bs) = length d.
Proof.
  intros Hf. revert d. induction bs as [|b bs IH]; intros d; simpl; [reflexivity|].
  rewrite IH. apply Hf.
Qed.

(** Distinct pixels of a raster of width [W] have distinct slots. *)
Lemma slot_inj (W x y c x' y' c' : Z) :
  0 <= x < W -> 0 <= x' < W -> 0 <= c < 4 -> 0 <= c' < 4 ->
  (y * W + x) * 4 + c = (y' * W + x') * 4 + c' ->
  x = x' /\ y = y' /\ c = c'.
Proof.
  intros Hx Hx' Hc Hc' Heq.
  assert (Hq : y * W + x = y' * W + x' /\ c = c') by lia.
  destruct Hq as [Hq ->].
  assert (Hy : y = y') by nia.
  subst y'. split; [lia|]. split; reflexivity.
Qed.

Lemma slot_nonneg (W x y c : Z) :
  0 <= x < W -> 0 <= y -> 0 <= c -> 0 <= (y * W + x) * 4 + c.
Proof. intros. nia. Qed.

Lemma slot_bound (W H x y c : Z) :
  0 <= x < W -> 0 <= y < H -> 0 <= c < 4 ->
  (y * W + x) * 4 + c < W * H * 4.
Proof. intros. nia. Qed.

Lemma slot_differs (W x y c x' y' c' : Z) :
  0 <= x < W -> 0 <= x' < W -> 0 <= y -> 0 <= y' ->
  0 <= c < 4 -> 0 <= c' < 4 ->
  (x, y) <> (x', y') ->
  Z.to_nat ((y * W + x) * 4 + c) <> Z.to_nat ((y' * W + x') * 4 + c').
Proof.
  intros Hx Hx' Hy Hy' Hc Hc' Hne Heq.
  apply Z2Nat.inj in Heq; [|apply slot_nonneg; lia..].
  destruct (slot_inj W x y c x' y' c') as (-> & -> & _); try assumption.
  apply Hne. reflexivity.
Qed.

Lemma seqZ_split (len k : Z) :
  0 <= k < len -> seqZ 0 len = seqZ 0 k ++ k :: seqZ (k + 1) (len - k - 1).
Proof.
  intros Hk. replace len with (k + (len - k)) at 1 by lia.
  rewrite seqZ_app by lia. f_equal.
  rewrite seqZ_cons by lia.
  replace (0 + k) with k by lia.
  replace (Z.succ k) with (k + 1) by lia.
  replace (Z.pred (len - k)) with (len - k - 1) by lia. reflexivity.
Qed.

Lemma warp_row_length h img width d y :
  length (warp_row h img width d y) = length d.
Proof.
  unfold warp_row. apply foldl_length. intros x d'. apply warp_pixel_length.
Qed.

(** A row of the loop leaves the slots of the other rows as they are. *)
Lemma warp_row_frame h img width d y x' y' c' :
  0 <= x' < width -> 0 <= y -> 0 <= y' -> 0 <= c' < 4 -> y <> y' ->
  warp_row h img width d y !! Z.to_nat ((y' * width + x') * 4 + c')
  = d !! Z.to_nat ((y' * width + x') * 4 + c').
Proof.
  intros Hx' Hy Hy' Hc' Hne. unfold warp_row. apply foldl_frame.
  intros x d' Hx. apply elem_of_seqZ in Hx. apply warp_pixel_frame.
  intros c Hc. apply not_eq_sym. apply slot_differs; try lia. congruence.
Qed.

(** In its own row, a slot of pixel [(x, y)] holds what the body of the
    loop for this pixel leaves there. *)
Lemma warp_row_slot h img width d d1 y x c :
  0 <= x < width -> 0 <= y -> 0 <= c < 4 ->
  length d1 = length d ->
  d1 !! Z.to_nat ((y * width + x) * 4 + c)
    = d !! Z.to_nat ((y * width + x) * 4 + c) ->
  warp_row h img width d1 y !! Z.to_nat ((y * width + x) * 4 + c)
  = warp_pixel h img width y d x !! Z.to_nat ((y * width + x) * 4 + c).
Proof.
  intros Hx Hy Hc Hlen Hk. unfold warp_row.
  rewrite (seqZ_split width x Hx), foldl_app. cbn [foldl].
  rewrite foldl_frame.
  - apply warp_pixel_local.
    + rewrite foldl_length by (intros; apply warp_pixel_length). exact Hlen.
    + rewrite foldl_frame; [exact Hk|].
      intros x' d' Hx'. apply elem_of_seqZ in Hx'. apply warp_pixel_frame.
      intros c' Hc'. apply slot_differs; try lia. intros [=]; lia.
  - intros x' d' Hx'. apply elem_of_seqZ in Hx'. apply warp_pixel_frame.
    intros c' Hc'. apply slot_differs; try lia. intros [=]; lia.
Qed.

(** After the two loops, a slot of pixel [(x, y)] holds what the body of
    the loop for this pixel leaves there. *)
Lemma warp_rows_slot h img width height d x y c :
  0 <= x < width -> 0 <= y < height -> 0 <= c < 4 ->
  foldl (warp_row h img width) d (seqZ 0 height)
    !! Z.to_nat ((y * width + x) * 4 + c)
  = warp_pixel h img width y d x !! Z.to_nat ((y * width + x) * 4 + c).
Proof.
  intros Hx Hy Hc.
  rewrite (seqZ_split height y Hy), foldl_app. cbn [foldl].
  rewrite foldl_frame.
  - apply warp_row_slot; try lia.
    + apply foldl_length. intros. apply warp_row_length.
    + apply foldl_frame. intros y' d' Hy'. apply elem_of_seqZ in Hy'.
      apply warp_row_frame; lia.
  - intros y' d' Hy'. apply elem_of_seqZ in Hy'.
    apply warp_row_frame; lia.
Qed.

End Loops.

Section Pixels.
Local Open Scope R_scope.

Lemma store_same d idx v :
  (Z.to_nat idx < length d)%nat ->
  store d idx v !! Z.to_nat idx = Some (stored v).
Proof. intros Hlt. unfold store. apply list_lookup_insert_eq. exact Hlt. Qed.

Lemma pixel_slots (img : ImageData.t) (x y : Z) :
  pixel img x y
  = [ ImageData.data img !!! Z.to_nat ((y * ImageData.width img + x) * 4 + 0);
      ImageData.data img !!! Z.to_nat ((y * ImageData.width img + x) * 4 + 1);
      ImageData.data img !!! Z.to_nat ((y * ImageData.width img + x) * 4 + 2);
      ImageData.data img !!! Z.to_nat ((y * ImageData.width img + x) * 4 + 3) ].
Proof. unfold pixel. rewrite seqZ_0_4. reflexivity. Qed.

(** What [warpPerspective] resolves with. *)
Lemma warp_resolved img c0 c1 c2 c3 rest dst :
  warpPerspective img (c0 :: c1 :: c2 :: c3 :: rest) = Resolved dst ->
  let W := destWidth c0 c1 c2 c3 in
  let H := destHeight c0 c1 c2 c3 in
  (W <> 0 /\ H <> 0)%Z /\
  dst = ImageData.mk W H
          (warp_loop (getHomographyMatrix (dstPts W H) (c0 :: c1 :: c2 :: c3 :: rest))
             img W H (replicate (Z.to_nat (W * H * 4)) 0%Z)).
Proof.
  unfold warpPerspective. case_decide as Hz; [discriminate|].
  intros [= <-]. split; [lia | reflexivity].
Qed.

(** The destination pixel [(x, y)] after the loops over a raster that is
    transparent at the start. *)
Lemma warp_loop_pixel (h : option (list R)) img (W H x y : Z) :
  (0 <= x < W)%Z -> (0 <= y < H)%Z ->
  pixel (ImageData.mk W H
           (warp_loop h img W H (replicate (Z.to_nat (W * H * 4)) 0%Z))) x y
  = match h with
    | Some h =>
        if decide (sampled h img x y) then
          let srcX := map_u h x y / map_w h x y in
          let srcY := map_v h x y / map_w h x y in
          [ stored (bilinear img srcX srcY 0); stored (bilinear img srcX srcY 1);
            stored (bilinear img srcX srcY 2); 255%Z ]
        else [0; 0; 0; 0]%Z
    | None => [0; 0; 0; 0]%Z
    end.
Proof.
  intros Hx Hy. rewrite pixel_slots. cbn [ImageData.data ImageData.width].
  set (d := replicate (Z.to_nat (W * H * 4)) 0%Z).
  assert (Hslot : forall c, (0 <= c < 4)%Z ->
            (Z.to_nat ((y * W + x) * 4 + c) < length d)%nat).
  { intros c Hc. unfold d. rewrite length_replicate.
    pose proof (slot_bound W H x y c Hx Hy Hc).
    pose proof (slot_nonneg W x y c). lia. }
  assert (Hzero : forall c, (0 <= c < 4)%Z ->
            d !! Z.to_nat ((y * W + x) * 4 + c) = Some 0%Z).
  { intros c Hc. apply lookup_replicate_2. specialize (Hslot c Hc).
    unfold d in Hslot. rewrite length_replicate in Hslot. exact Hslot. }
  assert (Hne : forall c c', (0 <= c < 4)%Z -> (0 <= c' < 4)%Z -> c <> c' ->
            Z.to_nat ((y * W + x) * 4 + c) <> Z.to_nat ((y * W + x) * 4 + c')).
  { intros c c' Hc Hc' Hcc Heq.
    pose proof (slot_nonneg W x y 0). lia. }
  destruct h as [h|]; cbn [warp_loop].
  - assert (Hloop : forall c, (0 <= c < 4)%Z ->
              foldl (warp_row h img W) d (seqZ 0 H) !! Z.to_nat ((y * W + x) * 4 + c)
              = warp_pixel h img W y d x !! Z.to_nat ((y * W + x) * 4 + c))
      by (intros c Hc; apply warp_rows_slot; assumption).
    case_decide as Hs.
    + cbv zeta.
      rewrite (warp_pixel_sampled _ _ _ _ _ _ Hs) in Hloop. cbv zeta in Hloop.
      f_equal; [|f_equal; [|f_equal; [|f_equal]]];
        apply list_lookup_total_correct; rewrite Hloop by lia.
      * rewrite !store_other by (apply Hne; lia). apply store_same.
        apply Hslot; lia.
      * rewrite !store_other by (apply Hne; lia). apply store_same.
        rewrite !store_length. apply Hslot; lia.
      * rewrite !store_other by (apply Hne; lia). apply store_same.
        rewrite !store_length. apply Hslot; lia.
      * rewrite store_same by (rewrite !store_length; apply Hslot; lia).
        f_equal. unfold stored, toUint8Clamp.
        rewrite decide_False by lra. rewrite decide_False by lra.
        replace 255 with (IZR 255) by reflexivity. rewrite floor_IZR.
        rewrite decide_True by lra. reflexivity.
    + rewrite (warp_pixel_skipped _ _ _ _ _ _ Hs) in Hloop.
      f_equal; [|f_equal; [|f_equal; [|f_equal]]];
        apply list_lookup_total_correct; rewrite Hloop by lia; apply Hzero; lia.
  - f_equal; [|f_equal; [|f_equal; [|f_equal]]];
      apply list_lookup_total_correct; apply Hzero; lia.
Qed.



End Pixels.

Section ExactSampling.
Local Open Scope R_scope.

Lemma toUint8Clamp_IZR (v : Z) : (0 <= v <= 255)%Z -> toUint8Clamp (IZR v) = v.
Proof.
  intros [Hlo Hhi]. apply IZR_le in Hlo, Hhi. unfold toUint8Clamp.
  rewrite decide_False by lra. rewrite decide_False by lra.
  cbv zeta. rewrite floor_IZR. rewrite decide_True by lra. reflexivity.
Qed.

Lemma load_in_range (sData : list Z) (idx : Z) :
  (0 <= idx)%Z -> (Z.to_nat idx < length sData)%nat ->
  load sData idx = Some (IZR (sData !!! Z.to_nat idx)).
Proof.
  intros Hlo Hhi. unfold load. rewrite decide_True by exact Hlo.
  destruct (lookup_lt_is_Some_2 sData (Z.to_nat idx) Hhi) as [v Hv].
  rewrite Hv. simpl. rewrite (list_lookup_total_correct _ _ _ Hv). reflexivity.
Qed.

Lemma in_bounds_integer img (i j : Z) :
  in_bounds img (IZR i) (IZR j) <->
  (0 <= i < ImageData.width img - 1)%Z /\ (0 <= j < ImageData.height img - 1)%Z.
Proof.
  unfold in_bounds. split.
  - intros (Hx0 & Hx1 & Hy0 & Hy1).
    apply Rge_le, le_IZR in Hx0, Hy0. apply lt_IZR in Hx1, Hy1. lia.
  - intros [[Hx0 Hx1] [Hy0 Hy1]].
    apply IZR_le in Hx0, Hy0. apply IZR_lt in Hx1, Hy1. lra.
Qed.

(** With zero offsets the blend of channel [c] is the channel of the
    source pixel, and it is stored unchanged. *)
Lemma bilinear_at_integer img (i j c : Z) :
  well_formed img -> in_bounds img (IZR i) (IZR j) -> (0 <= c < 4)%Z ->
  stored (bilinear img (IZR i) (IZR j) c)
  = ImageData.data img !!! Z.to_nat ((j * ImageData.width img + i) * 4 + c).
Proof.
  intros (HW & HH & Hlen & Hbytes) Hin Hc.
  apply in_bounds_integer in Hin. destruct Hin as [Hi Hj].
  unfold bilinear. cbv zeta. rewrite !floor_IZR.
  set (W := ImageData.width img) in *. set (H := ImageData.height img) in *.
  set (sData := ImageData.data img) in *.
  assert (Hrange : forall i' j', (0 <= i' < W)%Z -> (0 <= j' < H)%Z ->
            (0 <= (j' * W + i') * 4 + c)%Z /\
            (Z.to_nat ((j' * W + i') * 4 + c) < length sData)%nat).
  { intros i' j' Hi' Hj'. rewrite Hlen.
    pose proof (slot_nonneg W i' j' c). pose proof (slot_bound W H i' j' c).
    split; [lia|]. apply Z2Nat.inj_lt; lia. }
  destruct (Hrange i j) as [L00 U00]; [lia..|].
  destruct (Hrange (i + 1)%Z j) as [L10 U10]; [lia..|].
  destruct (Hrange i (j + 1)%Z) as [L01 U01]; [lia..|].
  destruct (Hrange (i + 1)%Z (j + 1)%Z) as [L11 U11]; [lia..|].
  rewrite !load_in_range by assumption. cbn [mbind option_bind].
  unfold stored.
  match goal with
  | |- toUint8Clamp ?r = _ =>
      replace r with (IZR (sData !!! Z.to_nat ((j * W + i) * 4 + c))) by ring
  end.
  apply toUint8Clamp_IZR.
  rewrite Forall_forall in Hbytes. apply Hbytes.
  apply list_elem_of_lookup_total_2. exact U00.
Qed.

(** C8.  When the source position of a sampled destination pixel has
    integer coordinates [(i, j)], the R, G and B channels written to the
    destination are those of the source pixel [(i, j)]. *)
Theorem warp_exact_at_integer (img : ImageData.t)
    (c0 c1 c2 c3 : Point.t) (rest : list Point.t) (dst : ImageData.t)
    (h : list R) (x y i j : Z) :
  well_formed img ->
  warpPerspective img (c0 :: c1 :: c2 :: c3 :: rest) = Resolved dst ->
  (0 <= x < ImageData.width dst)%Z -> (0 <= y < ImageData.height dst)%Z ->
  getHomographyMatrix (dstPts (ImageData.width dst) (ImageData.height dst))
    (c0 :: c1 :: c2 :: c3 :: rest) = Some h ->
  sampled h img x y ->
  map_u h x y / map_w h x y = IZR i ->
  map_v h x y / map_w h x y = IZR j ->
  take 3 (pixel dst x y) = take 3 (pixel img i j).
Proof.
  intros Hwf Hres Hx Hy Hh Hs Hi Hj.
  apply warp_resolved in Hres. cbv zeta in Hres. destruct Hres as [_ ->].
  cbn [ImageData.width ImageData.height] in *.
  rewrite warp_loop_pixel by assumption. rewrite Hh.
  rewrite decide_True by exact Hs. cbv zeta.
  destruct Hs as [_ Hb]. rewrite Hi, Hj in *.
  rewrite !bilinear_at_integer by (try assumption; lia).
  rewrite pixel_slots. reflexivity.
Qed.

End ExactSampling.
(** ** The raster that warpPerspective resolves with *)

Section Rounding.
Local Open Scope R_scope.

Lemma floor_bounds (r : R) : IZR (floor r) <= r < IZR (floor r) + 1.
Proof. unfold floor. destruct (base_Int_part r) as [H1 H2]. lra. Qed.

Lemma floor_nonneg (r : R) : 0 <= r -> (0 <= floor r)%Z.
Proof.
  intros Hr. destruct (floor_bounds r) as [_ Hup].
  assert (Hlt : IZR (-1) < IZR (floor r)) by lra.
  apply lt_IZR in Hlt. lia.
Qed.

Lemma floor_zero (r : R) : 0 <= r -> floor r = 0%Z <-> r < 1.
Proof.
  intros Hr. destruct (floor_bounds r) as [Hlow Hup]. split.
  - intros Hz. rewrite Hz in Hup. lra.
  - intros Hlt. pose proof (floor_nonneg r Hr) as Hge.
    assert (Hf : IZR (floor r) < IZR 1) by lra.
    apply lt_IZR in Hf. lia.
Qed.

Lemma Rmax_lt_1 (a b : R) : Rmax a b < 1 <-> a < 1 /\ b < 1.
Proof.
  unfold Rmax. destruct (Rle_dec a b); split; intros; lra.
Qed.

(** A number between two byte values is stored as a byte between
    them. *)
Lemma toUint8Clamp_between (lo hi : Z) (r : R) :
  (0 <= lo)%Z -> (hi <= 255)%Z -> IZR lo <= r <= IZR hi ->
  (lo <= toUint8Clamp r <= hi)%Z.
Proof.
  intros Hlo Hhi [H1 H2]. apply IZR_le in Hlo, Hhi.
  destruct (floor_bounds r) as [F1 F2].
  assert (Hf1 : (lo <= floor r)%Z).
  { assert (Hlt : IZR lo < IZR (floor r + 1)) by (rewrite plus_IZR; lra).
    apply lt_IZR in Hlt. lia. }
  assert (Hf2 : (floor r <= hi)%Z) by (apply le_IZR; lra).
  assert (Hf3 : IZR (floor r) < r -> (floor r + 1 <= hi)%Z).
  { intros Hlt. assert (Hlt' : IZR (floor r) < IZR hi) by lra.
    apply lt_IZR in Hlt'. lia. }
  unfold toUint8Clamp.
  rewrite decide_False by lra. rewrite decide_False by lra. cbv zeta.
  destruct (decide (r - IZR (floor r) < 1 / 2)) as [Ha|Ha]; [lia|].
  destruct (decide (r - IZR (floor r) > 1 / 2)) as [Hb|Hb];
    [split; [lia | apply Hf3; lra]|].
  destruct (Z.even (floor r)); [lia|].
  split; [lia | apply Hf3; lra].
Qed.

Lemma toUint8Clamp_range (r : R) : (0 <= toUint8Clamp r <= 255)%Z.
Proof.
  destruct (decide (r < 0)) as [Hneg|Hneg];
    [unfold toUint8Clamp; rewrite decide_True by exact Hneg; lia|].
  destruct (decide (r > 255)) as [Hbig|Hbig];
    [unfold toUint8Clamp; rewrite decide_False by exact Hneg;
     rewrite decide_True by exact Hbig; lia|].
  apply toUint8Clamp_between; [lia | lia | lra].
Qed.

Lemma stored_range (v : option R) : (0 <= stored v <= 255)%Z.
Proof. destruct v as [r|]; [apply toUint8Clamp_range | simpl; lia]. Qed.

Lemma convex_between (a b t lo hi : R) :
  lo <= a <= hi -> lo <= b <= hi -> 0 <= t <= 1 ->
  lo <= a * (1 - t) + b * t <= hi.
Proof. intros Ha Hb Ht. split; nra. Qed.

End Rounding.

Section Raster.
Local Open Scope R_scope.

Lemma foldl_invariant {A B : Type} (P : A -> Prop) (f : A -> B -> A)
    (bs : list B) (a : A) :
  (forall a' b, P a' -> P (f a' b)) -> P a -> P (foldl f a bs).
Proof.
  intros Hstep. revert a. induction bs as [|b bs IH]; intros a Ha; [exact Ha|].
  cbn [foldl]. apply IH. apply Hstep. exact Ha.
Qed.

Lemma store_bytes (d : list Z) (idx : Z) (v : option R) :
  Forall (fun v => 0 <= v <= 255)%Z d ->
  Forall (fun v => 0 <= v <= 255)%Z (store d idx v).
Proof.
  intros Hd. unfold store. apply Forall_insert; [exact Hd | apply stored_range].
Qed.

Lemma warp_pixel_bytes h img width y (d : list Z) x :
  Forall (fun v => 0 <= v <= 255)%Z d ->
  Forall (fun v => 0 <= v <= 255)%Z (warp_pixel h img width y d x).
Proof.
  intros Hd. unfold warp_pixel. cbv zeta.
  destruct (decide (map_w h x y = 0)); [exact Hd|].
  destruct (decide (in_bounds img _ _)); [|exact Hd].
  rewrite seqZ_0_3. cbn [foldl]. repeat apply store_bytes. exact Hd.
Qed.

Lemma warp_loop_bytes h img width height (d : list Z) :
  Forall (fun v => 0 <= v <= 255)%Z d ->
  Forall (fun v => 0 <= v <= 255)%Z (warp_loop h img width height d).
Proof.
  intros Hd. destruct h as [h|]; [|exact Hd]. cbn [warp_loop].
  apply foldl_invariant; [|exact Hd].
  intros d' y Hd'. unfold warp_row.
  apply foldl_invariant; [|exact Hd'].
  intros d'' x Hd''. apply warp_pixel_bytes. exact Hd''.
Qed.

Lemma warp_loop_length h img width height (d : list Z) :
  length (warp_loop h img width height d) = length d.
Proof.
  destruct h as [h|]; [|reflexivity]. cbn [warp_loop].
  apply foldl_length. intros y d'. apply warp_row_length.
Qed.

Lemma destWidth_nonneg c0 c1 c2 c3 : (0 <= destWidth c0 c1 c2 c3)%Z.
Proof.
  apply floor_nonneg. eapply Rle_trans; [|apply Rmax_l].
  unfold topWidth. apply sqrt_pos.
Qed.

Lemma destHeight_nonneg c0 c1 c2 c3 : (0 <= destHeight c0 c1 c2 c3)%Z.
Proof.
  apply floor_nonneg. eapply Rle_trans; [|apply Rmax_l].
  unfold leftHeight. apply sqrt_pos.
Qed.

Lemma destWidth_zero c0 c1 c2 c3 :
  destWidth c0 c1 c2 c3 = 0%Z <-> topWidth c0 c1 < 1 /\ bottomWidth c2 c3 < 1.
Proof.
  unfold destWidth. rewrite floor_zero; [apply Rmax_lt_1|].
  eapply Rle_trans; [|apply Rmax_l]. unfold topWidth. apply sqrt_pos.
Qed.

Lemma destHeight_zero c0 c1 c2 c3 :
  destHeight c0 c1 c2 c3 = 0%Z <->
  leftHeight c0 c3 < 1 /\ rightHeight c1 c2 < 1.
Proof.
  unfold destHeight. rewrite floor_zero; [apply Rmax_lt_1|].
  eapply Rle_trans; [|apply Rmax_l]. unfold leftHeight. apply sqrt_pos.
Qed.

(** X4.  With four corners or more, [warpPerspective] ends with an
    exception instead of a raster exactly when the top and the bottom
    edge of the quadrilateral are both shorter than one pixel, or the
    left and the right edge are. *)
Theorem warpPerspective_throws (img : ImageData.t) (c0 c1 c2 c3 : Point.t)
    (rest : list Point.t) :
  warpPerspective img (c0 :: c1 :: c2 :: c3 :: rest) = Thrown <->
  (topWidth c0 c1 < 1 /\ bottomWidth c2 c3 < 1) \/
  (leftHeight c0 c3 < 1 /\ rightHeight c1 c2 < 1).
Proof.
  rewrite <- destWidth_zero, <- destHeight_zero.
  unfold warpPerspective. cbv zeta.
  destruct (decide (destWidth c0 c1 c2 c3 = 0 \/ destHeight c0 c1 c2 c3 = 0)%Z)
    as [Hz|Hz].
  - split; [intros _; exact Hz | reflexivity].
  - split; [discriminate | intros Hz'; contradiction].
Qed.

(** X5.  A raster that [warpPerspective] resolves with is a valid image:
    both sides are positive, the data has four bytes for each pixel, and
    every byte is between 0 and 255. *)
Theorem warpPerspective_well_formed (img : ImageData.t)
    (corners : list Point.t) (dst : ImageData.t) :
  warpPerspective img corners = Resolved dst -> well_formed dst.
Proof.
  intros Hres.
  destruct corners as [|c0 [|c1 [|c2 [|c3 rest]]]]; try discriminate.
  apply warp_resolved in Hres. cbv zeta in Hres.
  destruct Hres as [[HW HH] ->].
  pose proof (destWidth_nonneg c0 c1 c2 c3).
  pose proof (destHeight_nonneg c0 c1 c2 c3).
  unfold well_formed. cbn [ImageData.width ImageData.height ImageData.data].
  split; [lia|]. split; [lia|]. split.
  - rewrite warp_loop_length, length_replicate. f_equal. lia.
  - apply warp_loop_bytes. apply Forall_replicate. lia.
Qed.

(** X6.  Every pixel of the resolved raster is transparent black or
    opaque, and it is opaque exactly when a finite matrix was computed and
    the source position of the pixel passes the bounds check. *)
Theorem warp_pixel_opaque_iff_sampled (img : ImageData.t)
    (c0 c1 c2 c3 : Point.t) (rest : list Point.t) (dst : ImageData.t)
    (x y : Z) :
  warpPerspective img (c0 :: c1 :: c2 :: c3 :: rest) = Resolved dst ->
  (0 <= x < ImageData.width dst)%Z -> (0 <= y < ImageData.height dst)%Z ->
  (pixel dst x y = [0; 0; 0; 0]%Z \/ pixel dst x y !! 3%nat = Some 255%Z) /\
  (pixel dst x y !! 3%nat = Some 255%Z <->
   exists h,
     getHomographyMatrix (dstPts (ImageData.width dst) (ImageData.height dst))
       (c0 :: c1 :: c2 :: c3 :: rest) = Some h /\
     sampled h img x y).
Proof.
  intros Hres Hx Hy.
  apply warp_resolved in Hres. cbv zeta in Hres. destruct Hres as [_ ->].
  cbn [ImageData.width ImageData.height] in *.
  rewrite warp_loop_pixel by assumption.
  destruct (getHomographyMatrix _ _) as [h|].
  - destruct (decide (sampled h img x y)) as [Hs|Hs]; cbv zeta.
    + split; [right; reflexivity|].
      split; [intros _; exists h; split; [reflexivity | exact Hs] | reflexivity].
    + split; [left; reflexivity|].
      split; [discriminate|].
      intros (h' & [= <-] & Hs'). contradiction.
  - split; [left; reflexivity|].
    split; [discriminate | intros (h' & Hh' & _); discriminate].
Qed.

(** X7.  Inside the bounds check the four reads of the blend are inside
    the source array, and the byte stored for a channel lies between the
    smallest and the largest of the four source bytes it is blended
    from. *)
Theorem bilinear_within_neighbours (img : ImageData.t) (srcX srcY : R)
    (c lo hi : Z) :
  well_formed img -> in_bounds img srcX srcY -> (0 <= c < 4)%Z ->
  Forall (fun v => lo <= v <= hi)%Z (neighbours img srcX srcY c) ->
  is_Some (bilinear img srcX srcY c) /\
  (lo <= stored (bilinear img srcX srcY c) <= hi)%Z.
Proof.
  intros (HW & HH & Hlen & Hbytes) (Hx0 & Hx1 & Hy0 & Hy1) Hc Hnb.
  unfold neighbours, channel in Hnb. cbv zeta in Hnb.
  unfold bilinear. cbv zeta.
  set (W := ImageData.width img) in *. set (H := ImageData.height img) in *.
  set (sData := ImageData.data img) in *.
  destruct (floor_bounds srcX) as [FX1 FX2].
  destruct (floor_bounds srcY) as [FY1 FY2].
  set (x0 := floor srcX) in *. set (y0 := floor srcY) in *.
  assert (Hx : (0 <= x0 < W - 1)%Z).
  { split; [apply floor_nonneg; lra|]. apply lt_IZR. lra. }
  assert (Hy : (0 <= y0 < H - 1)%Z).
  { split; [apply floor_nonneg; lra|]. apply lt_IZR. lra. }
  assert (Hrange : forall i' j', (0 <= i' < W)%Z -> (0 <= j' < H)%Z ->
            (0 <= (j' * W + i') * 4 + c)%Z /\
            (Z.to_nat ((j' * W + i') * 4 + c) < length sData)%nat).
  { intros i' j' Hi' Hj'. rewrite Hlen.
    pose proof (slot_nonneg W i' j' c). pose proof (slot_bound W H i' j' c).
    split; [lia|]. apply Z2Nat.inj_lt; lia. }
  destruct (Hrange x0 y0) as [L00 U00]; [lia..|].
  destruct (Hrange (x0 + 1)%Z y0) as [L10 U10]; [lia..|].
  destruct (Hrange x0 (y0 + 1)%Z) as [L01 U01]; [lia..|].
  destruct (Hrange (x0 + 1)%Z (y0 + 1)%Z) as [L11 U11]; [lia..|].
  rewrite !load_in_range by assumption. cbn [mbind option_bind].
  split; [eexists; reflexivity|].
  rewrite Forall_forall in Hbytes.
  pose proof (Hbytes _ (list_elem_of_lookup_total_2 _ _ U00)) as B00.
  pose proof (Hbytes _ (list_elem_of_lookup_total_2 _ _ U10)) as B10.
  pose proof (Hbytes _ (list_elem_of_lookup_total_2 _ _ U01)) as B01.
  pose proof (Hbytes _ (list_elem_of_lookup_total_2 _ _ U11)) as B11.
  apply Forall_cons in Hnb. destruct Hnb as [N00 Hnb].
  apply Forall_cons in Hnb. destruct Hnb as [N10 Hnb].
  apply Forall_cons in Hnb. destruct Hnb as [N01 Hnb].
  apply Forall_cons in Hnb. destruct Hnb as [N11 _].
  cbv beta in B00, B10, B01, B11.
  set (v00 := sData !!! Z.to_nat ((y0 * W + x0) * 4 + c)) in *.
  set (v10 := sData !!! Z.to_nat ((y0 * W + (x0 + 1)) * 4 + c)) in *.
  set (v01 := sData !!! Z.to_nat (((y0 + 1) * W + x0) * 4 + c)) in *.
  set (v11 := sData !!! Z.to_nat (((y0 + 1) * W + (x0 + 1)) * 4 + c)) in *.
  unfold stored.
  enough (Hb : (Z.max lo 0 <= toUint8Clamp
                  ((IZR v00 * (1 - (srcX - IZR x0)) + IZR v10 * (srcX - IZR x0))
                     * (1 - (srcY - IZR y0))
                   + (IZR v01 * (1 - (srcX - IZR x0)) + IZR v11 * (srcX - IZR x0))
                     * (srcY - IZR y0))
                <= Z.min hi 255)%Z) by lia.
  assert (In_range : forall v, (lo <= v <= hi)%Z -> (0 <= v <= 255)%Z ->
            IZR (Z.max lo 0) <= IZR v <= IZR (Z.min hi 255))
    by (intros v ? ?; split; apply IZR_le; lia).
  apply toUint8Clamp_between; [lia | lia |].
  apply convex_between; [| | lra].
  - apply convex_between; [apply In_range; assumption.. | lra].
  - apply convex_between; [apply In_range; assumption.. | lra].
Qed.

End Raster.

(** ** The identity case *)

Section Identity.
Local Open Scope R_scope.

Lemma sqrt_side (w e : R) : 0 <= w -> sqrt ((w - 0) ^ 2 + (e - e) ^ 2) = w.
Proof.
  intros Hw. replace ((w - 0) ^ 2 + (e - e) ^ 2) with (w ^ 2) by ring.
  apply sqrt_pow2. exact Hw.
Qed.

(** The destination of the image's own corners has the size of the
    image. *)
Lemma own_corners_size (W H : Z) :
  (0 < W)%Z -> (0 < H)%Z ->
  let c0 := Point.mk 0 0 in
  let c1 := Point.mk (IZR W) 0 in
  let c2 := Point.mk (IZR W) (IZR H) in
  let c3 := Point.mk 0 (IZR H) in
  destWidth c0 c1 c2 c3 = W /\ destHeight c0 c1 c2 c3 = H.
Proof.
  intros HW HH. apply IZR_lt in HW, HH. cbv zeta.
  unfold destWidth, destHeight, topWidth, bottomWidth, leftHeight, rightHeight.
  cbn [Point.x Point.y].
  replace (sqrt ((IZR W - 0) ^ 2 + (0 - 0) ^ 2)) with (IZR W)
    by (symmetry; apply sqrt_side; lra).
  replace (sqrt ((IZR W - 0) ^ 2 + (IZR H - IZR H) ^ 2)) with (IZR W)
    by (symmetry; apply sqrt_side; lra).
  replace (sqrt ((0 - 0) ^ 2 + (IZR H - 0) ^ 2)) with (IZR H)
    by (symmetry; rewrite Rplus_comm; apply sqrt_side; lra).
  replace (sqrt ((IZR W - IZR W) ^ 2 + (IZR H - 0) ^ 2)) with (IZR H)
    by (symmetry; rewrite Rplus_comm; apply sqrt_side; lra).
  rewrite !Rmax_left by lra. rewrite !floor_IZR. split; reflexivity.
Qed.

(** The homography of a rectangle onto itself is the identity matrix. *)
Lemma identity_matrix (W H : Z) :
  (0 < W)%Z -> (0 < H)%Z ->
  getHomographyMatrix (dstPts W H) (dstPts W H)
  = Some [1; 0; 0; 0; 1; 0; 0; 0; 1].
Proof.
  intros HW HH.
  destruct (build_system (dstPts W H) (dstPts W H)) as [[a0 b0]|] eqn:Hsys;
    [|discriminate].
  pose proof (rect_system_shape _ _ _ _ _ _ _ _ _ Hsys) as Hshape.
  assert (Hns : nonsingular a0).
  { assert (HW0 : (W <> 0)%Z) by lia. assert (HH0 : (H <> 0)%Z) by lia.
    refine (rect_system_nonsingular W H _ _ _ _ _ _ _ HW0 HH0 _ Hsys).
    unfold collinear, cross. cbn [Point.x Point.y].
    apply IZR_lt in HW, HH. nra. }
  destruct (gauss_solves a0 b0 Hshape Hns) as (a & b & Helim & [Hlen Hsol]).
  unfold getHomographyMatrix. rewrite Hsys. cbn [mbind option_bind].
  rewrite Helim. cbn [mbind option_bind].
  generalize dependent (back_substitute a b). intros x Hlen Hsol.
  enough (Hx : x = [1; 0; 0; 0; 1; 0; 0; 0])
    by (rewrite Hx; reflexivity).
  unfold dstPts in Hsys. rewrite build_system_four in Hsys.
  injection Hsys as <- <-.
  destruct (eight_entries _ Hlen) as (h0 & h1 & h2 & h3 & h4 & h5 & h6 & h7 & ->).
  eight_equations Hsol.
  cbn [Point.x Point.y lookup_total list_lookup_total] in *. clear Hsol Hlen.
  assert (HWr : IZR W <> 0) by (apply not_0_IZR; lia).
  assert (HHr : IZR H <> 0) by (apply not_0_IZR; lia).
  set (Wr := IZR W) in *. set (Hr := IZR H) in *.
  assert (H6 : h6 = 0).
  { assert (Hz : h6 * (Wr * (Wr * Hr)) = 0) by nsatz.
    apply Rmult_integral in Hz. destruct Hz as [Hz|Hz]; [exact Hz|].
    apply Rmult_integral in Hz. destruct Hz as [Hz|Hz]; [contradiction|].
    apply Rmult_integral in Hz. tauto. }
  assert (H7 : h7 = 0).
  { assert (Hz : h7 * (Hr * (Wr * Hr)) = 0) by nsatz.
    apply Rmult_integral in Hz. destruct Hz as [Hz|Hz]; [exact Hz|].
    apply Rmult_integral in Hz. destruct Hz as [Hz|Hz]; [contradiction|].
    apply Rmult_integral in Hz. tauto. }
  subst h6 h7.
  assert (H2 : h2 = 0) by lra.
  assert (H5 : h5 = 0) by lra.
  subst h2 h5.
  assert (H0 : h0 = 1)
    by (assert (Hz : Wr * (h0 - 1) = 0) by lra; apply Rmult_integral in Hz;
        destruct Hz; [contradiction | lra]).
  assert (H3 : h3 = 0)
    by (assert (Hz : Wr * h3 = 0) by lra; apply Rmult_integral in Hz; tauto).
  assert (H1 : h1 = 0)
    by (assert (Hz : Hr * h1 = 0) by lra; apply Rmult_integral in Hz; tauto).
  assert (H4 : h4 = 1)
    by (assert (Hz : Hr * (h4 - 1) = 0) by lra; apply Rmult_integral in Hz;
        destruct Hz; [contradiction | lra]).
  subst. reflexivity.
Qed.

End Identity.

Section IdentityWarp.
Local Open Scope R_scope.

Lemma identity_map (x y : Z) :
  let h := [1; 0; 0; 0; 1; 0; 0; 0; 1] in
  map_w h x y <> 0 /\
  map_u h x y / map_w h x y = IZR x /\
  map_v h x y / map_w h x y = IZR y.
Proof.
  unfold map_u, map_v, map_w. cbn [lookup_total list_lookup_total].
  replace (0 * IZR x + 0 * IZR y + 1) with 1 by ring.
  split; [lra|]. split; field.
Qed.

Lemma identity_sampled img (x y : Z) :
  sampled [1; 0; 0; 0; 1; 0; 0; 0; 1] img x y <->
  (0 <= x < ImageData.width img - 1)%Z /\ (0 <= y < ImageData.height img - 1)%Z.
Proof.
  destruct (identity_map x y) as (Hw & Hu & Hv). cbv zeta in *.
  unfold sampled. rewrite Hu, Hv, in_bounds_integer. tauto.
Qed.

(** What [warpPerspective] resolves with on the image's own corners. *)
Lemma identity_warp (img : ImageData.t) :
  well_formed img ->
  let W := ImageData.width img in
  let H := ImageData.height img in
  warpPerspective img (own_corners img)
  = Resolved (ImageData.mk W H
                (warp_loop (Some [1; 0; 0; 0; 1; 0; 0; 0; 1]) img W H
                   (replicate (Z.to_nat (W * H * 4)) 0%Z))).
Proof.
  intros (HW & HH & _) W H. unfold own_corners, warpPerspective.
  destruct (own_corners_size W H HW HH) as [HdW HdH]. cbv zeta in HdW, HdH.
  fold W H. rewrite HdW, HdH.
  rewrite decide_False by lia.
  change (getHomographyMatrix (dstPts W H) _)
    with (getHomographyMatrix (dstPts W H) (dstPts W H)).
  rewrite identity_matrix by assumption. reflexivity.
Qed.

(** The pixels of the identity warp. *)
Lemma identity_pixel (img : ImageData.t) (x y : Z) :
  well_formed img ->
  let W := ImageData.width img in
  let H := ImageData.height img in
  (0 <= x < W)%Z -> (0 <= y < H)%Z ->
  pixel (ImageData.mk W H
           (warp_loop (Some [1; 0; 0; 0; 1; 0; 0; 0; 1]) img W H
              (replicate (Z.to_nat (W * H * 4)) 0%Z))) x y
  = if decide (x < W - 1 /\ y < H - 1)%Z
    then take 3 (pixel img x y) ++ [255%Z]
    else [0; 0; 0; 0]%Z.
Proof.
  intros Hwf W H Hx Hy. rewrite warp_loop_pixel by assumption.
  destruct (identity_map x y) as (Hw & Hu & Hv). cbv zeta in Hw, Hu, Hv.
  unfold W, H in *. clear W H.
  destruct (decide (x < ImageData.width img - 1
                    /\ y < ImageData.height img - 1)%Z) as [Hin|Hin].
  - assert (Hs : sampled [1; 0; 0; 0; 1; 0; 0; 0; 1] img x y)
      by (apply (proj2 (identity_sampled img x y)); lia).
    rewrite decide_True by exact Hs. cbv zeta. rewrite Hu, Hv.
    destruct Hs as [_ Hb]. rewrite Hu, Hv in Hb.
    rewrite !bilinear_at_integer by (try assumption; lia).
    rewrite pixel_slots. reflexivity.
  - rewrite decide_False; [reflexivity|].
    rewrite identity_sampled. lia.
Qed.

(** C2, the failing case.  In the identity warp of a white, opaque image
    of 2 by 2 pixels the destination pixel (1, 1) is transparent black:
    its source position (1, 1) does not pass the bounds check
    [srcX < img.width - 1]. *)
Lemma identity_last_pixel_transparent :
  let img := ImageData.mk 2 2 (replicate 16 255%Z) in
  well_formed img /\
  exists dst,
    warpPerspective img (own_corners img) = Resolved dst /\
    pixel dst 1 1 = [0; 0; 0; 0]%Z /\
    pixel img 1 1 = [255; 255; 255; 255]%Z.
Proof.
  intros img.
  assert (Hwf : well_formed img).
  { split; [cbn; lia|]. split; [cbn; lia|]. split; [reflexivity|].
    apply Forall_replicate. lia. }
  split; [exact Hwf|]. eexists. split; [apply identity_warp; exact Hwf|].
  split; [|reflexivity].
  rewrite (identity_pixel img 1 1 Hwf) by (cbn; lia).
  apply decide_False. cbn. lia.
Qed.

(** C2, as amended.  For the image's own corners, in order,
    [warpPerspective] resolves with a raster of the size of the source;
    every destination pixel outside the last column and the last row has
    the R, G and B channels of the source pixel at the same position and
    alpha 255; the pixels of the last column and of the last row are
    transparent. *)
Theorem identity_warp_copies_interior (img : ImageData.t) :
  well_formed img ->
  exists dst,
    warpPerspective img (own_corners img) = Resolved dst /\
    ImageData.width dst = ImageData.width img /\
    ImageData.height dst = ImageData.height img /\
    forall x y,
      (0 <= x < ImageData.width img)%Z -> (0 <= y < ImageData.height img)%Z ->
      ((x < ImageData.width img - 1 /\ y < ImageData.height img - 1)%Z ->
       pixel dst x y = take 3 (pixel img x y) ++ [255%Z]) /\
      ((x = ImageData.width img - 1 \/ y = ImageData.height img - 1)%Z ->
       pixel dst x y = [0; 0; 0; 0]%Z).
Proof.
  intros Hwf. eexists. split; [apply identity_warp; exact Hwf|].
  split; [reflexivity|]. split; [reflexivity|].
  intros x y Hx Hy. rewrite (identity_pixel img x y Hwf Hx Hy). split.
  - intros Hin. rewrite decide_True by exact Hin. reflexivity.
  - intros Hlast. rewrite decide_False by lia. reflexivity.
Qed.

Lemma white_2x2_well_formed :
  well_formed (ImageData.mk 2 2 (replicate 16 255%Z)).
Proof.
  split; [cbn; lia|]. split; [cbn; lia|]. split; [reflexivity|].
  apply Forall_replicate. lia.
Defined.

Lemma identity_warp_copies_interior_witness :
  let img := ImageData.mk 2 2 (replicate 16 255%Z) in
  exists dst,
    warpPerspective img (own_corners img) = Resolved dst /\
    ImageData.width dst = ImageData.width img /\
    ImageData.height dst = ImageData.height img /\
    forall x y,
      (0 <= x < ImageData.width img)%Z -> (0 <= y < ImageData.height img)%Z ->
      ((x < ImageData.width img - 1 /\ y < ImageData.height img - 1)%Z ->
       pixel dst x y = take 3 (pixel img x y) ++ [255%Z]) /\
      ((x = ImageData.width img - 1 \/ y = ImageData.height img - 1)%Z ->
       pixel dst x y = [0; 0; 0; 0]%Z).
Proof.
  apply (identity_warp_copies_interior (ImageData.mk 2 2 (replicate 16 255%Z))).
  exact white_2x2_well_formed.
Defined.

End IdentityWarp.

Section Witnesses.
Local Open Scope R_scope.


Lemma warp_exact_at_integer_witness :
  let img := ImageData.mk 2 2 (replicate 16 255%Z) in
  let dst :=
    ImageData.mk 2 2
      (warp_loop (Some [1; 0; 0; 0; 1; 0; 0; 0; 1]) img 2 2
         (replicate (Z.to_nat (2 * 2 * 4)) 0%Z)) in
  take 3 (pixel dst 0 0) = take 3 (pixel img 0 0).
Proof.
  apply (warp_exact_at_integer (ImageData.mk 2 2 (replicate 16 255%Z))
           (Point.mk 0 0) (Point.mk 2 0) (Point.mk 2 2) (Point.mk 0 2) [] _
           [1; 0; 0; 0; 1; 0; 0; 0; 1] 0 0 0 0).
  - exact white_2x2_well_formed.
  - apply (identity_warp (ImageData.mk 2 2 (replicate 16 255%Z))).
    exact white_2x2_well_formed.
  - cbn. lia.
  - cbn. lia.
  - apply (identity_matrix 2 2); lia.
  - apply identity_sampled. cbn. lia.
  - apply (identity_map 0 0).
  - apply (identity_map 0 0).
Defined.

End Witnesses.
(** ** Parallelograms and axis-aligned crops *)

Section Parallelogram.
Local Open Scope R_scope.

(** A vector that satisfies the four correspondences of a rectangle with
    a quadrilateral is what [getHomographyMatrix] returns. *)
Lemma rect_matrix_is (W H : Z) (c0 c1 c2 c3 : Point.t) (rest : list Point.t)
    (x : vector) :
  (W <> 0)%Z -> (H <> 0)%Z -> ~ collinear c1 c2 c3 ->
  length x = n ->
  corresponds (x ++ [1]) (Point.mk 0 0) c0 ->
  corresponds (x ++ [1]) (Point.mk (IZR W) 0) c1 ->
  corresponds (x ++ [1]) (Point.mk (IZR W) (IZR H)) c2 ->
  corresponds (x ++ [1]) (Point.mk 0 (IZR H)) c3 ->
  getHomographyMatrix (dstPts W H) (c0 :: c1 :: c2 :: c3 :: rest)
  = Some (x ++ [1]).
Proof.
  intros HW HH Hc Hlen C0 C1 C2 C3.
  destruct (build_system (dstPts W H) (c0 :: c1 :: c2 :: c3 :: rest))
    as [[a0 b0]|] eqn:Hsys;
    [|unfold dstPts in Hsys; rewrite build_system_four in Hsys; discriminate].
  pose proof (rect_system_shape _ _ _ _ _ _ _ _ _ Hsys) as Hshape.
  pose proof (rect_system_nonsingular _ _ _ _ _ _ _ _ _ HW HH Hc Hsys) as Hns.
  destruct (gauss_solves a0 b0 Hshape Hns) as (a & b & Helim & Hsol).
  unfold getHomographyMatrix. rewrite Hsys. cbn [mbind option_bind].
  rewrite Helim. cbn [mbind option_bind].
  replace x with (back_substitute a b); [reflexivity|].
  apply (solution_unique a0 b0); [exact Hns | exact Hsol |].
  unfold dstPts in Hsys.
  apply (solves_corresponds _ _ _ _ _ _ _ _ _ _ _ _ _ Hsys Hlen). tauto.
Qed.


End Parallelogram.

Section Crop.
Local Open Scope R_scope.

Lemma sqrt_square_of (a b w : R) :
  0 <= w -> a ^ 2 + b ^ 2 = w ^ 2 -> sqrt (a ^ 2 + b ^ 2) = w.
Proof. intros Hw ->. apply sqrt_pow2. exact Hw. Qed.

Lemma crop_size (x0 y0 W H : Z) :
  (0 < W)%Z -> (0 < H)%Z ->
  let c0 := Point.mk (IZR x0) (IZR y0) in
  let c1 := Point.mk (IZR (x0 + W)) (IZR y0) in
  let c2 := Point.mk (IZR (x0 + W)) (IZR (y0 + H)) in
  let c3 := Point.mk (IZR x0) (IZR (y0 + H)) in
  destWidth c0 c1 c2 c3 = W /\ destHeight c0 c1 c2 c3 = H.
Proof.
  intros HW HH. apply IZR_lt in HW, HH. cbv zeta.
  unfold destWidth, destHeight, topWidth, bottomWidth, leftHeight, rightHeight.
  cbn [Point.x Point.y].
  rewrite (sqrt_square_of _ _ (IZR W)) by (rewrite ?plus_IZR; try ring; lra).
  rewrite (sqrt_square_of _ _ (IZR W)) by (rewrite ?plus_IZR; try ring; lra).
  rewrite (sqrt_square_of _ _ (IZR H)) by (rewrite ?plus_IZR; try ring; lra).
  rewrite (sqrt_square_of _ _ (IZR H)) by (rewrite ?plus_IZR; try ring; lra).
  rewrite !Rmax_left by lra. rewrite !floor_IZR. split; reflexivity.
Qed.

(** The homography of an axis-aligned crop is a translation. *)
Lemma crop_matrix (x0 y0 W H : Z) :
  (0 < W)%Z -> (0 < H)%Z ->
  getHomographyMatrix (dstPts W H) (crop_corners x0 y0 W H)
  = Some [1; 0; IZR x0; 0; 1; IZR y0; 0; 0; 1].
Proof.
  intros HW HH. unfold crop_corners.
  apply (rect_matrix_is W H _ _ _ _ [] [1; 0; IZR x0; 0; 1; IZR y0; 0; 0]);
    try lia; try reflexivity.
  - unfold collinear, cross. cbn [Point.x Point.y]. rewrite !plus_IZR.
    apply IZR_lt in HW, HH. nra.
  - unfold corresponds.
    cbn [app lookup_total list_lookup_total Point.x Point.y]. split; ring.
  - unfold corresponds.
    cbn [app lookup_total list_lookup_total Point.x Point.y].
    rewrite !plus_IZR. split; ring.
  - unfold corresponds.
    cbn [app lookup_total list_lookup_total Point.x Point.y].
    rewrite !plus_IZR. split; ring.
  - unfold corresponds.
    cbn [app lookup_total list_lookup_total Point.x Point.y].
    rewrite !plus_IZR. split; ring.
Qed.

Lemma translation_map (x0 y0 x y : Z) :
  let h := [1; 0; IZR x0; 0; 1; IZR y0; 0; 0; 1] in
  map_w h x y <> 0 /\
  map_u h x y / map_w h x y = IZR (x0 + x) /\
  map_v h x y / map_w h x y = IZR (y0 + y).
Proof.
  unfold map_u, map_v, map_w. cbn [lookup_total list_lookup_total].
  replace (0 * IZR x + 0 * IZR y + 1) with 1 by ring.
  rewrite !plus_IZR. split; [lra|]. split; field.
Qed.

(** X9.  Warping an axis-aligned rectangle whose corners are at integer
    positions is a crop: the raster has the size of the rectangle, and its
    pixel [(x, y)] has the colour of the source pixel [(x0 + x, y0 + y)]
    and is opaque when that pixel is inside the image and not in its last
    column or last row; every other pixel is transparent black. *)
Theorem warp_axis_aligned_crop (img : ImageData.t) (x0 y0 W H : Z) :
  well_formed img -> (0 < W)%Z -> (0 < H)%Z ->
  exists dst,
    warpPerspective img (crop_corners x0 y0 W H) = Resolved dst /\
    ImageData.width dst = W /\ ImageData.height dst = H /\
    forall x y, (0 <= x < W)%Z -> (0 <= y < H)%Z ->
      pixel dst x y
      = if decide (0 <= x0 + x < ImageData.width img - 1 /\
                   0 <= y0 + y < ImageData.height img - 1)%Z
        then take 3 (pixel img (x0 + x) (y0 + y)) ++ [255%Z]
        else [0; 0; 0; 0]%Z.
Proof.
  intros Hwf HW HH.
  exists (ImageData.mk W H
            (warp_loop (Some [1; 0; IZR x0; 0; 1; IZR y0; 0; 0; 1]) img W H
               (replicate (Z.to_nat (W * H * 4)) 0%Z))).
  split; [|split; [reflexivity|split; [reflexivity|]]].
  - pose proof (crop_matrix x0 y0 W H HW HH) as Hm.
    unfold crop_corners in *. unfold warpPerspective.
    destruct (crop_size x0 y0 W H HW HH) as [HdW HdH]. cbv zeta in HdW, HdH.
    cbv zeta. rewrite HdW, HdH. rewrite decide_False by lia.
    rewrite Hm. reflexivity.
  - intros x y Hx Hy. rewrite warp_loop_pixel by assumption.
    destruct (translation_map x0 y0 x y) as (Hw & Hu & Hv).
    cbv zeta in Hw, Hu, Hv.
    assert (Hiff : sampled [1; 0; IZR x0; 0; 1; IZR y0; 0; 0; 1] img x y <->
              (0 <= x0 + x < ImageData.width img - 1 /\
               0 <= y0 + y < ImageData.height img - 1)%Z).
    { unfold sampled. rewrite Hu, Hv, in_bounds_integer. tauto. }
    destruct (decide (0 <= x0 + x < ImageData.width img - 1 /\
                      0 <= y0 + y < ImageData.height img - 1)%Z) as [Hin|Hin].
    + rewrite decide_True by (apply Hiff; exact Hin). cbv zeta.
      rewrite Hu, Hv.
      assert (Hb : in_bounds img (IZR (x0 + x)) (IZR (y0 + y)))
        by (apply in_bounds_integer; exact Hin).
      rewrite !bilinear_at_integer by (try assumption; lia).
      rewrite pixel_slots. reflexivity.
    + rewrite decide_False; [reflexivity|]. rewrite Hiff. exact Hin.
Qed.

End Crop.

Section FurtherWitnesses.
Local Open Scope R_scope.


Lemma warpPerspective_well_formed_witness :
  let img := ImageData.mk 2 2 (replicate 16 255%Z) in
  well_formed
    (ImageData.mk 2 2
       (warp_loop (Some [1; 0; 0; 0; 1; 0; 0; 0; 1]) img 2 2
          (replicate (Z.to_nat (2 * 2 * 4)) 0%Z))).
Proof.
  apply (warpPerspective_well_formed (ImageData.mk 2 2 (replicate 16 255%Z))
           (own_corners (ImageData.mk 2 2 (replicate 16 255%Z)))).
  apply (identity_warp (ImageData.mk 2 2 (replicate 16 255%Z))).
  exact white_2x2_well_formed.
Defined.

Lemma warp_pixel_opaque_iff_sampled_witness :
  let img := ImageData.mk 2 2 (replicate 16 255%Z) in
  let dst :=
    ImageData.mk 2 2
      (warp_loop (Some [1; 0; 0; 0; 1; 0; 0; 0; 1]) img 2 2
         (replicate (Z.to_nat (2 * 2 * 4)) 0%Z)) in
  (pixel dst 0 0 = [0; 0; 0; 0]%Z \/ pixel dst 0 0 !! 3%nat = Some 255%Z) /\
  (pixel dst 0 0 !! 3%nat = Some 255%Z <->
   exists h,
     getHomographyMatrix (dstPts (ImageData.width dst) (ImageData.height dst))
       [Point.mk 0 0; Point.mk 2 0; Point.mk 2 2; Point.mk 0 2] = Some h /\
     sampled h img 0 0).
Proof.
  apply (warp_pixel_opaque_iff_sampled (ImageData.mk 2 2 (replicate 16 255%Z))
           (Point.mk 0 0) (Point.mk 2 0) (Point.mk 2 2) (Point.mk 0 2) []).
  - apply (identity_warp (ImageData.mk 2 2 (replicate 16 255%Z))).
    exact white_2x2_well_formed.
  - cbn. lia.
  - cbn. lia.
Defined.

Lemma bilinear_within_neighbours_witness :
  let img := ImageData.mk 2 2 (replicate 16 255%Z) in
  is_Some (bilinear img 0 0 0) /\
  (255 <= stored (bilinear img 0 0 0) <= 255)%Z.
Proof.
  apply (bilinear_within_neighbours (ImageData.mk 2 2 (replicate 16 255%Z))
           0 0 0 255 255).
  - exact white_2x2_well_formed.
  - apply (proj2 (in_bounds_integer _ 0 0)). cbn. lia.
  - lia.
  - unfold neighbours. cbv zeta. rewrite !(floor_IZR 0).
    repeat (apply Forall_cons; split; [vm_compute; split; discriminate|]).
    apply Forall_nil. exact I.
Defined.


Lemma warp_axis_aligned_crop_witness :
  let img := ImageData.mk 2 2 (replicate 16 255%Z) in
  exists dst,
    warpPerspective img (crop_corners 0 0 1 1) = Resolved dst /\
    ImageData.width dst = 1%Z /\ ImageData.height dst = 1%Z /\
    forall x y, (0 <= x < 1)%Z -> (0 <= y < 1)%Z ->
      pixel dst x y
      = if decide (0 <= 0 + x < ImageData.width img - 1 /\
                   0 <= 0 + y < ImageData.height img - 1)%Z
        then take 3 (pixel img (0 + x) (0 + y)) ++ [255%Z]
        else [0; 0; 0; 0]%Z.
Proof.
  apply (warp_axis_aligned_crop (ImageData.mk 2 2 (replicate 16 255%Z)) 0 0 1 1).
  - exact white_2x2_well_formed.
  - lia.
  - lia.
Defined.

End FurtherWitnesses.
(** ** The list of workers: the image editor and the bulk upload *)

Section Store.

(** X22.  Saving the result of the image editor closes the editor and
    changes one thing in the list of workers: the image of the edited
    field becomes the saved image in every worker with the edited id.
    The number and order of the workers, their other fields and the
    workers with another id are untouched. *)
Theorem image_save_changes_one_field (s : App.t) (workerId : jsstring)
    (field : image_field) (src processedImage : jsstring) :
  let s' := handleImageSave processedImage
              (openImageEditor workerId field src s) in
  App.editingImage s' = None /\
  Forall2
    (fun w w' =>
       same_identity w w' /\
       WorkerData.trade w' = WorkerData.trade w /\
       image_of (other_field field) w' = image_of (other_field field) w /\
       image_of field w'
       = if decide (WorkerData.id w = workerId)
         then Some processedImage else image_of field w)
    (App.workers s) (App.workers s').
Proof.
  cbv zeta. unfold handleImageSave, openImageEditor.
  cbn [App.editingImage App.workers EditingImage.workerId EditingImage.field].
  split; [reflexivity|].
  unfold updateWorker. apply Forall2_fmap_r, Forall_Forall2_diag.
  apply Forall_forall. intros w _.
  unfold compose. cbv beta.
  destruct field; cbn [field_patch other_field image_of];
    repeat case_decide; try contradiction; cbn; repeat split; reflexivity.
Qed.

End Store.

Section Finding.

Lemma list_find_insert_same {B : Type} (P : B -> Prop)
    `{!forall x, Decision (P x)} (l : list B) (j : nat) (x x' : B) :
  l !! j = Some x -> (P x <-> P x') ->
  list_find P (<[j := x']> l)
  = (fun r => (r.1, if decide (r.1 = j) then x' else r.2)) <$> list_find P l.
Proof.
  revert j. induction l as [|y l IH]; intros j Hj HP; [discriminate|].
  destruct j as [|j].
  - injection Hj as ->. csimpl.
    destruct (decide (P x)) as [Hx|Hx].
    + rewrite decide_True by (apply HP; exact Hx). reflexivity.
    + rewrite decide_False by (intros Hx'; apply Hx, HP; exact Hx').
      destruct (list_find P l) as [[i z]|]; reflexivity.
  - csimpl. cbn in Hj.
    destruct (decide (P y)) as [Hy|Hy]; [reflexivity|].
    rewrite (IH j Hj HP).
    destruct (list_find P l) as [[i z]|]; [|reflexivity].
    cbn. destruct (decide (i = j)) as [->|Hne].
    + rewrite decide_True by reflexivity. reflexivity.
    + rewrite decide_False by lia. reflexivity.
Qed.

Lemma list_find_snoc {B : Type} (P : B -> Prop)
    `{!forall x, Decision (P x)} (l : list B) (x : B) :
  list_find P (l ++ [x])
  = match list_find P l with
    | Some r => Some r
    | None => if decide (P x) then Some (length l, x) else None
    end.
Proof.
  destruct (list_find P l) as [[i z]|] eqn:Hf.
  - apply list_find_app_l. exact Hf.
  - rewrite list_find_app_r by exact Hf. cbn [list_find].
    destruct (decide (P x)); reflexivity.
Qed.

(** [findWorkerByName] for a name that is not empty. *)
Lemma findWorkerByName_named (name : jsstring) (l : list WorkerData.t) :
  name <> [] ->
  findWorkerByName name l = list_find (bears (strip_spaces name)) l.
Proof.
  intros Hne. unfold findWorkerByName. rewrite decide_False by exact Hne.
  reflexivity.
Qed.

Lemma findWorkerByName_empty (l : list WorkerData.t) :
  findWorkerByName [] l = None.
Proof. reflexivity. Qed.

Lemma findWorkerByName_Some name l i w :
  findWorkerByName name l = Some (i, w) ->
  name <> [] /\ l !! i = Some w /\ bears (strip_spaces name) w.
Proof.
  intros Hf. destruct (decide (name = [])) as [->|Hne]; [discriminate|].
  rewrite findWorkerByName_named in Hf by exact Hne.
  apply list_find_Some in Hf. destruct Hf as (Hl & Hb & _). auto.
Qed.

Lemma findWorkerByName_None name l :
  findWorkerByName name l = None ->
  name <> [] -> Forall (fun w => ~ bears (strip_spaces name) w) l.
Proof.
  intros Hf Hne. rewrite findWorkerByName_named in Hf by exact Hne.
  apply list_find_None in Hf. exact Hf.
Qed.

End Finding.

Section Names.
Variable ids : nat -> jsstring.
Variable clock : nat -> Z.
Variable workers : list WorkerData.t.

Lemma distinct_names_snoc nw w :
  distinct_names workers nw ->
  (WorkerData.name w <> [] ->
   Forall (fun x => ~ bears (strip_spaces (WorkerData.name w)) x) nw /\
   Forall (fun e => ~ bears (strip_spaces (WorkerData.name w)) e) workers) ->
  distinct_names workers (nw ++ [w]).
Proof.
  intros [Ha Hb] Hnew. split.
  - intros i j wi wj Hi Hj Hij Hni Hnj.
    apply lookup_app_Some in Hi, Hj.
    destruct Hi as [Hi|[Hil Hi]], Hj as [Hj|[Hjl Hj]].
    + apply (Ha i j); assumption.
    + apply list_lookup_singleton_Some in Hj. destruct Hj as [_ <-].
      destruct (Hnew Hnj) as [Hf _]. rewrite Forall_forall in Hf.
      apply (Hf wi). apply list_elem_of_lookup_2 with i. exact Hi.
    + apply list_lookup_singleton_Some in Hi. destruct Hi as [_ <-].
      destruct (Hnew Hni) as [Hf _]. rewrite Forall_forall in Hf.
      intros Heq. apply (Hf wj); [|symmetry; exact Heq].
      apply list_elem_of_lookup_2 with j. exact Hj.
    + apply list_lookup_singleton_Some in Hi, Hj. lia.
  - intros x e Hx He Hn. apply elem_of_app in Hx. destruct Hx as [Hx|Hx].
    + apply (Hb x e); assumption.
    + apply list_elem_of_singleton in Hx. subst x.
      destruct (Hnew Hn) as [_ Hf]. rewrite Forall_forall in Hf.
      apply (Hf e He).
Qed.

Lemma lookup_insert_same_name (nw : list WorkerData.t) i w w' k x :
  nw !! i = Some w -> WorkerData.name w' = WorkerData.name w ->
  <[i := w']> nw !! k = Some x ->
  exists x0, nw !! k = Some x0 /\ WorkerData.name x0 = WorkerData.name x.
Proof.
  intros Hi Hname Hk. apply list_lookup_insert_Some in Hk.
  destruct Hk as [(-> & <- & _)|[Hne Hk]].
  - exists w. split; [exact Hi | symmetry; exact Hname].
  - exists x. split; [exact Hk | reflexivity].
Qed.

Lemma distinct_names_insert nw i w w' :
  distinct_names workers nw ->
  nw !! i = Some w -> WorkerData.name w' = WorkerData.name w ->
  distinct_names workers (<[i := w']> nw).
Proof.
  intros [Ha Hb] Hi Hname. split.
  - intros a b wa wb Hwa Hwb Hab Hna Hnb.
    destruct (lookup_insert_same_name nw i w w' a wa Hi Hname Hwa)
      as (xa & Hxa & Ea).
    destruct (lookup_insert_same_name nw i w w' b wb Hi Hname Hwb)
      as (xb & Hxb & Eb).
    rewrite <- Ea, <- Eb in *. apply (Ha a b); assumption.
  - intros x e Hx He Hn. apply list_elem_of_lookup in Hx. destruct Hx as [k Hk].
    destruct (lookup_insert_same_name nw i w w' k x Hi Hname Hk)
      as (x0 & Hx0 & E0).
    rewrite <- E0 in *. apply (Hb x0 e); [|assumption..].
    apply list_elem_of_lookup_2 with k. exact Hx0.
Qed.

Lemma distinct_names_unnamed nw w :
  distinct_names workers nw -> WorkerData.name w = [] ->
  distinct_names workers (nw ++ [w]).
Proof.
  intros Hinv Hname. apply distinct_names_snoc; [exact Hinv|].
  intros Hne. contradiction.
Qed.

Lemma merge_id_card_names st doc :
  distinct_names workers (Merge.newWorkers st) ->
  distinct_names workers
    (Merge.newWorkers (merge_id_card ids clock workers st doc)).
Proof.
  intros Hinv. unfold merge_id_card. cbv zeta.
  destruct (findWorkerByName (AnalyzedDocument.name doc) (Merge.newWorkers st))
    as [[i w]|] eqn:Hnew.
  - apply findWorkerByName_Some in Hnew. destruct Hnew as (_ & Hi & _).
    cbn [Merge.newWorkers]. apply (distinct_names_insert _ i w); [assumption..|].
    reflexivity.
  - destruct (findWorkerByName (AnalyzedDocument.name doc) workers)
      as [[k e]|] eqn:Hold; cbn [Merge.newWorkers]; [exact Hinv|].
    apply distinct_names_snoc; [exact Hinv|]. cbn [WorkerData.name].
    intros Hne. split.
    + apply findWorkerByName_None; assumption.
    + apply findWorkerByName_None; assumption.
Qed.

Lemma merge_safety_cert_names st doc :
  distinct_names workers (Merge.newWorkers st) ->
  distinct_names workers
    (Merge.newWorkers (merge_safety_cert ids clock workers st doc)).
Proof.
  intros Hinv. unfold merge_safety_cert. cbv zeta.
  destruct (findWorkerByName (AnalyzedDocument.name doc) (Merge.newWorkers st))
    as [[i w]|] eqn:Hnew.
  - apply findWorkerByName_Some in Hnew. destruct Hnew as (_ & Hi & _).
    cbn [Merge.newWorkers]. apply (distinct_names_insert _ i w); [assumption..|].
    reflexivity.
  - destruct (findWorkerByName (AnalyzedDocument.name doc) workers)
      as [[k e]|] eqn:Hold; cbn [Merge.newWorkers]; [exact Hinv|].
    apply distinct_names_snoc; [exact Hinv|]. cbn [WorkerData.name].
    intros Hne. split.
    + apply findWorkerByName_None; assumption.
    + apply findWorkerByName_None; assumption.
Qed.

Lemma merge_unknown_names st doc :
  distinct_names workers (Merge.newWorkers st) ->
  distinct_names workers (Merge.newWorkers (merge_unknown ids clock st doc)).
Proof.
  intros Hinv. unfold merge_unknown. cbv zeta. cbn [Merge.newWorkers].
  apply distinct_names_unnamed; [exact Hinv | reflexivity].
Qed.

Lemma mergeDocuments_names docs :
  distinct_names workers
    (Merge.newWorkers (mergeDocuments ids clock workers docs)).
Proof.
  unfold mergeDocuments. cbv zeta.
  apply (foldl_invariant
           (fun st => distinct_names workers (Merge.newWorkers st)));
    [intros st d; apply merge_unknown_names|].
  apply (foldl_invariant
           (fun st => distinct_names workers (Merge.newWorkers st)));
    [intros st d; apply merge_safety_cert_names|].
  apply (foldl_invariant
           (fun st => distinct_names workers (Merge.newWorkers st)));
    [intros st d; apply merge_id_card_names|].
  split.
  - intros i j wi wj Hi. discriminate.
  - intros w e Hw. apply elem_of_nil in Hw. contradiction.
Qed.

(** X23.  The bulk merge creates no duplicate: two new workers that have
    a name never have the same name, spaces aside, and no new worker with
    a name has the name of a worker that was already in the list. *)
Theorem merge_creates_no_duplicate_names (docs : list AnalyzedDocument.t) :
  let newWorkers := Merge.newWorkers (mergeDocuments ids clock workers docs) in
  (forall i j wi wj,
     newWorkers !! i = Some wi -> newWorkers !! j = Some wj -> i <> j ->
     WorkerData.name wi <> [] -> WorkerData.name wj <> [] ->
     strip_spaces (WorkerData.name wi) <> strip_spaces (WorkerData.name wj)) /\
  (forall w e,
     w ∈ newWorkers -> e ∈ workers -> WorkerData.name w <> [] ->
     strip_spaces (WorkerData.name e) <> strip_spaces (WorkerData.name w)).
Proof. exact (mergeDocuments_names docs). Qed.

End Names.

Section Existing.
Variable ids : nat -> jsstring.
Variable clock : nat -> Z.
Variable workers : list WorkerData.t.

Lemma merge_id_card_updates st doc :
  Forall harmless (Merge.updates st) ->
  Forall harmless (Merge.updates (merge_id_card ids clock workers st doc)).
Proof.
  intros Hinv. unfold merge_id_card. cbv zeta.
  destruct (findWorkerByName _ (Merge.newWorkers st)) as [[i w]|];
    [exact Hinv|].
  destruct (findWorkerByName _ workers) as [[k e]|]; [|exact Hinv].
  cbn [Merge.updates]. apply Forall_app. split; [exact Hinv|].
  apply Forall_singleton. split; reflexivity.
Qed.

Lemma merge_safety_cert_updates st doc :
  Forall harmless (Merge.updates st) ->
  Forall harmless (Merge.updates (merge_safety_cert ids clock workers st doc)).
Proof.
  intros Hinv. unfold merge_safety_cert. cbv zeta.
  destruct (findWorkerByName _ (Merge.newWorkers st)) as [[i w]|];
    [exact Hinv|].
  destruct (findWorkerByName _ workers) as [[k e]|]; [|exact Hinv].
  cbn [Merge.updates]. apply Forall_app. split; [exact Hinv|].
  apply Forall_singleton. split; reflexivity.
Qed.

Lemma mergeDocuments_updates docs :
  Forall harmless (Merge.updates (mergeDocuments ids clock workers docs)).
Proof.
  unfold mergeDocuments. cbv zeta.
  apply (foldl_invariant (fun st => Forall harmless (Merge.updates st)));
    [intros st d Hst; exact Hst|].
  apply (foldl_invariant (fun st => Forall harmless (Merge.updates st)));
    [intros st d; apply merge_safety_cert_updates|].
  apply (foldl_invariant (fun st => Forall harmless (Merge.updates st)));
    [intros st d; apply merge_id_card_updates|].
  apply Forall_nil. exact I.
Qed.

Lemma same_identity_refl w : same_identity w w.
Proof. repeat split. Qed.

Lemma same_identity_trans w1 w2 w3 :
  same_identity w1 w2 -> same_identity w2 w3 -> same_identity w1 w3.
Proof.
  intros (A1 & A2 & A3 & A4) (B1 & B2 & B3 & B4).
  repeat split; congruence.
Qed.

Lemma updateWorker_identity id data prev :
  Patch.name data = None -> Patch.team data = None ->
  Forall2 same_identity prev (updateWorker id data prev).
Proof.
  intros Hn Ht. unfold updateWorker.
  apply Forall2_fmap_r, Forall_Forall2_diag, Forall_forall. intros w _.
  unfold compose. case_decide; [|apply same_identity_refl].
  unfold assign. repeat split; cbn; [rewrite Hn | rewrite Ht]; reflexivity.
Qed.

Lemma updates_identity (us : list (jsstring * Patch.t)) prev :
  Forall harmless us ->
  Forall2 same_identity prev
    (foldl (fun p u => updateWorker (fst u) (snd u) p) prev us).
Proof.
  induction us as [|u us IH] using rev_ind; intros Hus.
  - apply Forall_Forall2_diag, Forall_forall. intros w _.
    apply same_identity_refl.
  - apply Forall_app in Hus. destruct Hus as [Hus Hu].
    rewrite Forall_singleton in Hu. destruct Hu as [Hn Ht].
    rewrite foldl_snoc.
    eapply Forall2_trans; [|apply IH; exact Hus|
                            apply updateWorker_identity; assumption].
    intros w1 w2 w3. apply same_identity_trans.
Qed.

(** X24.  A bulk upload removes and renames no worker: the new list is
    the old one, in its order, with the new workers after it, and every
    old worker keeps its id, name, team and creation time.  The one
    exception is the start of the application: when the list that the
    handler saw was the single card without name and ID image and the
    upload made a worker, the new workers replace the list. *)
Theorem bulk_upload_keeps_existing_workers (docs : list AnalyzedDocument.t)
    (prev : list WorkerData.t) :
  let st := mergeDocuments ids clock workers docs in
  (only_placeholder workers = true /\ Merge.newWorkers st <> [] /\
   commit workers st prev = Merge.newWorkers st) \/
  (exists prev',
     commit workers st prev = prev' ++ Merge.newWorkers st /\
     Forall2 same_identity prev prev').
Proof.
  cbv zeta. unfold commit. cbv zeta.
  destruct (only_placeholder workers) eqn:Hp; cbn [andb].
  - destruct (decide (Merge.newWorkers (mergeDocuments ids clock workers docs)
                      <> [])) as [Hne|Hnil].
    + left. rewrite bool_decide_eq_true_2 by exact Hne. auto.
    + right. rewrite bool_decide_eq_false_2 by exact Hnil.
      eexists. split; [reflexivity|].
      apply updates_identity, mergeDocuments_updates.
  - right. eexists. split; [reflexivity|].
    apply updates_identity, mergeDocuments_updates.
Qed.

End Existing.

Section Pairing.
Variable ids : nat -> jsstring.
Variable clock : nat -> Z.
Variable workers : list WorkerData.t.
Variable t : jsstring.
Hypothesis t_not_empty : t <> [].
Hypothesis t_is_new : Forall (fun e => ~ bears t e) workers.

Lemma strip_spaces_nil : strip_spaces [] = [].
Proof. reflexivity. Qed.

Lemma unnamed_bears_not w : WorkerData.name w = [] -> ~ bears t w.
Proof.
  intros Hname Hb. unfold bears in Hb. rewrite Hname, strip_spaces_nil in Hb.
  apply t_not_empty. symmetry. exact Hb.
Qed.

Lemma not_named_bears_not (d : AnalyzedDocument.t) (w : WorkerData.t) :
  ~ named t d -> WorkerData.name w = AnalyzedDocument.name d -> ~ bears t w.
Proof.
  intros Hd Hname Hb.
  destruct (decide (AnalyzedDocument.name d = [])) as [Hnil|Hne].
  - apply (unnamed_bears_not w); [congruence | exact Hb].
  - apply Hd. split; [exact Hne|]. unfold bears in Hb. congruence.
Qed.

(** Changing in place a worker found for another name leaves the worker
    found for [t] as it is. *)
Lemma find_after_other_insert nw (d : AnalyzedDocument.t) j wj wj' :
  ~ named t d ->
  findWorkerByName (AnalyzedDocument.name d) nw = Some (j, wj) ->
  WorkerData.name wj' = WorkerData.name wj ->
  list_find (bears t) (<[j := wj']> nw) = list_find (bears t) nw.
Proof.
  intros Hd Hf Hname.
  apply findWorkerByName_Some in Hf. destruct Hf as (Hne & Hj & Hbj).
  rewrite (list_find_insert_same (bears t) nw j wj wj' Hj)
    by (unfold bears; rewrite Hname; reflexivity).
  destruct (list_find (bears t) nw) as [[i w]|] eqn:Hfind; [|reflexivity].
  cbn. destruct (decide (i = j)) as [->|Hij]; [|reflexivity].
  exfalso. apply list_find_Some in Hfind. destruct Hfind as (Hi & Hb & _).
  rewrite Hj in Hi. injection Hi as <-.
  apply Hd. split; [exact Hne|]. unfold bears in Hb, Hbj. congruence.
Qed.

Lemma find_after_other_snoc nw w :
  ~ bears t w -> list_find (bears t) (nw ++ [w]) = list_find (bears t) nw.
Proof.
  intros Hb. rewrite list_find_snoc.
  destruct (list_find (bears t) nw) as [r|]; [reflexivity|].
  rewrite decide_False by exact Hb. reflexivity.
Qed.

Lemma merge_id_card_other st d :
  ~ named t d ->
  list_find (bears t) (Merge.newWorkers (merge_id_card ids clock workers st d))
  = list_find (bears t) (Merge.newWorkers st).
Proof.
  intros Hd. unfold merge_id_card. cbv zeta.
  destruct (findWorkerByName (AnalyzedDocument.name d) (Merge.newWorkers st))
    as [[j wj]|] eqn:Hnew.
  - cbn [Merge.newWorkers].
    apply (find_after_other_insert _ d j wj); [assumption..|reflexivity].
  - destruct (findWorkerByName (AnalyzedDocument.name d) workers)
      as [[k e]|]; cbn [Merge.newWorkers]; [reflexivity|].
    apply find_after_other_snoc.
    apply (not_named_bears_not d); [exact Hd | reflexivity].
Qed.

Lemma merge_safety_cert_other st d :
  ~ named t d ->
  list_find (bears t)
    (Merge.newWorkers (merge_safety_cert ids clock workers st d))
  = list_find (bears t) (Merge.newWorkers st).
Proof.
  intros Hd. unfold merge_safety_cert. cbv zeta.
  destruct (findWorkerByName (AnalyzedDocument.name d) (Merge.newWorkers st))
    as [[j wj]|] eqn:Hnew.
  - cbn [Merge.newWorkers].
    apply (find_after_other_insert _ d j wj); [assumption..|reflexivity].
  - destruct (findWorkerByName (AnalyzedDocument.name d) workers)
      as [[k e]|]; cbn [Merge.newWorkers]; [reflexivity|].
    apply find_after_other_snoc.
    apply (not_named_bears_not d); [exact Hd | reflexivity].
Qed.

Lemma merge_unknown_other st d :
  list_find (bears t) (Merge.newWorkers (merge_unknown ids clock st d))
  = list_find (bears t) (Merge.newWorkers st).
Proof.
  unfold merge_unknown. cbv zeta. cbn [Merge.newWorkers].
  apply find_after_other_snoc. apply unnamed_bears_not. reflexivity.
Qed.

Lemma find_named nw d :
  named t d ->
  findWorkerByName (AnalyzedDocument.name d) nw = list_find (bears t) nw.
Proof.
  intros [Hne Ht]. rewrite findWorkerByName_named by exact Hne.
  rewrite Ht. reflexivity.
Qed.

(** An ID card named [t]: the worker found for [t] afterwards has its
    image, and the certificate image that the worker found before
    had. *)
Lemma merge_id_card_named st d :
  named t d ->
  exists i w,
    list_find (bears t)
      (Merge.newWorkers (merge_id_card ids clock workers st d)) = Some (i, w) /\
    WorkerData.idCardImage w = Some (AnalyzedDocument.originalImage d) /\
    WorkerData.safetyCertImage w
    = match list_find (bears t) (Merge.newWorkers st) with
      | Some (_, w0) => WorkerData.safetyCertImage w0
      | None => None
      end.
Proof.
  intros Hd. unfold merge_id_card. cbv zeta.
  rewrite !(find_named _ d Hd).
  destruct (list_find (bears t) (Merge.newWorkers st)) as [[j wj]|] eqn:Hnew.
  - cbn [Merge.newWorkers].
    pose proof Hnew as Hfind. apply list_find_Some in Hfind.
    destruct Hfind as (Hj & Hb & _).
    eexists j, _. split.
    { rewrite (list_find_insert_same (bears t) _ j wj _ Hj)
        by (unfold bears; reflexivity).
      rewrite Hnew. cbn. rewrite decide_True by reflexivity. reflexivity. }
    split; reflexivity.
  - rewrite (proj2 (list_find_None (bears t) workers) t_is_new).
    cbn [Merge.newWorkers].
    eexists _, _. split.
    { rewrite list_find_snoc, Hnew.
      rewrite decide_True; [reflexivity|].
      unfold bears. cbn [WorkerData.name]. apply Hd. }
    split; reflexivity.
Qed.

Lemma merge_safety_cert_named st d :
  named t d ->
  exists i w,
    list_find (bears t)
      (Merge.newWorkers (merge_safety_cert ids clock workers st d))
      = Some (i, w) /\
    WorkerData.safetyCertImage w = Some (AnalyzedDocument.originalImage d) /\
    WorkerData.idCardImage w
    = match list_find (bears t) (Merge.newWorkers st) with
      | Some (_, w0) => WorkerData.idCardImage w0
      | None => None
      end.
Proof.
  intros Hd. unfold merge_safety_cert. cbv zeta.
  rewrite !(find_named _ d Hd).
  destruct (list_find (bears t) (Merge.newWorkers st)) as [[j wj]|] eqn:Hnew.
  - cbn [Merge.newWorkers].
    pose proof Hnew as Hfind. apply list_find_Some in Hfind.
    destruct Hfind as (Hj & Hb & _).
    eexists j, _. split.
    { rewrite (list_find_insert_same (bears t) _ j wj _ Hj)
        by (unfold bears; reflexivity).
      rewrite Hnew. cbn. rewrite decide_True by reflexivity. reflexivity. }
    split; reflexivity.
  - rewrite (proj2 (list_find_None (bears t) workers) t_is_new).
    cbn [Merge.newWorkers].
    eexists _, _. split.
    { rewrite list_find_snoc, Hnew.
      rewrite decide_True; [reflexivity|].
      unfold bears. cbn [WorkerData.name]. apply Hd. }
    split; reflexivity.
Qed.

Lemma holds_images_find a b nw :
  holds_images t a b nw ->
  match list_find (bears t) nw with
  | Some (_, w) =>
      WorkerData.idCardImage w = a /\ WorkerData.safetyCertImage w = b
  | None => a = None /\ b = None
  end.
Proof.
  unfold holds_images. intros H.
  destruct a as [a|], b as [b|];
    try (destruct H as (i & w & -> & Ha & Hb); split; assumption).
  rewrite H. split; reflexivity.
Qed.

Lemma holds_images_ext a b nw nw' :
  list_find (bears t) nw' = list_find (bears t) nw ->
  holds_images t a b nw -> holds_images t a b nw'.
Proof. unfold holds_images. intros ->. auto. Qed.

Lemma id_card_step a st d :
  holds_images t a None (Merge.newWorkers st) ->
  holds_images t (keep_last t a d) None
    (Merge.newWorkers (merge_id_card ids clock workers st d)).
Proof.
  intros Hinv. unfold keep_last.
  destruct (decide (named t d)) as [Hd|Hd].
  - destruct (merge_id_card_named st d Hd) as (i & w & Hf & Hid & Hcert).
    apply holds_images_find in Hinv.
    exists i, w. split; [exact Hf|]. split; [exact Hid|].
    rewrite Hcert.
    destruct (list_find (bears t) (Merge.newWorkers st)) as [[j w0]|];
      [apply Hinv | reflexivity].
  - apply (holds_images_ext _ _ (Merge.newWorkers st)); [|exact Hinv].
    apply merge_id_card_other. exact Hd.
Qed.

Lemma safety_cert_step a b st d :
  holds_images t a b (Merge.newWorkers st) ->
  holds_images t a (keep_last t b d)
    (Merge.newWorkers (merge_safety_cert ids clock workers st d)).
Proof.
  intros Hinv. unfold keep_last.
  destruct (decide (named t d)) as [Hd|Hd].
  - destruct (merge_safety_cert_named st d Hd) as (i & w & Hf & Hcert & Hid).
    apply holds_images_find in Hinv.
    assert (Ha : WorkerData.idCardImage w = a).
    { rewrite Hid.
      destruct (list_find (bears t) (Merge.newWorkers st)) as [[j w0]|];
        [apply Hinv | symmetry; apply Hinv]. }
    unfold holds_images. destruct a as [a|]; exists i, w; auto.
  - apply (holds_images_ext _ _ (Merge.newWorkers st)); [|exact Hinv].
    apply merge_safety_cert_other. exact Hd.
Qed.

Lemma unknown_step a b st d :
  holds_images t a b (Merge.newWorkers st) ->
  holds_images t a b (Merge.newWorkers (merge_unknown ids clock st d)).
Proof. apply holds_images_ext. apply merge_unknown_other. Qed.

Lemma foldl_related {S G D : Type} (R : G -> S -> Prop)
    (f : S -> D -> S) (g : G -> D -> G) (ds : list D) :
  (forall a s d, R a s -> R (g a d) (f s d)) ->
  forall a s, R a s -> R (foldl g a ds) (foldl f s ds).
Proof.
  intros Hstep. induction ds as [|d ds IH]; intros a s HR; [exact HR|].
  cbn [foldl]. apply IH. apply Hstep. exact HR.
Qed.

Lemma keep_last_fold ty docs :
  foldl (keep_last t) None (of_type ty docs) = last_image ty t docs.
Proof.
  unfold last_image, of_type.
  induction docs as [|d docs IH] using rev_ind; [reflexivity|].
  rewrite !filter_app, fmap_app, last_app, foldl_app, IH.
  rewrite !filter_cons, !filter_nil.
  destruct (decide (AnalyzedDocument.type d = ty)) as [Hty|Hty].
  - cbn [foldl]. unfold keep_last.
    destruct (decide (named t d)) as [Hd|Hd].
    + rewrite decide_True by (split; assumption). reflexivity.
    + rewrite decide_False by (intros [_ Hd']; contradiction). reflexivity.
  - rewrite decide_False by (intros [Hty' _]; contradiction). reflexivity.
Qed.

Lemma mergeDocuments_holds docs :
  holds_images t (last_image ID_CARD t docs) (last_image SAFETY_CERT t docs)
    (Merge.newWorkers (mergeDocuments ids clock workers docs)).
Proof.
  unfold mergeDocuments. cbv zeta.
  apply (foldl_invariant
           (fun st => holds_images t (last_image ID_CARD t docs)
                        (last_image SAFETY_CERT t docs) (Merge.newWorkers st)));
    [intros st d; apply unknown_step|].
  rewrite <- (keep_last_fold SAFETY_CERT docs).
  apply (foldl_related
           (fun b st => holds_images t (last_image ID_CARD t docs) b
                          (Merge.newWorkers st)));
    [intros b st d; apply safety_cert_step|].
  rewrite <- (keep_last_fold ID_CARD docs).
  apply (foldl_related
           (fun a st => holds_images t a None (Merge.newWorkers st)));
    [intros a st d; apply id_card_step|].
  reflexivity.
Qed.

(** X25.  The bulk merge brings the documents of one person together.
    For a name [t] with a character that is not a space and that no
    worker of the list bears: when no ID card and no certificate of the
    upload is named [t], no new worker bears [t]; otherwise exactly one
    new worker bears [t], its ID image is that of the last ID card named
    [t] (none if there is no such card) and its certificate image that of
    the last certificate named [t] (none if there is none). *)
Theorem merge_pairs_documents_by_name (docs : list AnalyzedDocument.t) :
  let newWorkers := Merge.newWorkers (mergeDocuments ids clock workers docs) in
  match last_image ID_CARD t docs, last_image SAFETY_CERT t docs with
  | None, None => Forall (fun w => ~ bears t w) newWorkers
  | a, b =>
      exists i w,
        newWorkers !! i = Some w /\ bears t w /\
        (forall j w', newWorkers !! j = Some w' -> bears t w' -> j = i) /\
        WorkerData.idCardImage w = a /\ WorkerData.safetyCertImage w = b
  end.
Proof.
  cbv zeta. pose proof (mergeDocuments_holds docs) as Hholds.
  pose proof (mergeDocuments_names ids clock workers docs) as [Hdistinct _].
  set (nw := Merge.newWorkers (mergeDocuments ids clock workers docs)) in *.
  assert (Hfound : forall i w a b,
            list_find (bears t) nw = Some (i, w) ->
            WorkerData.idCardImage w = a -> WorkerData.safetyCertImage w = b ->
            exists i w,
              nw !! i = Some w /\ bears t w /\
              (forall j w', nw !! j = Some w' -> bears t w' -> j = i) /\
              WorkerData.idCardImage w = a /\ WorkerData.safetyCertImage w = b).
  { intros i w a b Hf Ha Hb. apply list_find_Some in Hf.
    destruct Hf as (Hi & Hbears & _).
    exists i, w. split; [exact Hi|]. split; [exact Hbears|].
    split; [|split; assumption].
    intros j w' Hj Hbears'. destruct (decide (j = i)) as [Heq|Hne]; [exact Heq|].
    exfalso. apply (Hdistinct j i w' w Hj Hi Hne).
    - intros Hnil. apply (unnamed_bears_not w' Hnil Hbears').
    - intros Hnil. apply (unnamed_bears_not w Hnil Hbears).
    - unfold bears in Hbears, Hbears'. congruence. }
  unfold holds_images in Hholds.
  destruct (last_image ID_CARD t docs) as [a|],
           (last_image SAFETY_CERT t docs) as [b|].
  - destruct Hholds as (i & w & Hf & Ha & Hb). apply (Hfound i w); assumption.
  - destruct Hholds as (i & w & Hf & Ha & Hb). apply (Hfound i w); assumption.
  - destruct Hholds as (i & w & Hf & Ha & Hb). apply (Hfound i w); assumption.
  - apply (proj1 (list_find_None (bears t) nw)). exact Hholds.
Qed.

End Pairing.

Lemma merge_pairs_documents_by_name_witness :
  let ids := fun k : nat => [N.of_nat k] in
  let clock := fun _ : nat => 0%Z in
  let t := lit "Kim" in
  let docs :=
    [ AnalyzedDocument.mk ID_CARD (lit "Kim") (lit "welder") (lit "id.jpg");
      AnalyzedDocument.mk SAFETY_CERT (lit "K im") [] (lit "cert.jpg") ] in
  let newWorkers := Merge.newWorkers (mergeDocuments ids clock [] docs) in
  match last_image ID_CARD t docs, last_image SAFETY_CERT t docs with
  | None, None => Forall (fun w => ~ bears t w) newWorkers
  | a, b =>
      exists i w,
        newWorkers !! i = Some w /\ bears t w /\
        (forall j w', newWorkers !! j = Some w' -> bears t w' -> j = i) /\
        WorkerData.idCardImage w = a /\ WorkerData.safetyCertImage w = b
  end.
Proof.
  apply (merge_pairs_documents_by_name (fun k : nat => [N.of_nat k])
           (fun _ : nat => 0%Z) [] (lit "Kim")).
  - discriminate.
  - apply Forall_nil. exact I.
Defined.
(** ** From the editor to the resampler *)

Section EndToEnd.
Local Open Scope R_scope.



End EndToEnd.
